(** * Couchbase Lite Core: split key-store, query enumerator, checkpoints

    A shallow embedding of
      - LiteCore/Storage/BothKeyStore.cc   (live/dead key-store federation),
      - LiteCore/Query/SQLiteQuery.cc      (query enumerator),
      - DBActor.cc                         (peer checkpoint handler),
      - CBForest/Database.cc               (key-store handle cache),
    together with the properties established about them.

    Conventions.  [sequence_t] (uint64_t) is [N]; document flags are a
    bit set held in [Z]; slices are [string]s; a C++ exception is the
    [Throw] outcome of a [result]; a nullable pointer is an [option]. *)

From Stdlib Require Import ZArith NArith List String Ascii Lia Bool.
From stdpp Require Import base option list sorting gmap strings pretty.

Local Open Scope string_scope.

(** ** Outcomes of fallible code *)

Inductive error : Type :=
| AssertionFailed
| InvalidParameter
| InvalidQueryParam
| UnsupportedOperation
| CorruptRevisionData
| NullDereference
| UndefinedShift
| ForestDBError (status : Z).

Inductive result (A : Type) : Type :=
| Ok (a : A)
| Throw (e : error).
Arguments Ok {A} a.
Arguments Throw {A} e.

(** The two sub-stores of a BothKeyStore. *)
Inductive which : Type := Live | Dead.

(** ** Physical key-store *)

Module KeyStore.

(** A stored record: the metadata and body kept under a key. *)
Record Rec : Type := mkRec {
  version : string;
  body : string;
  flags : Z;
  sequence : N
}.

(** [DocumentFlags::kDeleted] (declared in Record.hh). *)
Definition kDeleted : Z := 1.

(** Modelled from the spec: the physical KeyStore (its implementation,
    SQLiteKeyStore, is not among the sources).  A store is a finite map
    with at most one record per key; the sequence counter [lastSeq] is
    passed in and out because live and dead stores share one allocator
    (the constructor calls [shareSequencesWith] on the dead store).

    [set] without [replacingSequence]: unconditional upsert under a new
    sequence.  With [replacingSequence = 0]: insert only if the key is
    absent, else return 0.  With [replacingSequence = s > 0]: update only
    if the stored sequence is [s], else return 0; when [newSequence] is
    false the sequence [s] is reused. *)
Definition set (key vers value : string) (fl : Z)
    (replacingSequence : option N) (newSequence : bool)
    (st : gmap string Rec) (lastSeq : N) : N * gmap string Rec * N :=
  match replacingSequence with
  | None =>
      let seq := (lastSeq + 1)%N in
      (seq, <[key := mkRec vers value fl seq]> st, seq)
  | Some 0%N =>
      match st !! key with
      | Some _ => (0%N, st, lastSeq)
      | None =>
          let seq := (lastSeq + 1)%N in
          (seq, <[key := mkRec vers value fl seq]> st, seq)
      end
  | Some s =>
      match st !! key with
      | Some r =>
          if (sequence r =? s)%N then
            if newSequence then
              let seq := (lastSeq + 1)%N in
              (seq, <[key := mkRec vers value fl seq]> st, seq)
            else
              (s, <[key := mkRec vers value fl s]> st, lastSeq)
          else (0%N, st, lastSeq)
      | None => (0%N, st, lastSeq)
      end
  end.

(** Modelled from the spec: [del(key, tx, expectedSequence?)].  Without an
    expected sequence the row is deleted if present; with one it is a
    compare-and-swap delete, true iff the row existed with that sequence. *)
Definition del (key : string) (expectedSequence : option N)
    (st : gmap string Rec) : bool * gmap string Rec :=
  match st !! key with
  | None => (false, st)
  | Some r =>
      match expectedSequence with
      | None => (true, delete key st)
      | Some s =>
          if (sequence r =? s)%N then (true, delete key st) else (false, st)
      end
  end.

(** Modelled from the spec: [get(key, kMetaOnly, callback)]; the callback
    sees a record whose [exists()] tells whether the key is stored. *)
Definition exists_ (key : string) (st : gmap string Rec) : bool :=
  bool_decide (is_Some (st !! key)).

(** [RecordEnumerator::Options] (RecordEnumerator.hh): the fields the
    key-stores read. *)
Inductive SortOption : Type := kDescending | kUnsorted | kAscending.

Record Options : Type := mkOptions {
  includeDeleted : bool;
  sortOption : SortOption
}.

(** Modelled from the spec: [RecordEnumerator::Impl] of a physical store,
    an abstract cursor "key, sequence, read, next".  [cursor] is the record
    under the cursor (none before the first [next]); [pending] are the
    records still to come, in enumeration order. *)
Record Impl : Type := mkImpl {
  cursor : option (string * Rec);
  pending : list (string * Rec)
}.

Definition Impl_next (i : Impl) : bool * Impl :=
  match pending i with
  | [] => (false, mkImpl None [])
  | x :: r => (true, mkImpl (Some x) r)
  end.

Definition by_key (x y : string * Rec) : Prop := String.leb x.1 y.1 = true.
Definition by_seq (x y : string * Rec) : Prop :=
  (sequence x.2 <= sequence y.2)%N.

#[global] Instance by_key_dec x y : Decision (by_key x y).
Proof. unfold by_key. apply _. Defined.
#[global] Instance by_seq_dec x y : Decision (by_seq x y).
Proof. unfold by_seq. apply _. Defined.

Definition isDeleted (r : Rec) : bool := negb (Z.land (flags r) kDeleted =? 0)%Z.

(** Modelled from the spec: [newEnumerator(bySequence, since, options)] of a
    physical store: its records (those after [since] when ordered by
    sequence, without tombstones unless [includeDeleted]) by key or by
    sequence, ascending or descending. *)
Definition newEnumeratorImpl (bySequence : bool) (since : N)
    (options : Options) (st : gmap string Rec) : Impl :=
  let all := map_to_list st in
  let kept :=
    filter (λ x, (bySequence = false ∨ (since < sequence x.2)%N)
                 ∧ (includeDeleted options = true ∨ isDeleted x.2 = false))
           all in
  let asc := if bySequence then merge_sort by_seq kept
             else merge_sort by_key kept in
  mkImpl None (match sortOption options with
               | kDescending => reverse asc
               | _ => asc
               end).

(** Modelled from the spec: [recordCount(includeDeleted)] of a physical
    store: the number of its records, without the ones flagged Deleted
    unless [includeDeleted]. *)
Definition recordCount (includeDeleted : bool) (st : gmap string Rec) : N :=
  N.of_nat (if includeDeleted then size st
            else size (filter (λ kr, isDeleted kr.2 = false) st)).

(** Modelled from the spec: [withDocBodies(docIDs, callback)] of a physical
    store: one entry per docID, in input order; the callback's answer for
    a stored record, the null slice for a missing one. *)
Definition withDocBodies (docIDs : list string)
    (callback : string → Rec → option string) (st : gmap string Rec)
    : list (option string) :=
  (λ id, r ← st !! id; callback id r) <$> docIDs.

End KeyStore.

(** ** BothEnumeratorImpl: the merged enumerator *)

Module BothEnumeratorImpl.
Import KeyStore.

(** [compare<T>(a, b)] on sequences. *)
Definition compare (a b : N) : Z :=
  if (a <? b)%N then (-1)%Z else if (b <? a)%N then 1%Z else 0%Z.

(** [slice::compare]: byte-wise lexicographic order, as a sign. *)
Definition slice_compare (a b : string) : Z :=
  match String.compare a b with Lt => (-1)%Z | Eq => 0%Z | Gt => 1%Z end.

(** [_liveImpl] and [_deadImpl] are [unique_ptr]s, null once reset;
    [_current] is the raw pointer taken from one of them by [get()], kept
    here as the name of the pointer it was taken from. *)
Record t : Type := mk {
  _liveImpl : option Impl;
  _deadImpl : option Impl;
  _current : option which;
  _cmp : Z;
  _bySequence : bool;
  _descending : bool
}.

Definition create (bySequence : bool) (since : N) (options : Options)
    (liveStore deadStore : gmap string Rec) : t :=
  mk (Some (newEnumeratorImpl bySequence since options liveStore))
     (Some (newEnumeratorImpl bySequence since options deadStore))
     None 0
     bySequence
     (match sortOption options with kDescending => true | _ => false end).

(** [if (!p->next()) p.reset();] on one child; calling through a null
    [unique_ptr] is a null dereference. *)
Definition advance (p : option Impl) : result (option Impl) :=
  match p with
  | None => Throw NullDereference
  | Some i => let '(more, i') := Impl_next i in
              Ok (if more then Some i' else None)
  end.

Definition Impl_key (i : Impl) : string :=
  match cursor i with Some x => x.1 | None => "" end.
Definition Impl_sequence (i : Impl) : N :=
  match cursor i with Some x => sequence x.2 | None => 0%N end.

Definition next (e : t) : result (bool * t) :=
  (* Advance the enumerator with the lowest key, or both if they're equal *)
  match (if (_cmp e <=? 0)%Z then advance (_liveImpl e)
         else Ok (_liveImpl e)) with
  | Throw x => Throw x
  | Ok live =>
    match (if (0 <=? _cmp e)%Z then advance (_deadImpl e)
           else Ok (_deadImpl e)) with
    | Throw x => Throw x
    | Ok dead =>
      (* Compare the enumerators' keys or sequences *)
      let finish (c : Z) :=
        let c := if _descending e then (- c)%Z else c in
        (* Pick the enumerator with the lowest key/sequence; in case of a
           tie, pick the live one *)
        Ok (true, mk live dead
                     (Some (if (c <=? 0)%Z then Live else Dead))
                     c (_bySequence e) (_descending e)) in
      match live, dead with
      | Some l, Some d =>
          finish (if _bySequence e
                  then compare (Impl_sequence l) (Impl_sequence d)
                  else slice_compare (Impl_key l) (Impl_key d))
      | Some _, None => finish (-1)%Z
      | None, Some _ => finish 1%Z
      | None, None =>
          Ok (false, mk live dead None 0 (_bySequence e) (_descending e))
      end
    end
  end.

(** The child enumerator [_current] points to; [get()] of a reset
    [unique_ptr] is null, and so is [_current] before the first [next]. *)
Definition current (e : t) : option Impl :=
  match _current e with
  | Some Live => _liveImpl e
  | Some Dead => _deadImpl e
  | None => None
  end.

(** [read], which goes through [_current] like [key] and [sequence]. *)
Definition read (e : t) : result (string * Rec) :=
  match current e with
  | None => Throw NullDereference
  | Some i => match cursor i with
              | Some x => Ok x
              | None => Throw NullDereference
              end
  end.

Definition key (e : t) : result string :=
  match current e with
  | None => Throw NullDereference
  | Some i => Ok (Impl_key i)
  end.

(** A caller's loop [while (e.next()) out.push_back(e.read())], at most
    [fuel] rounds. *)
Fixpoint drain (fuel : nat) (e : t) : result (list (string * Rec)) :=
  match fuel with
  | O => Ok []
  | S fuel' =>
      match next e with
      | Throw x => Throw x
      | Ok (false, _) => Ok []
      | Ok (true, e') =>
          match read e' with
          | Throw x => Throw x
          | Ok r =>
              match drain fuel' e' with
              | Throw x => Throw x
              | Ok rs => Ok (r :: rs)
              end
          end
      end
  end.

(** *** The merge it is meant to compute *)

(** The order the two children are compared in. *)
Definition order (bySequence : bool) (x y : string * Rec) : Z :=
  if bySequence then compare (sequence x.2) (sequence y.2)
  else slice_compare x.1 y.1.

(** The design's wording, kept apart for comparison: the merge of the two
    children's streams, lowest first; on a tie the live record is taken and
    its dead sibling dropped. *)
Fixpoint merge_live_dead (bySequence : bool) (live : list (string * Rec))
    : list (string * Rec) → list (string * Rec) :=
  fix go (dead : list (string * Rec)) : list (string * Rec) :=
    match live, dead with
    | [], _ => dead
    | _, [] => live
    | x :: live', y :: dead' =>
        if (order bySequence x y <? 0)%Z
        then x :: merge_live_dead bySequence live' dead
        else if (0 <? order bySequence x y)%Z
             then y :: go dead'
             else x :: merge_live_dead bySequence live' dead'
    end.

(** A child enumerator by what it has left, the record under its cursor
    first: reset once nothing is left. *)
Definition child (left : list (string * Rec)) : option Impl :=
  match left with
  | [] => None
  | x :: rest => Some (mkImpl (Some x) rest)
  end.

(** The comparison [next] leaves in [_cmp] when ascending. *)
Definition cmp_of (bySequence : bool) (live dead : list (string * Rec)) : Z :=
  match live, dead with
  | x :: _, y :: _ => order bySequence x y
  | _ :: _, [] => (-1)%Z
  | [], _ :: _ => 1%Z
  | [], [] => 0%Z
  end.

(** The ascending enumerator after a [next] that returned true, by what
    its children have left. *)
Definition state_of (bySequence : bool) (live dead : list (string * Rec)) : t :=
  let c := cmp_of bySequence live dead in
  mk (child live) (child dead) (Some (if (c <=? 0)%Z then Live else Dead))
     c bySequence false.

(** What the children have left after the next call. *)
Definition left_after (bySequence : bool) (live dead : list (string * Rec))
    : list (string * Rec) * list (string * Rec) :=
  let c := cmp_of bySequence live dead in
  (if (c <=? 0)%Z then tail live else live,
   if (0 <=? c)%Z then tail dead else dead).

End BothEnumeratorImpl.

(** ** BothKeyStore::set *)

Module BothKeyStore.
Import KeyStore.

Record t : Type := mk {
  liveStore : gmap string Rec;
  deadStore : gmap string Rec;
  lastSequence : N
}.

Definition sub (w : which) (s : t) : gmap string Rec :=
  match w with Live => liveStore s | Dead => deadStore s end.

Definition with_sub (w : which) (m : gmap string Rec) (seq : N) (s : t) : t :=
  match w with
  | Live => mk m (deadStore s) seq
  | Dead => mk (liveStore s) m seq
  end.

(** Calls on one of the two sub-stores, threading the shared state. *)
Definition sub_set (w : which) (key vers value : string) (fl : Z)
    (replacingSequence : option N) (newSequence : bool) (s : t) : N * t :=
  let '(seq, m, ls) :=
    KeyStore.set key vers value fl replacingSequence newSequence
                 (sub w s) (lastSequence s) in
  (seq, with_sub w m ls s).

Definition sub_del (w : which) (key : string) (expected : option N) (s : t)
    : bool * t :=
  let '(b, m) := KeyStore.del key expected (sub w s) in
  (b, with_sub w m (lastSequence s) s).

Definition deleting (fl : Z) : bool := negb (Z.land fl kDeleted =? 0)%Z.
Definition target (fl : Z) : which := if deleting fl then Dead else Live.
Definition other (fl : Z) : which := if deleting fl then Live else Dead.

(** [BothKeyStore::set].  [replacingSequence = None] is the null pointer.
    [Assert(newSequence)] is LiteCore's always-on assertion: it throws
    [error::AssertionFailed] when its argument is false. *)
Definition set (key vers value : string) (fl : Z)
    (replacingSequence : option N) (newSequence : bool) (s : t)
    : result N * t :=
  match replacingSequence with
  | None =>
      (* Overwrite: just set, and del from other store *)
      let '(seq, s1) := sub_set (target fl) key vers value fl None true s in
      if (0 <? seq)%N
      then (Ok seq, snd (sub_del (other fl) key None s1))
      else (Ok seq, s1)
  | Some rs =>
      (* MVCC *)
      if (rs =? 0)%N && KeyStore.exists_ key (sub (other fl) s)
      then (Ok 0%N, s)
      else
        let '(seq, s1) :=
          sub_set (target fl) key vers value fl (Some rs) newSequence s in
        if (seq =? 0)%N && (0 <? rs)%N then
          (* Conflict. Maybe record is currently in the other KeyStore *)
          if newSequence then
            let '(deleted, s2) := sub_del (other fl) key (Some rs) s1 in
            if deleted
            then let '(seq', s3) :=
                   sub_set (target fl) key vers value fl None true s2 in
                 (Ok seq', s3)
            else (Ok seq, s2)
          else (Throw AssertionFailed, s1)
        else (Ok seq, s1)
  end.

(** What [newEnumeratorImpl] hands back: the merged enumerator, or the live
    sub-store's own. *)
Inductive EnumeratorImpl : Type :=
| Merged (e : BothEnumeratorImpl.t)
| LiveOnly (i : Impl).

Definition newEnumeratorImpl (bySequence : bool) (since : N)
    (options : Options) (s : t) : EnumeratorImpl :=
  if includeDeleted options then
    let options :=
      match sortOption options with
      | kUnsorted => mkOptions (includeDeleted options) kAscending
                                (* we need ordering to merge *)
      | _ => options
      end in
    Merged (BothEnumeratorImpl.create bySequence since options
                                      (liveStore s) (deadStore s))
  else
    let options := mkOptions true (sortOption options) in
    LiveOnly (KeyStore.newEnumeratorImpl bySequence since options
                                         (liveStore s)).

(** [BothKeyStore::nextExpiration] on the two sub-stores' answers. *)
Definition nextExpiration (lx dx : Z) : Z :=
  if (0 <? lx)%Z && (0 <? dx)%Z
  then Z.min lx dx        (* choose the earliest time *)
  else Z.max lx dx.       (* or choose the nonzero time *)

(** The design's wording of the same, kept apart for comparison: the
    minimum of the two answers ignoring zeros, if any is left. *)
Definition earliest_nonzero (lx dx : Z) : option Z :=
  match filter (λ x, (0 < x)%Z) [lx; dx] with
  | [] => None
  | x :: rest => Some (foldr Z.min x rest)
  end.

(** The key [k] is stored in at most one of the two sub-stores. *)
Definition at_most_one (k : string) (s : t) : Prop :=
  liveStore s !! k = None ∨ deadStore s !! k = None.

(** [BothKeyStore::recordCount]; [count] is a uint64_t. *)
Definition recordCount (includeDeleted : bool) (s : t) : N :=
  let count := KeyStore.recordCount true (liveStore s) in
                                (* true is faster, and there are none anyway *)
  if includeDeleted
  then ((count + KeyStore.recordCount true (deadStore s)) mod 2 ^ 64)%N
  else count.

(** [BothKeyStore::withDocBodies].  The first loop collects the docIDs the
    live store did not answer, with their positions; [recheckIndexes] is a
    vector of [nDocs] zeros filled from the front.  Every index the loops
    use is in range, since a physical store answers with one entry per
    docID. *)
Definition recheck_step (docIDs : list string) (result : list (option string))
    (acc : list string * list nat * nat) (i : nat)
    : list string * list nat * nat :=
  let '(recheckDocs, recheckIndexes, nRecheck) := acc in
  match result !!! i with
  | None => ((recheckDocs ++ [docIDs !!! i])%list,
             <[nRecheck := i]> recheckIndexes, S nRecheck)
  | Some _ => acc
  end.

Definition splice_step (dead : list (option string))
    (recheckIndexes : list nat) (result : list (option string)) (i : nat)
    : list (option string) :=
  match dead !!! i with
  | Some b => <[recheckIndexes !!! i := Some b]> result
  | None => result
  end.

Definition withDocBodies (docIDs : list string)
    (callback : string → Rec → option string) (s : t)
    : list (option string) :=
  (* First, delegate to the live store *)
  let nDocs := length docIDs in
  let result := KeyStore.withDocBodies docIDs callback (liveStore s) in
  (* Collect the docIDs that weren't found in the live store *)
  let '(recheckDocs, recheckIndexes, nRecheck) :=
    foldl (recheck_step docIDs result) ([], replicate nDocs 0, 0)
          (seq 0 nDocs) in
  (* Retry those docIDs in the dead store and add any results *)
  if (0 <? nRecheck)%nat then
    let dead := KeyStore.withDocBodies recheckDocs callback (deadStore s) in
    foldl (splice_step dead recheckIndexes) result (seq 0 nRecheck)
  else result.

(** The positions among the first [m] at which an answer is null, in
    increasing order: what the first loop collects. *)
Definition misses (result : list (option string)) (m : nat) : list nat :=
  filter (λ i, result !!! i = None) (seq 0 m).

(** The second loop's round for the docID at position [j], given the dead
    store's answer as a function of the docID. *)
Definition patch (docIDs : list string) (fromDead : string → option string)
    (res : list (option string)) (j : nat) : list (option string) :=
  match fromDead (docIDs !!! j) with
  | Some b => <[j := Some b]> res
  | None => res
  end.

(** Every stored sequence has been handed out by the shared allocator. *)
Definition sequences_bounded (s : t) : Prop :=
  ∀ w k r, sub w s !! k = Some r → (sequence r <= lastSequence s)%N.

(** No two stored records carry the same sequence. *)
Definition sequences_unique (s : t) : Prop :=
  ∀ w1 k1 r1 w2 k2 r2,
    sub w1 s !! k1 = Some r1 → sub w2 s !! k2 = Some r2 →
    sequence r1 = sequence r2 → w1 = w2 ∧ k1 = k2.

(** The live sub-store holds no record flagged Deleted, and the dead one
    none but such. *)
Definition tombstones_apart (s : t) : Prop :=
  ∀ w k r, sub w s !! k = Some r →
    isDeleted r = match w with Live => false | Dead => true end.

End BothKeyStore.

(** ** Machine integers *)

Definition uint32 (z : Z) : Z := (z mod 2 ^ 32)%Z.
Definition uint64 (z : Z) : Z := (z mod 2 ^ 64)%Z.
Definition sint32 (z : Z) : Z := ((z + 2 ^ 31) mod 2 ^ 32 - 2 ^ 31)%Z.
Definition sint64 (z : Z) : Z := ((z + 2 ^ 63) mod 2 ^ 64 - 2 ^ 63)%Z.

(** [a << i] on [int]: the 32-bit two's complement result (so [1 << 31] is
    the most negative [int]); undefined when the count is not below the
    width. *)
Definition int_shl (a i : Z) : result Z :=
  if (0 <=? i)%Z && (i <? 32)%Z then Ok (sint32 (Z.shiftl a i))
  else Throw UndefinedShift.

#[global] Instance result_ret : MRet result := λ A x, Ok x.
#[global] Instance result_bind : MBind result := λ A B f m,
  match m with
  | Ok a => f a
  | Throw e => Throw e
  end.

(** ** SQLiteQuery.cc: the query enumerator *)

Module SQLiteQuery.

(** Fleece values, by the cases [Value::type()], [isInteger()] and
    [isUnsigned()] distinguish. *)
#[local] Unset Elimination Schemes.
Inductive Value : Type :=
| VNull
| VBool (b : bool)
| VInt (i : Z)
| VUInt (u : Z)
| VDouble (bits : Z)
| VString (s : string)
| VData (d : string)
| VArray (items : list Value)
| VDict (entries : list (string * Value)).
#[local] Set Elimination Schemes.

(** A result column of the current row, by its runtime SQLite type. *)
Inductive Column : Type :=
| SQLITE_NULL
| SQLITE_INTEGER (i : Z)
| SQLITE_FLOAT (bits : Z)
| SQLITE_TEXT (s : string)
| SQLITE_BLOB (b : string).

#[global] Instance Column_eq_dec : EqDecision Column.
Proof. solve_decision. Defined.

(** What [Statement::bind] was given: an integer, a double converted from
    a value, a text, or the Fleece encoding of a value as a blob. *)
Inductive Binding : Type :=
| BindInt (i : Z)
| BindDouble (v : Value)
| BindText (s : string)
| BindBlob (v : Value).

(** The compiled query: the parts of [SQLiteQuery] the enumerator reads.
    [sqlParameters] are the parameter names of the compiled statement, as
    SQLite knows them. *)
Record Query : Type := mkQuery {
  _parameters : gset string;
  _ftsTables : list string;
  _1stCustomResultColumn : Z;
  sqlParameters : gset string
}.

(** [Query::Options]. [paramBindings = None] is the null slice. *)
Record Options : Type := mkOptions {
  oneShot : bool;
  paramBindings : option string
}.

(** A recording: the array the encoder wrote and its encoded bytes. *)
Record Doc : Type := mkDoc {
  asArray : list Value;
  data : string
}.

(** [SQLiteQueryPlayback]. [_iter] is the array index of the iterator. *)
Record Playback : Type := mkPlayback {
  _recording : Doc;
  _iter : Z;
  _firstRow : Z
}.

Record Enumerator : Type := mkEnumerator {
  _query : Query;
  _options : Options;
  _statement : option (list (list Column));
  _bindings : gmap string Binding;
  _unboundParameters : gset string;
  _lastSequence : N;
  _rowCount : Z;
  _curRow : Z;
  _curEnumerator : option Playback;
  _nextEnumerator : option Playback;
  _oldEnumerator : option Playback;
  _observingTransaction : bool
}.

Definition set_statement st rc obs (e : Enumerator) : Enumerator :=
  mkEnumerator (_query e) (_options e) st (_bindings e)
    (_unboundParameters e) (_lastSequence e) rc (_curRow e)
    (_curEnumerator e) (_nextEnumerator e) (_oldEnumerator e) obs.

Definition set_playbacks cur nxt old (e : Enumerator) : Enumerator :=
  mkEnumerator (_query e) (_options e) (_statement e) (_bindings e)
    (_unboundParameters e) (_lastSequence e) (_rowCount e) (_curRow e)
    cur nxt old (_observingTransaction e).

Definition set_curRow row (e : Enumerator) : Enumerator :=
  mkEnumerator (_query e) (_options e) (_statement e) (_bindings e)
    (_unboundParameters e) (_lastSequence e) (_rowCount e) row
    (_curEnumerator e) (_nextEnumerator e) (_oldEnumerator e)
    (_observingTransaction e).

Definition set_lastSequence seq (e : Enumerator) : Enumerator :=
  mkEnumerator (_query e) (_options e) (_statement e) (_bindings e)
    (_unboundParameters e) seq (_rowCount e) (_curRow e)
    (_curEnumerator e) (_nextEnumerator e) (_oldEnumerator e)
    (_observingTransaction e).

Definition set_binding unbound bindings (e : Enumerator) : Enumerator :=
  mkEnumerator (_query e) (_options e) (_statement e) bindings
    unbound (_lastSequence e) (_rowCount e) (_curRow e)
    (_curEnumerator e) (_nextEnumerator e) (_oldEnumerator e)
    (_observingTransaction e).

(** *** SQLiteQueryPlayback *)

Definition Playback_count (p : Playback) : Z :=
  Z.of_nat (length (asArray (_recording p))).

Definition Playback_hasEqualContents (p other : Playback) : bool :=
  bool_decide (data (_recording p) = data (_recording other)).

(** [rowIndex -= _firstRow] and [rowIndex *= 2] are 64-bit signed. *)
Definition Playback_seek (rowIndex : Z) (p : Playback) : bool * Playback :=
  let rowIndex := sint64 (rowIndex - _firstRow p) in
  if (rowIndex <? 0)%Z then (false, p)
  else
    let rowIndex := sint64 (rowIndex * 2) in
    if (Playback_count p <=? rowIndex)%Z then (false, p)
    else (true, mkPlayback (_recording p) (uint32 rowIndex) (_firstRow p)).

Definition Playback_next (p : Playback) : bool * Playback :=
  let i := (_iter p + 2)%Z in
  ((i <? Playback_count p)%Z, mkPlayback (_recording p) i (_firstRow p)).

(** [_iter[1u]->asUnsigned()]. *)
Definition Playback_missingColumns (p : Playback) : option Z :=
  match asArray (_recording p) !! Z.to_nat (_iter p + 1) with
  | Some (VUInt m) => Some m
  | _ => None
  end.

Section Fleece.
(** The Fleece library, which this code calls: decoding a stored blob
    ([Value::fromTrustedData], null for corrupt data), finishing an
    encoded array into its bytes ([Encoder::finishDoc]), converting
    JSON, and reading a dictionary out of Fleece data
    ([Value::fromData(..)->asDict()], null for anything else). *)
Variable fromTrustedData : string → option Value.
Variable finishDoc : list Value → string.
Variable convertJSON : string → string.
Variable asDictFromData : string → option (list (string * Value)).

(** *** Binding parameters *)

Definition bind (q : Query) (sqlKey : string) (x : Binding)
    (b : gmap string Binding) : result (gmap string Binding) :=
  if decide (sqlKey ∈ sqlParameters q) then Ok (<[sqlKey := x]> b)
  else Throw InvalidQueryParam.     (* SQLITE_RANGE *)

(** The body of the loop over the dictionary, after the key has been
    erased from [_unboundParameters]. *)
Definition bindValue (q : Query) (key : string) (val : Value)
    (b : gmap string Binding) : result (gmap string Binding) :=
  let sqlKey := "$_" ++ key in
  match val with
  | VNull => Ok b
  | VInt i => bind q sqlKey (BindInt (sint64 i)) b
  | VBool _ | VUInt _ | VDouble _ => bind q sqlKey (BindDouble val) b
  | VString s => bind q sqlKey (BindText s) b
  | VData _ | VArray _ | VDict _ => bind q sqlKey (BindBlob val) b
  end.

Fixpoint bindEntries (q : Query) (entries : list (string * Value))
    (unbound : gset string) (b : gmap string Binding)
    : result (gset string * gmap string Binding) :=
  match entries with
  | [] => Ok (unbound, b)
  | (key, val) :: rest =>
      let unbound := unbound ∖ {[key]} in
      b' ← bindValue q key val b;
      bindEntries q rest unbound b'
  end.

Definition looksLikeJSON (json : string) : bool :=
  match json with
  | String "{" _ =>
      bool_decide (String.get (String.length json - 1) json = Some "}"%char)
  | _ => false
  end.

Definition bindParameters (json : string) (e : Enumerator)
    : result Enumerator :=
  let fleeceData := if looksLikeJSON json then convertJSON json else json in
  match asDictFromData fleeceData with
  | None => Throw InvalidParameter
  | Some root =>
      '(u, b) ← bindEntries (_query e) root (_unboundParameters e)
                            (_bindings e);
      Ok (set_binding u b e)
  end.

(** *** Recording rows *)

Definition encodeColumn (q : Query) (i : Z) (col : Column)
    : result (Value * bool) :=
  match col with
  | SQLITE_NULL => Ok (VNull, false)   (* this column value is missing *)
  | SQLITE_INTEGER n => Ok (VInt n, true)
  | SQLITE_FLOAT d => Ok (VDouble d, true)
  | SQLITE_BLOB b =>
      if (_1stCustomResultColumn q <=? i)%Z then
        match fromTrustedData b with
        | None => Throw CorruptRevisionData
        | Some v => Ok (v, true)
        end
      else Ok (VString b, true)        (* falls through to text *)
  | SQLITE_TEXT s => Ok (VString s, true)
  end.

(** The loop of [encodeRow] from column [i] on; [missingCols] is the
    64-bit accumulator, into which the [int] [1 << i] is converted. *)
Fixpoint encodeColumns (q : Query) (i : Z) (cols : list Column)
    (missingCols : Z) : result (list Value * Z) :=
  match cols with
  | [] => Ok ([], missingCols)
  | col :: rest =>
      '(v, present) ← encodeColumn q i col;
      missingCols ←
        (if negb present && (i <? 64)%Z
         then bit ← int_shl 1 i; Ok (Z.lor missingCols (uint64 bit))
         else Ok missingCols);
      '(vs, m) ← encodeColumns q (i + 1) rest missingCols;
      Ok (v :: vs, m)
  end.

(** [encodeRow]: the array of columns, then the bit-map of missing ones. *)
Definition encodeRow (q : Query) (row : list Column) : result (list Value) :=
  '(vs, missingCols) ← encodeColumns q 0 row 0;
  Ok [VArray vs; VUInt missingCols].

(** *** Stepping the live statement *)

Definition kPageSize : Z := 50.
Definition INT64_MAX : Z := 2 ^ 63 - 1.

(** [stepStatement]: the row stepped onto, if any.  At the end of the
    result set the statement is released and the enumerator stops
    observing transactions. *)
Definition stepStatement (e : Enumerator)
    : option (list Column) * Enumerator :=
  match _statement e with
  | Some (row :: rest) =>
      (Some row, set_statement (Some rest) (uint64 (_rowCount e + 1))
                               (_observingTransaction e) e)
  | Some [] => (None, set_statement None (_rowCount e) false e)
  | None => (None, e)
  end.

(** The loop of [encodeRows]; [fuel] bounds its rounds and is given as
    one more than the number of rows the statement still has. *)
Fixpoint encodeRows_loop (fuel : nat) (maxRows numRows : Z)
    (arr : list Value) (e : Enumerator)
    : result (list Value * Z) * Enumerator :=
  match fuel with
  | O => (Ok (arr, numRows), e)
  | S fuel' =>
      if (numRows <? uint64 maxRows)%Z then
        match stepStatement e with
        | (None, e') => (Ok (arr, numRows), e')
        | (Some row, e') =>
            match encodeRow (_query e) row with
            | Throw x => (Throw x, e')
            | Ok items =>
                encodeRows_loop fuel' maxRows (uint64 (numRows + 1))
                                (arr ++ items) e'
            end
        end
      else (Ok (arr, numRows), e)
  end.

Definition encodeRows (maxRows : Z) (e : Enumerator)
    : result (Doc * Z) * Enumerator :=
  let fuel := S (length (default [] (_statement e))) in
  match encodeRows_loop fuel maxRows 0 [] e with
  | (Ok (arr, numRows), e') =>
      (Ok (mkDoc arr (finishDoc arr), sint64 numRows), e')
  | (Throw x, e') => (Throw x, e')
  end.

Definition recordRows (maxRows : Z) (e : Enumerator)
    : result (option Playback) * Enumerator :=
  match _statement e with
  | None => (Ok None, e)
  | Some _ =>
      let firstRow := _rowCount e in
      match encodeRows maxRows e with
      | (Throw x, e') => (Throw x, e')
      | (Ok (recording, numRows), e') =>
          if (numRows =? 0)%Z then (Ok None, e')
          else (Ok (Some (mkPlayback recording 0 firstRow)), e')
      end
  end.

Definition fastForward (e : Enumerator) : result unit * Enumerator :=
  match _statement e with
  | None => (Ok (), e)
  | Some _ =>
      match _nextEnumerator e with
      | Some _ => (Throw AssertionFailed, e)
      | None =>
          match recordRows INT64_MAX e with
          | (Throw x, e') => (Throw x, e')
          | (Ok p, e') =>
              let e'' := set_playbacks (_curEnumerator e') p
                                       (_oldEnumerator e') e' in
              match _statement e'' with
              | Some _ => (Throw AssertionFailed, e'')
              | None => (Ok (), e'')
              end
          end
      end
  end.

(** The constructor.  [rows] is what stepping the (freshly bound)
    statement will yield against the database as it is now. *)
Definition create (q : Query) (options : Options) (lastSequence : N)
    (rows : list (list Column)) : result Enumerator :=
  let e := mkEnumerator q options (Some rows) ∅ (_parameters q)
                        lastSequence 0 (-1) None None None false in
  e ← match paramBindings options with
      | Some json => bindParameters json e
      | None => Ok e
      end;
  if oneShot options
  then Ok (set_statement (_statement e) (_rowCount e) true e)
  else match fastForward e with
       | (Ok _, e') => Ok e'
       | (Throw x, _) => Throw x
       end.

(** *** Iteration *)

Definition next (e : Enumerator) : result bool * Enumerator :=
  let finish (e : Enumerator) :=
    match _curEnumerator e with
    | Some _ => (Ok true, set_curRow (sint64 (_curRow e + 1)) e)
    | None => (Ok false, e)
    end in
  let stepped :=
    match _curEnumerator e with
    | Some p => let '(more, p') := Playback_next p in (more, Some p')
    | None => (false, None)
    end in
  if stepped.1 then
    finish (set_playbacks stepped.2 (_nextEnumerator e) (_oldEnumerator e) e)
  else
    match _nextEnumerator e with
    | Some n => finish (set_playbacks (Some n) None (_oldEnumerator e) e)
    | None =>
        let e1 :=
          if oneShot (_options e)
          then set_playbacks stepped.2 None (_oldEnumerator e) e
          else set_playbacks None None stepped.2 e
               (* keep it around for refresh() *) in
        match recordRows kPageSize e1 with
        | (Throw x, e2) => (Throw x, e2)
        | (Ok p, e2) =>
            finish (set_playbacks p (_nextEnumerator e2)
                                  (_oldEnumerator e2) e2)
        end
    end.

(** The loop [while (_rowCount < rowIndex) if (!stepStatement()) throw],
    by recursion on the rows the statement still has: whether it ran to
    its end without throwing, and the statement and row count it left. *)
Fixpoint skipRows (rows : list (list Column)) (rowCount rowIndex : Z)
    : bool * (option (list (list Column)) * Z) :=
  if (rowCount <? uint64 rowIndex)%Z then
    match rows with
    | [] => (false, (None, rowCount))
    | _ :: rest => skipRows rest (uint64 (rowCount + 1)) rowIndex
    end
  else (true, (Some rows, rowCount)).

Definition seek (rowIndex : Z) (e : Enumerator) : result unit * Enumerator :=
  if (rowIndex =? _curRow e)%Z then (Ok (), e)    (* No-op *)
  else
    let within :=
      match _curEnumerator e with
      | Some p => let '(ok, p') := Playback_seek rowIndex p in (ok, Some p')
      | None => (false, None)
      end in
    if within.1 then
      (* Within current enumerator *)
      (Ok (), set_curRow rowIndex
                (set_playbacks within.2 (_nextEnumerator e)
                               (_oldEnumerator e) e))
    else if (rowIndex <? _curRow e)%Z then
      (* Seeking back *)
      match _curEnumerator e with
      | Some p =>
          if (sint64 (rowIndex + 1) =? sint64 (_firstRow p))%Z then
            let p' := (Playback_seek (sint64 (_firstRow p)) p).2 in
            (Ok (), set_curRow rowIndex
                      (set_playbacks None (Some p') (_oldEnumerator e) e))
          else (Throw UnsupportedOperation, e)
      | None => (Throw UnsupportedOperation, e)
      end
    else
      (* Seek forward past end of _curEnumerator *)
      match _nextEnumerator e with
      | Some n =>
          let '(ok, n') := Playback_seek rowIndex n in
          if ok then
            (Ok (), set_curRow rowIndex
                      (set_playbacks (Some n') None (_oldEnumerator e) e))
          else (Throw InvalidParameter, e)
      | None =>
          (* Otherwise step forward *)
          let e1 := set_playbacks None None (_oldEnumerator e) e in
          let stepped :=
            match _statement e1 with
            | Some rows =>
                let '(ok, (st, rc)) := skipRows rows (_rowCount e1) rowIndex in
                (ok, set_statement st rc
                       (match st with
                        | Some _ => _observingTransaction e1
                        | None => false
                        end) e1)
            | None => (negb (_rowCount e1 <? uint64 rowIndex)%Z, e1)
            end in
          if stepped.1 then
            match recordRows kPageSize stepped.2 with
            | (Throw x, e3) => (Throw x, e3)
            | (Ok None, e3) => (Throw InvalidParameter, e3)
            | (Ok (Some p), e3) =>
                (Ok (), set_curRow rowIndex
                          (set_playbacks (Some p) (_nextEnumerator e3)
                                         (_oldEnumerator e3) e3))
            end
          else (Throw InvalidParameter, stepped.2)
      end.

(** *** Refreshing *)

(** The recording [hasEqualContents] takes for this enumerator. *)
Definition ownRecording (e : Enumerator) : option Playback :=
  match (match _curEnumerator e with
         | Some p => Some p
         | None => _nextEnumerator e
         end) with
  | Some p => Some p
  | None => _oldEnumerator e
  end.

(** And the one it takes for the other. *)
Definition otherRecording (other : Enumerator) : option Playback :=
  match _curEnumerator other with
  | Some p => Some p
  | None => _nextEnumerator other
  end.

(** Either pointer is dereferenced without a null check. *)
Definition hasEqualContents (e other : Enumerator) : result bool :=
  match ownRecording e, otherRecording other with
  | Some e1, Some e2 => Ok (Playback_hasEqualContents e1 e2)
  | _, _ => Throw NullDereference
  end.

(** [SQLiteQuery::createEnumerator(options, lastSeq)]; [curSeq] is the
    key-store's [lastSequence()] inside the read-only transaction. *)
Definition createEnumerator (q : Query) (options : Options) (lastSeq : N)
    (curSeq : N) (rows : list (list Column)) : result (option Enumerator) :=
  if (0 <? lastSeq)%N && (lastSeq =? curSeq)%N then Ok None
  else e ← create q options curSeq rows; Ok (Some e).

Definition refresh (curSeq : N) (rows : list (list Column))
    (e : Enumerator) : result (option Enumerator) * Enumerator :=
  if oneShot (_options e) then (Throw UnsupportedOperation, e)
  else
    match createEnumerator (_query e) (_options e) (_lastSequence e)
                           curSeq rows with
    | Throw x => (Throw x, e)
    | Ok None => (Ok None, e)
    | Ok (Some newEnum) =>
        match hasEqualContents e newEnum with
        | Throw x => (Throw x, e)
        | Ok false =>
            (* Results have changed, so return new enumerator *)
            (Ok (Some newEnum), e)
        | Ok true =>
            (* Results have not changed, but update my lastSequence *)
            (Ok None, set_lastSequence (_lastSequence newEnum) e)
        end
    end.

End Fleece.

(** *** Consistent enumerator states *)

(** The size of the result set: the rows stepped over so far and those the
    live statement still has. *)
Definition totalRows (e : Enumerator) : Z :=
  (_rowCount e + Z.of_nat (length (default [] (_statement e))))%Z.

(** A recording holds rows from [_firstRow] on, two array items a row, all
    of them among the rows stepped over so far. *)
Definition recorded_within (e : Enumerator) (p : Playback) : Prop :=
  (0 ≤ _firstRow p)%Z
  ∧ (2 * _firstRow p + Playback_count p ≤ 2 * _rowCount e)%Z.

(** What holds of an enumerator between calls: the current row is a row of
    the result set (or -1 before the first), the recordings lie within the
    rows read, and the counts are far from the 64-bit limits. *)
Definition consistent (e : Enumerator) : Prop :=
  (0 ≤ _rowCount e)%Z
  ∧ (totalRows e < 2 ^ 62)%Z
  ∧ (-1 ≤ _curRow e < totalRows e)%Z
  ∧ (∀ p, _curEnumerator e = Some p → recorded_within e p)
  ∧ (∀ p, _nextEnumerator e = Some p → recorded_within e p).

(** *** Reading the current row, counting the rows *)

(** [SQLiteQueryPlayback::columns]: an iterator over the row's array,
    moved on to the first custom result column; here, the items it has
    left.  [_iter[0u]] of an exhausted iterator is null. *)
Definition Playback_columns (q : Query) (p : Playback)
    : option (list Value) :=
  match asArray (_recording p) !! Z.to_nat (_iter p) with
  | Some (VArray vs) => Some (drop (Z.to_nat (_1stCustomResultColumn q)) vs)
  | _ => None
  end.

(** [SQLiteQueryEnumerator::columns] and [missingColumns] go through
    [_curEnumerator] without a null check. *)
Definition columns (e : Enumerator) : result (list Value) :=
  match _curEnumerator e with
  | Some p => match Playback_columns (_query e) p with
              | Some vs => Ok vs
              | None => Throw NullDereference
              end
  | None => Throw NullDereference
  end.

Definition missingColumns (e : Enumerator) : result Z :=
  match _curEnumerator e with
  | Some p => match Playback_missingColumns p with
              | Some m => Ok m
              | None => Throw NullDereference
              end
  | None => Throw NullDereference
  end.

(** [getRowCount]: to get the count it fast-forwards all the way to the
    end; the uint64_t [_rowCount] is returned as an int64_t. *)
Definition getRowCount (fromTrustedData : string → option Value)
    (finishDoc : list Value → string) (e : Enumerator)
    : result Z * Enumerator :=
  match fastForward fromTrustedData finishDoc e with
  | (Ok _, e') => (Ok (sint64 (_rowCount e')), e')
  | (Throw x, e') => (Throw x, e')
  end.

(** [preTransaction], called on a one-shot enumerator before the database
    changes. *)
Definition preTransaction (fromTrustedData : string → option Value)
    (finishDoc : list Value → string) (e : Enumerator)
    : result unit * Enumerator :=
  fastForward fromTrustedData finishDoc
    (set_statement (_statement e) (_rowCount e) false e).

(** A caller's loop
    [while (e.next()) out.push_back({e.columns(), e.missingColumns()})],
    at most [fuel] rounds. *)
Fixpoint collect (fromTrustedData : string → option Value)
    (finishDoc : list Value → string) (fuel : nat) (e : Enumerator)
    : result (list (list Value * Z)) :=
  match fuel with
  | O => Ok []
  | S fuel' =>
      match next fromTrustedData finishDoc e with
      | (Throw x, _) => Throw x
      | (Ok false, _) => Ok []
      | (Ok true, e') =>
          match columns e', missingColumns e' with
          | Ok vs, Ok m =>
              match collect fromTrustedData finishDoc fuel' e' with
              | Ok rest => Ok ((vs, m) :: rest)
              | Throw x => Throw x
              end
          | Throw x, _ | _, Throw x => Throw x
          end
      end
  end.

(** What a caller is meant to read for a result row: its columns as
    [encodeRow] renders them, from the first custom result column on, and
    the bit-map of the missing ones. *)
Definition readRow (fromTrustedData : string → option Value) (q : Query)
    (row : list Column) : result (list Value * Z) :=
  match encodeColumns fromTrustedData q 0 row 0 with
  | Ok (vs, m) => Ok (drop (Z.to_nat (_1stCustomResultColumn q)) vs, m)
  | Throw x => Throw x
  end.

(** The array [encodeRows] leaves for rows whose columns encode to
    [pairs]: two items a row, the columns and the bit-map. *)
Definition recorded (pairs : list (list Value * Z)) : list Value :=
  pairs ≫= λ pr, [VArray pr.1; VUInt pr.2].

(** What a caller sees of a row's encoded columns and bit-map. *)
Definition shown (q : Query) (pr : list Value * Z) : list Value * Z :=
  (drop (Z.to_nat (_1stCustomResultColumn q)) pr.1, pr.2).

(** A buffered enumerator standing on row [k] of its one recording. *)
Definition at_row (q : Query) (opts : Options) (b : gmap string Binding)
    (u : gset string) (seq : N) (rc : Z) (old : option Playback)
    (pairs : list (list Value * Z)) (dat : string) (k : nat) : Enumerator :=
  mkEnumerator q opts None b u seq rc (Z.of_nat k)
    (Some (mkPlayback (mkDoc (recorded pairs) dat) (Z.of_nat (2 * k)) 0))
    None old false.

(** A caller's sequence of seeks, stopped by the first that throws. *)
Fixpoint seeks (fromTrustedData : string → option Value)
    (finishDoc : list Value → string) (idxs : list Z) (e : Enumerator)
    : result unit * Enumerator :=
  match idxs with
  | [] => (Ok (), e)
  | i :: rest =>
      match seek fromTrustedData finishDoc i e with
      | (Ok _, e') => seeks fromTrustedData finishDoc rest e'
      | (Throw x, e') => (Throw x, e')
      end
  end.

(** Whether the loop of [bindParameters] gets past a dictionary entry: a
    null value binds nothing; any other value needs a parameter of the
    compiled statement by the name [$_key]. *)
Definition bindable (q : Query) (kv : string * Value) : bool :=
  match kv.2 with
  | VNull => true
  | _ => bool_decide ("$_" ++ kv.1 ∈ sqlParameters q)
  end.

(** A caller's [k] calls of [next], stopped by the first that does not
    return true. *)
Fixpoint nexts (fromTrustedData : string → option Value)
    (finishDoc : list Value → string) (k : nat) (e : Enumerator)
    : result bool * Enumerator :=
  match k with
  | O => (Ok true, e)
  | S k' =>
      match next fromTrustedData finishDoc e with
      | (Ok true, e') => nexts fromTrustedData finishDoc k' e'
      | other => other
      end
  end.

(** An enumerator over the result set [rows], whose columns encode to
    [pairs], while it stands on row [r]: its current recording holds the
    [c] rows from row [d] on and has its iterator on row [r]; after it,
    [m] more rows are recorded and queued as next, which happens only
    once the statement has been read to its end; the rows after those are
    still to be stepped over, or there are none and the statement has
    been released. *)
Definition standing_on (q : Query) (opts : Options)
    (rows : list (list Column)) (pairs : list (list Value * Z))
    (r : nat) (e : Enumerator) : Prop :=
  ∃ (d c m : nat) (dat : string),
    (d ≤ r < d + c)%nat ∧ (d + c + m ≤ length rows)%nat
    ∧ _query e = q ∧ _options e = opts
    ∧ _rowCount e = Z.of_nat (d + c + m)
    ∧ _curRow e = Z.of_nat r
    ∧ (_statement e = Some (drop (d + c + m) rows) ∧ m = 0%nat
       ∨ _statement e = None ∧ (d + c + m)%nat = length rows)
    ∧ _curEnumerator e
      = Some (mkPlayback (mkDoc (recorded (take c (drop d pairs))) dat)
                         (Z.of_nat (2 * (r - d))) (Z.of_nat d))
    ∧ match m with
      | O => _nextEnumerator e = None
      | _ => ∃ dat',
          _nextEnumerator e
          = Some (mkPlayback
                    (mkDoc (recorded (take m (drop (d + c) pairs))) dat')
                    0 (Z.of_nat (d + c)))
      end.

(** The same before the first row: nothing read yet, or everything
    recorded and queued as next. *)
Definition before_first (q : Query) (opts : Options)
    (rows : list (list Column)) (pairs : list (list Value * Z))
    (e : Enumerator) : Prop :=
  _query e = q ∧ _options e = opts ∧ _curRow e = (-1)%Z
  ∧ _curEnumerator e = None
  ∧ (_statement e = Some rows ∧ _rowCount e = 0%Z ∧ _nextEnumerator e = None
     ∨ _statement e = None ∧ _rowCount e = Z.of_nat (length rows)
       ∧ match rows with
         | [] => _nextEnumerator e = None
         | _ => ∃ dat, _nextEnumerator e
                       = Some (mkPlayback (mkDoc (recorded pairs) dat) 0 0)
         end).

(** A one-shot enumerator over [rows] that has only been stepped by
    [next], while it stands on row [r] of page [j]: its current recording
    holds that page, [kPageSize] = 50 rows from row [50 * j] on or what
    is left of them; the statement has been stepped through these rows
    and no further, and has been released only if it ran out of rows
    while the page was read; nothing is queued. *)
Definition paged_on (q : Query) (opts : Options)
    (rows : list (list Column)) (pairs : list (list Value * Z))
    (r : nat) (e : Enumerator) : Prop :=
  ∃ (j : nat) (dat : string),
    let d := (50 * j)%nat in
    let c := (50 `min` (length rows - d))%nat in
    (d ≤ r < d + c)%nat
    ∧ _query e = q ∧ _options e = opts
    ∧ _rowCount e = Z.of_nat (d + c)
    ∧ _curRow e = Z.of_nat r
    ∧ _statement e = (if (length rows <? d + 50)%nat then None
                      else Some (drop (d + 50) rows))
    ∧ _curEnumerator e
      = Some (mkPlayback (mkDoc (recorded (take c (drop d pairs))) dat)
                         (Z.of_nat (2 * (r - d))) (Z.of_nat d))
    ∧ _nextEnumerator e = None.

End SQLiteQuery.

(** ** DBActor.cc: peer checkpoints *)

Module DBActor.

Record C4RawDocument : Type := mkRawDocument {
  meta : string;
  body : string
}.

(** An incoming BLIP request: its properties and body. *)
Record MessageIn : Type := mkMessageIn {
  properties : gmap string string;
  requestBody : string
}.

(** [MessageIn::property]: the null slice when the property is absent. *)
Definition property (name : string) (request : MessageIn) : option string :=
  properties request !! name.

(** What was sent back on a request. *)
Inductive Response : Type :=
| respondWithError (domain : string) (code : Z)
| respond (props : gmap string string).

(** How the database answers during one call: whether the transaction
    begins, whether the raw read fails with an error other than NotFound,
    whether the raw write and the commit succeed. *)
Record Env : Type := mkEnv {
  beginOK : bool;
  readFails : bool;
  putOK : bool;
  commitOK : bool
}.

(** Slice equality: same length and bytes; the null slice is empty. *)
Definition slice_eqb (a b : option string) : bool :=
  bool_decide (default "" a = default "" b).

Definition LONG_MAX : Z := 2 ^ 63 - 1.
Definition LONG_MIN : Z := - 2 ^ 63.

Definition isspace (c : ascii) : bool :=
  let n := N_of_ascii c in
  (n =? 32)%N || ((9 <=? n)%N && (n <=? 13)%N).

Definition digit_of (c : ascii) : option Z :=
  let n := Z.of_N (N_of_ascii c) in
  if (48 <=? n)%Z && (n <=? 57)%Z then Some (n - 48)%Z else None.

Fixpoint skip_space (s : string) : string :=
  match s with
  | String c r => if isspace c then skip_space r else s
  | EmptyString => s
  end.

Fixpoint digits_value (s : string) (acc : Z) : Z :=
  match s with
  | String c r =>
      match digit_of c with
      | Some d => digits_value r (10 * acc + d)%Z
      | None => acc
      end
  | EmptyString => acc
  end.

(** [strtol(buf, &end, 10)] on the bytes of the slice: white space, an
    optional sign, decimal digits; the result saturates at the bounds of
    [long].  The slice is taken to be followed by a byte that is no
    digit. *)
Definition strtol (s : string) : Z :=
  match skip_space s with
  | String "-" r => Z.max (- digits_value r 0) LONG_MIN
  | String "+" r => Z.min (digits_value r 0) LONG_MAX
  | r => Z.min (digits_value r 0) LONG_MAX
  end.

(** [sprintf("%lu-cc", generation)]. *)
Definition newRev (generation : Z) : string :=
  pretty (Z.to_N generation) +:+ "-cc".

(** [getPeerCheckpointDoc]: the response when it answered the request
    itself (and returned false), else the checkpoint ID and the document
    read (null when there is none). *)
Definition getPeerCheckpointDoc (env : Env) (request : MessageIn)
    (getting : bool) (peerCheckpoints : gmap string C4RawDocument)
    : Response + (string * option C4RawDocument) :=
  match property "client" request with
  | None => inl (respondWithError "BLIP" 400)
  | Some checkpointID =>
      let doc := if readFails env then None
                 else peerCheckpoints !! checkpointID in
      match doc with
      | Some d => inr (checkpointID, Some d)
      | None =>
          let status := if readFails env then 502%Z else 404%Z in
          if getting || negb (status =? 404)%Z
          then inl (respondWithError "HTTP" status)
          else inr (checkpointID, None)
      end
  end.

(** [handleSetCheckpoint]: the responses sent, in order, and the peer
    checkpoint store once the transaction object has gone out of scope
    (an uncommitted transaction is aborted).  A transaction that does not
    begin is answered with HTTP 502 and the handler goes on: the save
    depends on what [c4raw_put] and [t.commit] answer, nothing else. *)
Definition handleSetCheckpoint (env : Env) (request : MessageIn)
    (peerCheckpoints : gmap string C4RawDocument)
    : list Response * gmap string C4RawDocument :=
  let sent := if beginOK env then [] else [respondWithError "HTTP" 502] in
  (* Get the existing raw doc so we can check its revID *)
  match getPeerCheckpointDoc env request false peerCheckpoints with
  | inl r => ((sent ++ [r])%list, peerCheckpoints)
  | inr (checkpointID, doc) =>
      let actualRev := meta <$> doc in
      let generation :=
        match doc with
        | Some d => uint64 (strtol (meta d))
        | None => 0%Z
        end in
      (* Check for conflict *)
      if negb (slice_eqb (property "rev" request) actualRev)
      then ((sent ++ [respondWithError "HTTP" 409])%list, peerCheckpoints)
      else
        (* Generate new revID *)
        let generation := uint64 (generation + 1) in
        let rev := newRev generation in
        (* Save *)
        if putOK env && commitOK env
        then ((sent ++ [respond {["rev" := rev]}])%list,
              <[checkpointID := mkRawDocument rev (requestBody request)]>
                peerCheckpoints)
        else ((sent ++ [respondWithError "HTTP" 502])%list, peerCheckpoints)
  end.

(** *** Getting a checkpoint *)

(** [handleGetCheckpoint]: the response, and the body written into it
    (none with an error).  [doc] is dereferenced without a check,
    [getPeerCheckpointDoc] having answered the request itself when there
    is no document. *)
Definition handleGetCheckpoint (env : Env) (request : MessageIn)
    (peerCheckpoints : gmap string C4RawDocument)
    : result (Response * option string) :=
  match getPeerCheckpointDoc env request true peerCheckpoints with
  | inl r => Ok (r, None)
  | inr (_, Some doc) => Ok (respond {["rev" := meta doc]}, Some (body doc))
  | inr (_, None) => Throw NullDereference
  end.

(** A peer that saves one checkpoint after another, each time presenting
    the rev it was given last (none at first); it stops at the first
    request that is not answered with just a rev. *)
Fixpoint setCheckpoints (env : Env) (client : string) (rev : option string)
    (bodies : list string) (peerCheckpoints : gmap string C4RawDocument)
    : option string * gmap string C4RawDocument :=
  match bodies with
  | [] => (rev, peerCheckpoints)
  | data :: rest =>
      let props : gmap string string :=
        match rev with
        | Some r => {["client" := client; "rev" := r]}
        | None => {["client" := client]}
        end in
      match handleSetCheckpoint env (mkMessageIn props data)
                                peerCheckpoints with
      | ([respond answer], store') =>
          setCheckpoints env client (answer !! "rev") rest store'
      | (_, store') => (rev, store')
      end
  end.

(** *** Reading local changes *)

(** [_getChanges].  [enumerated] is what [c4db_enumerateChanges] gives:
    nothing when it fails, else the documents changed since [since] in
    order; [endError] is the error [c4enum_next] reports, if any, when it
    returns false.  The loop asks the enumerator for the next document
    before it looks at [limit], an unsigned.  The result: the changes and
    the error handed to [gotChanges], and whether a change observer was
    created. *)
Fixpoint getChanges_loop (infos : list string) (limit : Z)
    (changes : list string) (endError : bool)
    : list string * Z * bool :=
  match infos with
  | [] => (changes, limit, endError)
  | info :: rest =>
      if (0 <? limit)%Z
      then getChanges_loop rest (uint32 (limit - 1)) (changes ++ [info])%list
                           endError
      else (changes, limit, false)
  end.

Definition getChanges (enumerated : option (list string)) (endError : bool)
    (limit : Z) (continuous : bool) (changeObserver : bool)
    : list string * bool * bool :=
  let '(changes, limit, error) :=
    match enumerated with
    | Some infos => getChanges_loop infos limit [] endError
    | None => ([], limit, true)
    end in
  let observe := continuous && (0 <? limit)%Z && negb changeObserver in
  (* Reached the end of history; now start observing for future changes *)
  (changes, error, observe).

(** *** Changes the observer reports *)

(** An entry of the array [c4dbobs_getChanges] fills, and the [Rev] that
    [changes.emplace_back(docID, revID, sequence)] makes of it. *)
Record C4DatabaseChange : Type := mkDatabaseChange {
  c4docID : string;
  c4revID : string;
  c4sequence : N
}.

Record Rev : Type := mkRev {
  rev_docID : string;
  rev_revID : string;
  rev_sequence : N
}.

Definition Rev_of (c : C4DatabaseChange) : Rev :=
  mkRev (c4docID c) (c4revID c) (c4sequence c).

(** [dbChanged].  [batches] is what the successive calls of
    [c4dbobs_getChanges] write into [c4changes] (nothing once the list is
    used up); the loop ends at the first call that returns 0.  The vector
    [changes] is declared before the loop and handed to [gotChanges] as
    it stands at the end of each round.  The result: the vectors handed to
    [gotChanges], call by call. *)
Fixpoint dbChanged_loop (batches : list (list C4DatabaseChange))
    (changes : list Rev) : list (list Rev) :=
  match batches with
  | [] => []
  | [] :: _ => []                         (* nChanges == 0: break *)
  | c4changes :: rest =>
      let changes := (changes ++ (Rev_of <$> c4changes))%list in
      changes :: dbChanged_loop rest changes
  end.

Definition dbChanged (batches : list (list C4DatabaseChange))
    : list (list Rev) :=
  dbChanged_loop batches [].

(** The batches the loop of [dbChanged] gets to see: those before the
    first call that returns 0. *)
Fixpoint reported (batches : list (list C4DatabaseChange))
    : list (list C4DatabaseChange) :=
  match batches with
  | [] => []
  | [] :: _ => []
  | batch :: rest => batch :: reported rest
  end.

(** *** Looking up the revisions of a "changes" message *)

(** An item of the message, [sequence, docID, revID]; a part that is not
    of the expected kind reads as the null slice. *)
Record Change : Type := mkChange {
  changeSequence : option string;
  changeDocID : option string;
  changeRevID : option string
}.

(** What the encoder wrote into the response array. *)
Inductive Written : Type :=
| writeInt0
| writeAncestors (ancestors : list string).

(** The loop [while (++itemsWritten < i) encoder.writeInt(0)], on
    unsigned counters; [fuel] bounds its rounds. *)
Fixpoint writeZeros (fuel : nat) (itemsWritten i : Z) (out : list Written)
    : Z * list Written :=
  match fuel with
  | O => (itemsWritten, out)
  | S fuel' =>
      let itemsWritten := uint32 (itemsWritten + 1) in
      if (itemsWritten <? i)%Z
      then writeZeros fuel' itemsWritten i (out ++ [writeInt0])%list
      else (itemsWritten, out)
  end.

Record FindState : Type := mkFindState {
  find_i : Z;
  find_itemsWritten : Z;
  find_requested : Z;
  find_out : list Written;
  find_requestedSequences : list string
}.

(** The loop of [_findOrRequestRevs] over the items; [findAncestors] is
    the look-up in the database, which tells whether the revision exists
    and, if not, which ancestors of it do.  An invalid item ends the call
    with neither callback nor response. *)
Fixpoint findOrRequestRevs_loop
    (findAncestors : string → string → bool * list string)
    (callback : bool) (changes : list Change) (st : FindState)
    : option FindState :=
  match changes with
  | [] => Some st
  | change :: rest =>
      match changeDocID change, changeRevID change with
      | Some docID, Some revID =>
          let '(revExists, ancestors) := findAncestors docID revID in
          let st :=
            if revExists then st
            else
              (* I don't have this revision, so request it *)
              let '(itemsWritten, out) :=
                writeZeros (S (Z.to_nat (find_i st))) (find_itemsWritten st)
                           (find_i st) (find_out st) in
              mkFindState (find_i st) itemsWritten
                (uint32 (find_requested st + 1))
                (out ++ [writeAncestors ancestors])%list
                (if callback then
                   match changeSequence change with
                   | Some sequence =>
                       (find_requestedSequences st ++ [sequence])%list
                   | None => find_requestedSequences st
                   end
                 else find_requestedSequences st) in
          findOrRequestRevs_loop findAncestors callback rest
            (mkFindState (uint32 (find_i st + 1)) (find_itemsWritten st)
               (find_requested st) (find_out st)
               (find_requestedSequences st))
      | _, _ => None
      end
  end.

(** [_findOrRequestRevs]: the response array and the sequences handed to
    the callback. *)
Definition findOrRequestRevs
    (findAncestors : string → string → bool * list string)
    (callback : bool) (changes : list Change)
    : option (list Written * list string) :=
  match findOrRequestRevs_loop findAncestors callback changes
          (mkFindState 0 0 0 [] []) with
  | Some st => Some (find_out st, find_requestedSequences st)
  | None => None
  end.

(** The entry an item of the message is meant to get in the response:
    the ancestors if the revision is requested, else 0. *)
Definition entryOf (findAncestors : string → string → bool * list string)
    (change : Change) : Written :=
  match changeDocID change, changeRevID change with
  | Some docID, Some revID =>
      let '(revExists, ancestors) := findAncestors docID revID in
      if revExists then writeInt0 else writeAncestors ancestors
  | _, _ => writeInt0
  end.

Definition is_zero (w : Written) : bool :=
  match w with writeInt0 => true | writeAncestors _ => false end.

(** A response array without its trailing zeros. *)
Fixpoint drop_zeros (l : list Written) : list Written :=
  match l with
  | writeInt0 :: rest => drop_zeros rest
  | _ => l
  end.

Definition trim_zeros (l : list Written) : list Written :=
  reverse (drop_zeros (reverse l)).

(** An item with a docID and a revID. *)
Definition validChange (change : Change) : bool :=
  bool_decide (is_Some (changeDocID change))
  && bool_decide (is_Some (changeRevID change)).

(** Whether the revision of a (valid) item is asked for. *)
Definition requestedChange
    (findAncestors : string → string → bool * list string)
    (change : Change) : bool :=
  negb (is_zero (entryOf findAncestors change)).

(** The sequences of the requested revisions, which the callback is
    meant to get. *)
Definition sequencesOf
    (findAncestors : string → string → bool * list string)
    (callback : bool) (changes : list Change) : list string :=
  if callback
  then filter (λ c, requestedChange findAncestors c = true) changes
       ≫= λ c, option_list (changeSequence c)
  else [].

(** *** The history of a revision, sent and received *)

(** The loop of [_sendRevision] that writes the history into
    [historyStream], round [n] on: [parents] are the revisions
    [c4doc_selectParentRevision] selects one after another (it fails once
    they are used up), [ancestors] the revisions the peer is known to
    have. *)
Fixpoint historyStream (n maxHistory : nat) (ancestors : gset string)
    (parents : list string) : string :=
  if (n <? maxHistory)%nat then
    match parents with
    | [] => ""
    | revID :: rest =>
        (if (0 <? n)%nat then "," else "")
        +:+ revID
        +:+ (if decide (revID ∈ ancestors) then ""
             else historyStream (S n) maxHistory ancestors rest)
    end
  else "".

(** The revisions that loop goes through, as a list. *)
Fixpoint historyList (maxHistory : nat) (ancestors : gset string)
    (parents : list string) : list string :=
  match maxHistory, parents with
  | S n, revID :: rest =>
      revID :: (if decide (revID ∈ ancestors) then []
                else historyList n ancestors rest)
  | _, _ => []
  end.

(** The loop of [_insertRevisionsNow] that cuts [historyBuf] at its
    commas ([findByteOrEnd]); [piece] is the part of the current piece
    already passed. *)
Fixpoint splitHistory_from (s : string) (piece : string) : list string :=
  match s with
  | EmptyString => [piece]
  | String "," rest =>
      piece :: match rest with
               | EmptyString => []
               | _ => splitHistory_from rest ""
               end
  | String c rest => splitHistory_from rest (piece +:+ String c "")
  end.

Definition splitHistory (historyBuf : string) : list string :=
  match historyBuf with
  | EmptyString => []
  | _ => splitHistory_from historyBuf ""
  end.

(** A revision ID that can travel in a history: not empty, no comma. *)
Fixpoint no_comma (s : string) : bool :=
  match s with
  | EmptyString => true
  | String "," _ => false
  | String _ rest => no_comma rest
  end.

Definition plainRevID (revID : string) : bool :=
  negb (String.eqb revID "") && no_comma revID.

(** *** Queueing revisions for insertion *)

Definition kMaxRevsToInsert : nat := 100.

Record RevToInsert : Type := mkRevToInsert {
  docID : string;
  revID : string;
  historyBuf : string;
  revBody : string;
  deleted : bool
}.

(** The fields of a [C4DocPutRequest] that vary. *)
Record PutRequest : Type := mkPutRequest {
  putDocID : string;
  putHistory : list string;
  putBody : string;
  putDeleted : bool
}.

(** How the database answers while one revision is inserted: whether
    [transaction.begin], [c4doc_put] and [transaction.commit] succeed. *)
Record DbAnswer : Type := mkDbAnswer {
  txBegin : bool;
  docPut : bool;
  txCommit : bool
}.

(** The queue, the calls of [_insertRevisionsNow] that [enqueueAfter] has
    scheduled and that have not run yet, the requests given to
    [c4doc_put] so far, and the revisions gone through so far, each with
    whether [err] was cleared for it (what [onInserted] is told, for a
    revision that has one). *)
Record Inserter : Type := mkInserter {
  _revsToInsert : list RevToInsert;
  scheduled : nat;
  puts : list PutRequest;
  outcomes : list (RevToInsert * bool)
}.

Definition putRequestOf (rev : RevToInsert) : PutRequest :=
  mkPutRequest (docID rev) (revID rev :: splitHistory (historyBuf rev))
               (revBody rev) (deleted rev).

(** One round of the loop of [_insertRevisionsNow]; [answers i] is how
    the database answers for the [i]-th revision the actor goes
    through.  The request is given to [c4doc_put] only if the transaction
    began, and [err] is cleared only if the put and the commit worked as
    well. *)
Definition insertOne (answers : nat → DbAnswer) (st : Inserter)
    (rev : RevToInsert) : Inserter :=
  let a := answers (length (outcomes st)) in
  let puts' := if txBegin a then (puts st ++ [putRequestOf rev])%list
               else puts st in
  let success := txBegin a && docPut a && txCommit a in
  mkInserter (_revsToInsert st) (scheduled st) puts'
             (outcomes st ++ [(rev, success)]).

Definition insertRevisionsNow (answers : nat → DbAnswer) (st : Inserter)
    : Inserter :=
  match _revsToInsert st with
  | [] => st
  | revs =>
      let st := foldl (insertOne answers) st revs in
      mkInserter [] (scheduled st) (puts st) (outcomes st)
  end.

Definition insertRevision (answers : nat → DbAnswer) (rev : RevToInsert)
    (st : Inserter) : Inserter :=
  let n := length (_revsToInsert st) in
  let st := mkInserter (_revsToInsert st ++ [rev]) (scheduled st) (puts st)
                       (outcomes st) in
  if (n =? 0)%nat
  then mkInserter (_revsToInsert st) (S (scheduled st)) (puts st)
                  (outcomes st)
  else if (kMaxRevsToInsert <=? n)%nat then insertRevisionsNow answers st
  else st.

(** What the actor's mailbox delivers: a revision to insert, or a
    scheduled call whose delay has passed. *)
Inductive InserterEvent : Type :=
| Insert (rev : RevToInsert)
| DelayPassed.

Definition inserterStep (answers : nat → DbAnswer) (st : Inserter)
    (ev : InserterEvent) : Inserter :=
  match ev with
  | Insert rev => insertRevision answers rev st
  | DelayPassed =>
      match scheduled st with
      | O => st
      | S k => insertRevisionsNow answers
                 (mkInserter (_revsToInsert st) k (puts st) (outcomes st))
      end
  end.

(** The revisions among [revs], the [i]-th the actor goes through being
    the first of them, whose transaction begins. *)
Fixpoint begun (answers : nat → DbAnswer) (i : nat)
    (revs : list RevToInsert) : list RevToInsert :=
  match revs with
  | [] => []
  | rev :: rest =>
      if txBegin (answers i) then rev :: begun answers (S i) rest
      else begun answers (S i) rest
  end.

(** What has been gone through is accounted for: [c4doc_put] was given
    the requests of the revisions whose transaction began, and the error
    was cleared where begin, put and commit worked. *)
Definition accounted (answers : nat → DbAnswer) (st : Inserter) : Prop :=
  puts st = putRequestOf <$> begun answers 0 (outcomes st).*1
  ∧ ∀ (i : nat) rev ok, outcomes st !! i = Some (rev, ok) →
      ok = txBegin (answers i) && docPut (answers i) && txCommit (answers i).

Definition revsOf (events : list InserterEvent) : list RevToInsert :=
  events ≫= λ ev, match ev with Insert rev => [rev] | DelayPassed => [] end.

End DBActor.

(** ** CBForest Database.cc: the key-store handle cache *)

Module Database.

(** [_kvHandles] maps a key-store name to a [fdb_kvs_handle*]; a handle
    is its address, [None] the null pointer.  [openHandles] are the
    handles the storage engine holds open. *)
Record t : Type := mk {
  _kvHandles : gmap string (option N);
  openHandles : gset N
}.

(** [check(status)]: throws unless the status is FDB_RESULT_SUCCESS (0). *)
Definition check (status : Z) : result unit :=
  if (status =? 0)%Z then Ok () else Throw (ForestDBError status).

(** [_kvHandles[name]]: [unordered_map::operator[]] inserts a
    value-initialised (null) entry when the key is absent. *)
Definition subscript (name : string) (m : gmap string (option N))
    : option N * gmap string (option N) :=
  match m !! name with
  | Some h => (h, m)
  | None => (None, <[name := None]> m)
  end.

(** [closeKeyStore]; [closeStatus] is what [fdb_kvs_close] answers. *)
Definition closeKeyStore (closeStatus : Z) (name : string) (db : t)
    : result unit * t :=
  let '(handle, handles) := subscript name (_kvHandles db) in
  match handle with
  | None => (Ok (), mk handles (openHandles db))
  | Some h =>
      match check closeStatus with
      | Throw x => (Throw x, mk handles (openHandles db))
      | Ok _ => (Ok (), mk (delete name handles) (openHandles db ∖ {[h]}))
      end
  end.

(** [openKVS]; [openStatus] and [fresh] are what [fdb_kvs_open] answers. *)
Definition openKVS (openStatus : Z) (fresh : N) (name : string) (db : t)
    : result (option N) * t :=
  match _kvHandles db !! name with
  | Some h => (Ok h, db)
  | None =>
      match check openStatus with
      | Throw x => (Throw x, db)
      | Ok _ => (Ok (Some fresh),
                 mk (<[name := Some fresh]> (_kvHandles db))
                    (openHandles db ∪ {[fresh]}))
      end
  end.

(** [contains(store)], for a key-store object by its name and handle. *)
Definition contains (name : string) (handle : option N) (db : t) : bool :=
  bool_decide (_kvHandles db !! name = Some handle).

(** [deleteKeyStore]; [removeStatus] is what [fdb_kvs_remove] answers. *)
Definition deleteKeyStore (closeStatus removeStatus : Z) (name : string)
    (db : t) : result unit * t :=
  match closeKeyStore closeStatus name db with
  | (Throw x, db') => (Throw x, db')
  | (Ok _, db') => (check removeStatus, db')
  end.

(** Every cached handle is a handle the engine holds open, and no two
    names share one. *)
Definition handles_open (db : t) : Prop :=
  (∀ name h, _kvHandles db !! name = Some h →
     ∃ n, h = Some n ∧ n ∈ openHandles db)
  ∧ (∀ name1 name2 h, _kvHandles db !! name1 = Some h →
       _kvHandles db !! name2 = Some h → name1 = name2).

(** *** Transactions *)

(** [Transaction::state]. *)
Inductive state : Type := kNoOp | kAbort | kCommit.

(** The calls into the storage engine that concern transactions. *)
Inductive Call : Type :=
| fdb_begin_transaction
| fdb_end_transaction
| fdb_abort_transaction.

(** The file shared by the Database objects on one path: the transaction
    that holds it ([_transaction], by the address of the object), and the
    calls the engine has seen. *)
Record File : Type := mkFile {
  _transaction : option N;
  calls : list Call
}.

(** [beginTransaction(t)], for a transaction in state [st]; it waits
    while another transaction holds the file, which is [None] here. *)
Definition beginTransaction (beginStatus : Z) (t : N) (st : state)
    (file : File) : option (result unit * File) :=
  match _transaction file with
  | Some _ => None
  | None =>
      match st with
      | kCommit =>
          let file := mkFile None (calls file ++ [fdb_begin_transaction]) in
          match check beginStatus with
          | Throw x => Some (Throw x, file)
          | Ok _ => Some (Ok (), mkFile (Some t) (calls file))
          end
      | _ => Some (Ok (), mkFile (Some t) (calls file))
      end
  end.

(** [endTransaction(t)]; [endStatus] is what [fdb_end_transaction]
    answers.  The status of [fdb_abort_transaction] is dropped.  The
    [assert] is that of <assert.h>. *)
Definition endTransaction (endStatus : Z) (t : N) (st : state) (file : File)
    : result unit * File :=
  let '(status, called) :=
    match st with
    | kCommit => (endStatus, [fdb_end_transaction])
    | kAbort => (0%Z, [fdb_abort_transaction])
    | kNoOp => (0%Z, [])
    end in
  let file := mkFile (_transaction file) (calls file ++ called) in
  if bool_decide (_transaction file = Some t)
  then (check status, mkFile None (calls file))
  else (Throw AssertionFailed, file).

(** [Transaction::check(status)]: the new state, and the exception. *)
Definition Transaction_check (status : Z) (st : state) : result unit * state :=
  if (status =? 0)%Z then (Ok (), st)
  else (check status, kAbort).

(** The checked operations of a transaction's scope, one status each,
    up to the first that throws. *)
Fixpoint checked (statuses : list Z) (st : state) : result unit * state :=
  match statuses with
  | [] => (Ok (), st)
  | status :: rest =>
      match Transaction_check status st with
      | (Ok _, st) => checked rest st
      | (Throw x, st) => (Throw x, st)
      end
  end.

(** How the life of a [Transaction] object went: its constructor waited;
    or threw; or it lived, with the outcome of the operations in its
    scope, and its destructor returned; or the destructor let an
    exception out.  [~Transaction] is declared without an exception
    specification, which makes it noexcept: an exception that leaves
    [endTransaction] there ends the process (std::terminate). *)
Inductive Life : Type :=
| Waited
| NotBegun (e : error)
| Lived (scope : result unit)
| Terminated (scope : result unit).

(** The life of a [Transaction] object: the constructor ([begin = true]
    for [Transaction(db)]), the checked operations of its scope, and the
    destructor, which also runs when one of them throws. *)
Definition Transaction_life (begin : bool) (beginStatus : Z)
    (statuses : list Z) (endStatus : Z) (t : N) (file : File)
    : Life * File :=
  let st := if begin then kCommit else kNoOp in
  match beginTransaction beginStatus t st file with
  | None => (Waited, file)
  | Some (Throw x, file) => (NotBegun x, file)
  | Some (Ok _, file) =>
      let '(r, st) := checked statuses st in
      match endTransaction endStatus t st file with
      | (Ok _, file) => (Lived r, file)
      | (Throw _, file) => (Terminated r, file)
      end
  end.

End Database.

(** ** Scenarios: concrete stores, rows and requests *)

Module Scenarios.
Import SQLiteQuery.

(** Scenario S1 of the design notes: "a" is live with sequence 1 (and is
    then overwritten as deleted). *)
Definition store_S1 : BothKeyStore.t :=
  BothKeyStore.mk {["a" := KeyStore.mkRec "1-aa" "{}" 0 1]} ∅ 1.

(** Scenario S2: key "b" stored as a tombstone with sequence 1. *)
Definition store_S2 : BothKeyStore.t :=
  BothKeyStore.mk ∅ {["b" := KeyStore.mkRec "1-aa" "" 1 1]} 1.

(** Scenario S4: live = {a:10, c:30}, dead = {b:20, d:40}. *)
Definition store_S4 : BothKeyStore.t :=
  BothKeyStore.mk
    {["a" := KeyStore.mkRec "1-a" "{}" 0 10;
      "c" := KeyStore.mkRec "1-c" "{}" 0 30]}
    {["b" := KeyStore.mkRec "2-b" "" 1 20;
      "d" := KeyStore.mkRec "2-d" "" 1 40]}
    40.

(** One live record, no tombstone. *)
Definition store_live_only : BothKeyStore.t :=
  BothKeyStore.mk {["a" := KeyStore.mkRec "1-a" "{}" 0 1]} ∅ 1.

(** The keys a caller's loop reads from a merged enumeration. *)
Definition enumerate_keys (fuel : nat) (bySequence : bool)
    (sort : KeyStore.SortOption) (s : BothKeyStore.t) : result (list string) :=
  match BothKeyStore.newEnumeratorImpl bySequence 0
          (KeyStore.mkOptions true sort) s with
  | BothKeyStore.Merged e => l ← BothEnumeratorImpl.drain fuel e; Ok (l.*1)
  | BothKeyStore.LiveOnly _ => Ok []
  end.

(** A query with one implicit prefix column and no parameters. *)
Definition plain_query : Query := mkQuery ∅ [] 1 ∅.

(** Thirty-three columns: only column 31 is SQL-NULL. *)
Definition row_null_at_31 : list Column :=
  replicate 31 (SQLITE_INTEGER 7) ++ [SQLITE_NULL; SQLITE_INTEGER 7].

(** A query requiring three parameters, a dictionary binding [number] and
    passing null for [limit], and the enumerator as its constructor has it
    just before binding. *)
Definition sample_query : Query :=
  mkQuery {["limit"; "number"; "offset"]} [] 1
          {["$_limit"; "$_number"; "$_offset"]}.
Definition sample_root : list (string * Value) :=
  [("limit", VNull); ("number", VInt 5)].
Definition sample_enumerator : Enumerator :=
  mkEnumerator sample_query (mkOptions false (Some "{...}"))
               (Some []) ∅ (_parameters sample_query) 0 0 (-1)
               None None None false.

(** A stand-in for the Fleece encoder: a textual rendering that tells
    different arrays apart. *)
Fixpoint show_value (v : Value) : string :=
  match v with
  | VNull => "null"
  | VBool b => if b then "true" else "false"
  | VInt i => pretty i
  | VUInt u => "u" +:+ pretty u
  | VDouble bits => "d" +:+ pretty bits
  | VString s => "'" +:+ s +:+ "'"
  | VData d => "<" +:+ d +:+ ">"
  | VArray items =>
      "[" +:+ (fix go (l : list Value) : string :=
                 match l with
                 | [] => "]"
                 | x :: r => show_value x +:+ "," +:+ go r
                 end) items
  | VDict entries =>
      "{" +:+ (fix go (l : list (string * Value)) : string :=
                 match l with
                 | [] => "}"
                 | (k, x) :: r => k +:+ ":" +:+ show_value x +:+ "," +:+ go r
                 end) entries
  end.

Definition sample_finishDoc (arr : list Value) : string :=
  show_value (VArray arr).

(** A buffered enumerator over [rows], created when the key-store's last
    sequence was [lastSequence]; no blob decodes, nothing is bound. *)
Definition sample_create (lastSequence : N) (rows : list (list Column))
    : result Enumerator :=
  create (λ _, None) sample_finishDoc id (λ _, None)
         plain_query (mkOptions false None) lastSequence rows.

Definition sample_next (e : Enumerator) : result bool * Enumerator :=
  next (λ _, None) sample_finishDoc e.

Definition sample_seek (rowIndex : Z) (e : Enumerator)
    : result unit * Enumerator :=
  seek (λ _, None) sample_finishDoc rowIndex e.

Definition sample_refresh (curSeq : N) (rows : list (list Column))
    (e : Enumerator) : result (option Enumerator) * Enumerator :=
  refresh (λ _, None) sample_finishDoc id (λ _, None) curSeq rows e.

(** Result rows: one document, before and after it changed. *)
Definition rows_v1 : list (list Column) :=
  [[SQLITE_TEXT "doc1"; SQLITE_INTEGER 1]].
Definition rows_v2 : list (list Column) :=
  [[SQLITE_TEXT "doc1"; SQLITE_INTEGER 2]].

(** Two result rows. *)
Definition rows_two : list (list Column) :=
  [[SQLITE_TEXT "doc1"; SQLITE_INTEGER 1];
   [SQLITE_TEXT "doc2"; SQLITE_INTEGER 2]].

(** Fifty-one result rows, one more than a page. *)
Definition rows_many : list (list Column) :=
  (λ i, [SQLITE_TEXT "doc"; SQLITE_INTEGER (Z.of_nat i)]) <$> seq 0 51.

(** A stored checkpoint at generation 3, a request presenting it, and a
    database on which every operation succeeds. *)
Definition sample_store : gmap string DBActor.C4RawDocument :=
  {["peer1" := DBActor.mkRawDocument "3-cc" "[7]"]}.
Definition sample_request : DBActor.MessageIn :=
  DBActor.mkMessageIn {["client" := "peer1"; "rev" := "3-cc"]} "[9]".
Definition sample_env : DBActor.Env := DBActor.mkEnv true false true true.

End Scenarios.

(** * Properties *)

Module BothKeyStoreFacts.
Import KeyStore BothKeyStore Scenarios.

(** A conditional physical [set] that returns 0 changed nothing. *)
Lemma KeyStore_set_zero key vers value fl rs ns st ls seq st' ls' :
  KeyStore.set key vers value fl rs ns st ls = (seq, st', ls') →
  seq = 0%N → rs ≠ None → st' = st ∧ ls' = ls.
Proof.
  unfold KeyStore.set. intros H Hz Hrs.
  destruct rs as [[|p]|]; [| |done];
    repeat case_match; simplify_eq; try done; lia.
Qed.

Ltac unfold_set :=
  unfold BothKeyStore.set, sub_set, sub_del, KeyStore.set, KeyStore.del,
    KeyStore.exists_, at_most_one, target, other, with_sub, sub in *.

Ltac lookup_cases k key :=
  destruct (decide (k = key)) as [->|?];
  [ rewrite ?lookup_insert_eq, ?lookup_delete_eq in *
  | rewrite ?lookup_insert_ne, ?lookup_delete_ne in * by done ].

(** Every [set] (plain upsert, MVCC insert, MVCC update)
    keeps each key in at most one of the two sub-stores. *)
Lemma set_at_most_one key vers value fl rs ns s k :
  at_most_one k s →
  at_most_one k (BothKeyStore.set key vers value fl rs ns s).2.
Proof.
  intros Hinv. destruct s as [lv dd ls].
  unfold_set. simpl in *.
  destruct (deleting fl), rs as [[|p]|]; simpl;
    repeat (case_match; simpl in *; simplify_eq);
    try (case_bool_decide; simpl in *);
    simpl; lookup_cases k key; simplify_eq; auto; try tauto.
  all: try (left; by apply eq_None_not_Some).
  all: try (right; by apply eq_None_not_Some).
  all: destruct Hinv; simplify_eq; auto.
  all: match goal with
       | H : (0 <? _ + 1)%N = false |- _ => apply N.ltb_ge in H; lia
       end.
Qed.

(** A plain upsert returns a fresh positive sequence,
    leaves the record in the sub-store chosen by the Deleted flag and
    leaves the key absent from the other one. *)
Lemma set_plain_upsert key vers value fl ns s :
  let r := BothKeyStore.set key vers value fl None ns s in
  ∃ seq, r.1 = Ok seq ∧ (0 < seq)%N
    ∧ sub (target fl) r.2 !! key = Some (mkRec vers value fl seq)
    ∧ sub (other fl) r.2 !! key = None.
Proof.
  destruct s as [lv dd ls]. unfold_set. simpl.
  assert (Hpos : (0 <? ls + 1)%N = true) by (apply N.ltb_lt; lia).
  rewrite Hpos. exists (ls + 1)%N.
  destruct (deleting fl); simpl; repeat (case_match; simpl in *; simplify_eq);
    rewrite ?lookup_insert_eq, ?lookup_delete_eq;
    repeat split; try done; try lia; by apply eq_None_not_Some.
Qed.

(** C1. For every BothKeyStore and key [k] held in at most one sub-store,
    after any [set] (plain upsert, MVCC insert or MVCC update) [k] is still
    in at most one of the live and dead sub-stores; and a plain upsert
    ([replacingSequence] absent) returns a positive sequence, stores the
    record in the sub-store chosen by the Deleted flag (the dead one when
    the flag is set, the live one when it is clear) and deletes the key
    from the other sub-store. *)
Theorem set_key_in_at_most_one_store key vers value fl rs ns s k :
  at_most_one k s →
  let r := BothKeyStore.set key vers value fl rs ns s in
  at_most_one k r.2
  ∧ (rs = None →
     (∃ seq, r.1 = Ok seq ∧ (0 < seq)%N)
     ∧ ∀ seq, r.1 = Ok seq → (0 < seq)%N →
         if (Z.land fl kDeleted =? 0)%Z
         then liveStore r.2 !! key = Some (mkRec vers value fl seq)
              ∧ deadStore r.2 !! key = None
         else deadStore r.2 !! key = Some (mkRec vers value fl seq)
              ∧ liveStore r.2 !! key = None).
Proof.
  intros Hinv r. split.
  - by apply set_at_most_one.
  - intros ->.
    destruct (set_plain_upsert key vers value fl ns s)
      as (seq' & Hr' & Hpos' & Ht & Ho).
    fold r in Hr', Ht, Ho. split; [by exists seq'|].
    intros seq Hr Hpos. rewrite Hr in Hr'. simplify_eq.
    unfold target, other, deleting in Ht, Ho.
    destruct (Z.land fl kDeleted =? 0)%Z; by split.
Qed.

(** Scenario S1: the live record "a" is overwritten as deleted and moves
    to the dead sub-store; overwritten once more without the flag it
    moves back. *)
Lemma set_key_in_at_most_one_store_witness :
  let r := BothKeyStore.set "a" "2-bb" "" kDeleted None true store_S1 in
  let r' := BothKeyStore.set "a" "3-cc" "{}" 0 None true r.2 in
  at_most_one "a" store_S1
  ∧ at_most_one "a" r.2
  ∧ deadStore r.2 !! "a" = Some (mkRec "2-bb" "" kDeleted 2)
  ∧ liveStore r.2 !! "a" = None
  ∧ at_most_one "a" r'.2
  ∧ liveStore r'.2 !! "a" = Some (mkRec "3-cc" "{}" 0 3)
  ∧ deadStore r'.2 !! "a" = None.
Proof.
  intros r r'.
  assert (H : at_most_one "a" store_S1) by (right; reflexivity).
  destruct (set_key_in_at_most_one_store
              "a" "2-bb" "" kDeleted None true store_S1 "a" H) as [H1 H2].
  destruct (H2 eq_refl) as [_ H2'].
  pose proof (H2' 2%N eq_refl ltac:(reflexivity)) as [Ht Ho].
  destruct (set_key_in_at_most_one_store
              "a" "3-cc" "{}" 0 None true r.2 "a" H1) as [H3 H4].
  destruct (H4 eq_refl) as [_ H4'].
  pose proof (H4' 3%N eq_refl ltac:(reflexivity)) as [Ht' Ho'].
  exact (conj H (conj H1 (conj Ht (conj Ho (conj H3 (conj Ht' Ho')))))).
Defined.


(** Scenario S1: overwriting the live "a" as deleted moves it to the dead
    store under sequence 2, and the merged enumeration shows it once. *)
Example S1_live_dead_move :
  let r := BothKeyStore.set "a" "2-bb" "" kDeleted None true store_S1 in
  r = (Ok 2%N, mk ∅ {["a" := mkRec "2-bb" "" kDeleted 2]} 2)
  ∧ enumerate_keys 5 false kAscending r.2 = Ok ["a"].
Proof. split; vm_compute; reflexivity. Qed.

(** Deleting a key and setting it again leaves it live with the second
    sequence and no residue in the dead store. *)
Example set_deleted_then_live :
  let s1 := (BothKeyStore.set "k" "1-aa" "" kDeleted None true (mk ∅ ∅ 0)).2 in
  BothKeyStore.set "k" "2-bb" "{}" 0 None true s1
  = (Ok 2%N, mk {["k" := mkRec "2-bb" "{}" 0 2]} ∅ 2).
Proof. vm_compute. reflexivity. Qed.

(** Scenario S2: an MVCC insert of a key that exists as a tombstone fails. *)
Example S2_insert_conflict_across_stores :
  BothKeyStore.set "b" "1-bb" "{}" 0 (Some 0%N) true store_S2
  = (Ok 0%N, store_S2).
Proof. vm_compute. reflexivity. Qed.

(** C2 as amended. For an MVCC update ([replacingSequence = rs > 0]) whose
    conditional set in the target sub-store returns 0: when [newSequence]
    is true the store tries a compare-and-swap delete of the key with
    sequence [rs] in the other sub-store; on success it retries an
    unconditional set in the target and returns the new sequence, leaving
    the key in the target only; on failure it returns 0 and changes
    nothing.  When [newSequence] is false the retry is not taken and the
    call fails the assertion [Assert(newSequence)] instead of returning 0;
    the stores are unchanged. *)
Theorem set_mvcc_update_conflict key vers value fl rs ns s :
  (0 < rs)%N →
  (sub_set (target fl) key vers value fl (Some rs) ns s).1 = 0%N →
  let r := BothKeyStore.set key vers value fl (Some rs) ns s in
  if ns then
    let d := sub_del (other fl) key (Some rs) s in
    if d.1 then
      r = (let '(seq', s3) :=
             sub_set (target fl) key vers value fl None true d.2 in
           (Ok seq', s3))
      ∧ r.1 = Ok (lastSequence s + 1)%N
      ∧ sub (target fl) r.2 !! key
          = Some (mkRec vers value fl (lastSequence s + 1))
      ∧ sub (other fl) r.2 !! key = None
    else r = (Ok 0%N, s)
  else r = (Throw AssertionFailed, s).
Proof.
  intros Hrs Hz r. subst r. unfold BothKeyStore.set.
  assert (Hne : (rs =? 0)%N = false) by (apply N.eqb_neq; lia).
  assert (Hpos : (0 <? rs)%N = true) by (apply N.ltb_lt; lia).
  rewrite Hne, Hpos. simpl.
  destruct (sub_set (target fl) key vers value fl (Some rs) ns s)
    as [seq s1] eqn:Hset.
  simpl in Hz. subst seq. simpl.
  assert (Hs1 : s1 = s).
  { unfold sub_set in Hset.
    destruct (KeyStore.set key vers value fl (Some rs) ns
                (sub (target fl) s) (lastSequence s))
      as [[q m] l] eqn:Hks.
    simplify_eq.
    destruct (KeyStore_set_zero _ _ _ _ _ _ _ _ _ _ _ Hks) as [-> ->];
      [done..|].
    destruct s; unfold with_sub, sub, target; by destruct (deleting fl). }
  subst s1. destruct ns; [|done].
  destruct (sub_del (other fl) key (Some rs) s) as [[|] s2] eqn:Hdel;
    simpl; [|].
  - split; [done|].
    destruct s as [lv dd ls]. clear Hset.
    unfold_set. simpl in *.
    destruct (deleting fl); simpl in *;
      repeat (case_match; simpl in *; simplify_eq);
      rewrite ?lookup_insert_eq, ?lookup_delete_eq; done.
  - f_equal. destruct s as [lv dd ls]. clear Hset.
    unfold_set. simpl in *.
    destruct (deleting fl); simpl in *;
      repeat (case_match; simpl in *; simplify_eq); done.
Qed.

(** Scenario S3: "b" is a tombstone with sequence 1; an update replacing
    sequence 1 and allocating a new sequence moves it to the live store. *)
Lemma set_mvcc_update_conflict_witness :
  let r := BothKeyStore.set "b" "2-bb" "{}" 0 (Some 1%N) true store_S2 in
  (0 < 1)%N
  ∧ (sub_set (target 0) "b" "2-bb" "{}" 0 (Some 1%N) true store_S2).1 = 0%N
  ∧ r.1 = Ok 2%N
  ∧ liveStore r.2 !! "b" = Some (mkRec "2-bb" "{}" 0 2)
  ∧ deadStore r.2 !! "b" = None.
Proof.
  assert (Hpos : (0 < 1)%N) by reflexivity.
  assert (Hz : (sub_set (target 0) "b" "2-bb" "{}" 0 (Some 1%N) true
                        store_S2).1 = 0%N) by reflexivity.
  destruct (set_mvcc_update_conflict
              "b" "2-bb" "{}" 0 1%N true store_S2 Hpos Hz)
    as (_ & H1 & H2 & H3).
  exact (conj Hpos (conj Hz (conj H1 (conj H2 H3)))).
Defined.

(** C2 as stated fails: with [newSequence] false the conflicting update
    does not return 0, it throws. *)
Lemma set_mvcc_update_no_newSequence_throws :
  (sub_set (target 0) "b" "2-bb" "{}" 0 (Some 1%N) false store_S2).1 = 0%N
  ∧ (BothKeyStore.set "b" "2-bb" "{}" 0 (Some 1%N) false store_S2).1
    = Throw AssertionFailed
  ∧ (BothKeyStore.set "b" "2-bb" "{}" 0 (Some 1%N) false store_S2).1
    ≠ Ok 0%N.
Proof. split; [reflexivity|]. split; [reflexivity|discriminate]. Qed.

(** C7. With expirations unsigned (0 encodes none), [nextExpiration]
    returns 0 iff both sub-stores report 0; otherwise it returns the
    minimum of the nonzero values among the two reports. *)
Theorem nextExpiration_earliest_nonzero (lx dx : Z) :
  (0 ≤ lx)%Z → (0 ≤ dx)%Z →
  (nextExpiration lx dx = 0%Z ↔ lx = 0%Z ∧ dx = 0%Z)
  ∧ (¬ (lx = 0%Z ∧ dx = 0%Z) →
     earliest_nonzero lx dx = Some (nextExpiration lx dx)).
Proof.
  intros Hl Hd. unfold nextExpiration, earliest_nonzero.
  destruct (Z.ltb_spec 0 lx), (Z.ltb_spec 0 dx); simpl;
    rewrite ?filter_cons, ?filter_nil;
    repeat case_decide; simpl; try lia.
  all: split; [lia|intros; f_equal; lia].
Qed.

Lemma nextExpiration_earliest_nonzero_witness :
  (0 ≤ 0)%Z ∧ (0 ≤ 1500)%Z
  ∧ earliest_nonzero 0 1500 = Some (nextExpiration 0 1500)
  ∧ nextExpiration 0 1500 = 1500%Z.
Proof.
  assert (H0 : (0 ≤ 0)%Z) by lia.
  assert (H1 : (0 ≤ 1500)%Z) by lia.
  split; [exact H0|]. split; [exact H1|]. split; [|reflexivity].
  apply (proj2 (nextExpiration_earliest_nonzero 0 1500 H0 H1)). lia.
Defined.

End BothKeyStoreFacts.

Module BothEnumeratorFacts.
Import KeyStore BothEnumeratorImpl Scenarios.

Example S4_ascending_by_key :
  enumerate_keys 10 false kAscending store_S4 = Ok ["a"; "b"; "c"; "d"].
Proof. vm_compute. reflexivity. Qed.

Example S4_unsorted_is_ascending :
  enumerate_keys 10 false kUnsorted store_S4 = Ok ["a"; "b"; "c"; "d"].
Proof. vm_compute. reflexivity. Qed.

Example S4_descending_first_three :
  enumerate_keys 3 true kDescending store_S4 = Ok ["d"; "c"; "b"].
Proof. vm_compute. reflexivity. Qed.

Example S4_descending_by_sequence_fails :
  enumerate_keys 10 true kDescending store_S4 = Throw NullDereference.
Proof. vm_compute. reflexivity. Qed.

(** C4 at its failing input.  Descending, one live record and no
    tombstone: the first [next] returns true with [_current] taken from the
    reset dead enumerator, so the record cannot be read, and the second
    [next] calls through the null dead enumerator.  The live record is
    never yielded. *)
Theorem merged_descending_loses_last_records :
  match BothKeyStore.newEnumeratorImpl false 0 (mkOptions true kDescending)
                                       store_live_only with
  | BothKeyStore.Merged e =>
      ∃ e', next e = Ok (true, e')
            ∧ _liveImpl e' ≠ None ∧ _deadImpl e' = None
            ∧ _current e' = Some Dead
            ∧ read e' = Throw NullDereference
            ∧ next e' = Throw NullDereference
  | BothKeyStore.LiveOnly _ => False
  end.
Proof.
  vm_compute. eexists. split; [reflexivity|].
  repeat split; try reflexivity. discriminate.
Qed.

(** *** Ascending order: the enumerator computes the merge *)

Lemma order_sign bySequence x y :
  order bySequence x y = (-1)%Z ∨ order bySequence x y = 0%Z
  ∨ order bySequence x y = 1%Z.
Proof.
  unfold order, compare, slice_compare.
  destruct bySequence; repeat case_match; auto.
Qed.

Lemma next_state_of bySequence live dead :
  live ≠ [] ∨ dead ≠ [] →
  let '(live', dead') := left_after bySequence live dead in
  next (state_of bySequence live dead)
  = match live', dead' with
    | [], [] => Ok (false, mk None None None 0 bySequence false)
    | _, _ => Ok (true, state_of bySequence live' dead')
    end.
Proof.
  intros Hne. unfold left_after, next, state_of, advance.
  destruct live as [|x [|x' live]], dead as [|y [|y' dead]];
    try (by destruct Hne); try reflexivity;
    unfold cmp_of, child;
    destruct (order_sign bySequence x y) as [Ho|[Ho|Ho]]; rewrite ?Ho;
    simpl; rewrite ?Ho; reflexivity.
Qed.

Lemma next_fresh bySequence live dead :
  next (mk (Some (mkImpl None live)) (Some (mkImpl None dead)) None 0
           bySequence false)
  = match live, dead with
    | [], [] => Ok (false, mk None None None 0 bySequence false)
    | _, _ => Ok (true, state_of bySequence live dead)
    end.
Proof.
  destruct live as [|x live], dead as [|y dead]; reflexivity.
Qed.

(** The record under [_current] is the head of the merge. *)
Lemma read_state_of bySequence live dead :
  live ≠ [] ∨ dead ≠ [] →
  ∃ r, read (state_of bySequence live dead) = Ok r
       ∧ head (merge_live_dead bySequence live dead) = Some r.
Proof.
  intros Hne. unfold read, current, state_of.
  destruct live as [|x live], dead as [|y dead]; simpl.
  - by destruct Hne.
  - eauto.
  - eauto.
  - destruct (order_sign bySequence x y) as [Ho|[Ho|Ho]]; rewrite Ho; simpl;
      eauto.
Qed.

(** The rest of the merge is the merge of what is left after [next]. *)
Lemma merge_live_dead_tail bySequence live dead :
  tail (merge_live_dead bySequence live dead)
  = let '(live', dead') := left_after bySequence live dead in
    merge_live_dead bySequence live' dead'.
Proof.
  unfold left_after.
  destruct live as [|x live], dead as [|y dead]; simpl; try done.
  - by destruct dead.
  - by destruct live.
  - destruct (order_sign bySequence x y) as [Ho|[Ho|Ho]]; rewrite Ho; simpl;
      reflexivity.
Qed.

Lemma left_after_length bySequence live dead :
  live ≠ [] ∨ dead ≠ [] →
  let '(live', dead') := left_after bySequence live dead in
  (length live' + length dead' < length live + length dead)%nat.
Proof.
  intros Hne. unfold left_after.
  destruct live as [|x live], dead as [|y dead]; simpl; try lia.
  - by destruct Hne.
  - destruct (order_sign bySequence x y) as [Ho|[Ho|Ho]]; rewrite Ho; simpl;
      lia.
Qed.

(** Draining from a state reads the rest of the merge. *)
Lemma drain_state_of bySequence : ∀ fuel live dead,
  live ≠ [] ∨ dead ≠ [] →
  (length live + length dead ≤ fuel)%nat →
  drain fuel (state_of bySequence live dead)
  = Ok (tail (merge_live_dead bySequence live dead)).
Proof.
  induction fuel as [|fuel IH]; intros live dead Hne Hfuel.
  - destruct live, dead; simpl in Hfuel; try lia. by destruct Hne.
  - simpl drain.
    pose proof (next_state_of bySequence live dead Hne) as Hnext.
    pose proof (merge_live_dead_tail bySequence live dead) as Htail.
    pose proof (left_after_length bySequence live dead Hne) as Hlen.
    destruct (left_after bySequence live dead) as [live' dead'].
    rewrite Htail.
    assert (Hcases : (live' = [] ∧ dead' = []) ∨ (live' ≠ [] ∨ dead' ≠ [])).
    { destruct live', dead'; auto. }
    destruct Hcases as [[-> ->]|Hne'].
    + rewrite Hnext. reflexivity.
    + assert (Hnext' : next (state_of bySequence live dead)
                       = Ok (true, state_of bySequence live' dead')).
      { rewrite Hnext. destruct live', dead'; try done. by destruct Hne'. }
      rewrite Hnext'.
      destruct (read_state_of bySequence live' dead' Hne') as (r & -> & Hr).
      rewrite IH by (done || lia).
      destruct (merge_live_dead bySequence live' dead'); simpl in *; by simplify_eq.
Qed.

(** Where the enumeration is right.  In ascending order (and so for an unsorted
    request), whatever the two children enumerate, a caller that loops over
    [next] and [read] gets the merge of the two streams, ties won by the live
    record, without ever going through a null pointer; and [next] returns
    false exactly when both children are exhausted. *)
Theorem merged_ascending_is_merge bySequence live dead fuel :
  (length live + length dead < fuel)%nat →
  drain fuel (mk (Some (mkImpl None live)) (Some (mkImpl None dead)) None 0
                 bySequence false)
  = Ok (merge_live_dead bySequence live dead).
Proof.
  intros Hfuel. destruct fuel as [|fuel]; [lia|]. simpl drain.
  rewrite next_fresh.
  assert (Hcases : (live = [] ∧ dead = []) ∨ (live ≠ [] ∨ dead ≠ [])).
  { destruct live, dead; auto. }
  destruct Hcases as [[-> ->]|Hne]; [reflexivity|].
  assert (Hnext : match live, dead with
                  | [], [] => Ok (false, mk None None None 0 bySequence false)
                  | _, _ => Ok (true, state_of bySequence live dead)
                  end = Ok (true, state_of bySequence live dead)).
  { destruct live, dead; try done. by destruct Hne. }
  rewrite Hnext.
  destruct (read_state_of bySequence live dead Hne) as (r & -> & Hr).
  rewrite drain_state_of by (done || lia).
  destruct (merge_live_dead bySequence live dead); simpl in *; by simplify_eq.
Qed.

(** *** The merge is sorted and loses nothing *)

Lemma merge_live_dead_nil_l bySequence dead :
  merge_live_dead bySequence [] dead = dead.
Proof. by destruct dead. Qed.

Lemma merge_live_dead_nil_r bySequence live :
  merge_live_dead bySequence live [] = live.
Proof. by destruct live. Qed.

Lemma merge_live_dead_cons bySequence x live y dead :
  merge_live_dead bySequence (x :: live) (y :: dead)
  = if (order bySequence x y <? 0)%Z
    then x :: merge_live_dead bySequence live (y :: dead)
    else if (0 <? order bySequence x y)%Z
         then y :: merge_live_dead bySequence (x :: live) dead
         else x :: merge_live_dead bySequence live dead.
Proof. reflexivity. Qed.

(** Equal under the order means the same key, or the same sequence. *)
Lemma order_zero bySequence x y z :
  order bySequence x y = 0%Z → order bySequence x z = order bySequence y z.
Proof.
  unfold order, compare, slice_compare. destruct bySequence.
  - destruct (N.ltb_spec (sequence x.2) (sequence y.2)); [done|].
    destruct (N.ltb_spec (sequence y.2) (sequence x.2)); [done|].
    intros _. by replace (sequence x.2) with (sequence y.2) by lia.
  - destruct (String.compare x.1 y.1) eqn:Hc; try done.
    apply String.compare_eq_iff in Hc. by rewrite Hc.
Qed.

Lemma order_antisym bySequence x y :
  (0 < order bySequence x y)%Z → (order bySequence y x < 0)%Z.
Proof.
  unfold order, compare, slice_compare. destruct bySequence.
  - destruct (N.ltb_spec (sequence x.2) (sequence y.2)); [lia|].
    destruct (N.ltb_spec (sequence y.2) (sequence x.2)); [|lia]. done.
  - rewrite (String.compare_antisym y.1 x.1).
    destruct (String.compare x.1 y.1); simpl; lia.
Qed.

(** Without ties nothing is dropped. *)
Lemma merge_live_dead_Permutation bySequence live : ∀ dead,
  (∀ x y, x ∈ live → y ∈ dead → order bySequence x y ≠ 0%Z) →
  merge_live_dead bySequence live dead ≡ₚ live ++ dead.
Proof.
  induction live as [|x live IHl]; intros dead.
  - intros _. by rewrite merge_live_dead_nil_l.
  - induction dead as [|y dead IHd]; intros Hties.
    + by rewrite merge_live_dead_nil_r, app_nil_r.
    + rewrite merge_live_dead_cons.
      destruct (Z.ltb_spec (order bySequence x y) 0) as [Hlt|Hge].
      * simpl. f_equiv. apply IHl. intros a b Ha Hb.
        apply Hties; [by apply list_elem_of_further|done].
      * destruct (Z.ltb_spec 0 (order bySequence x y)) as [Hgt|Hle].
        -- rewrite IHd.
           ++ by rewrite <- Permutation_middle.
           ++ intros a b Ha Hb. apply Hties; [done|].
              by apply list_elem_of_further.
        -- exfalso. apply (Hties x y); [apply list_elem_of_here..|lia].
Qed.

Lemma merge_live_dead_HdRel bySequence (R : relation (string * Rec)) a
    live dead :
  HdRel R a live → HdRel R a dead →
  HdRel R a (merge_live_dead bySequence live dead).
Proof.
  intros Hl Hd. destruct live as [|x live], dead as [|y dead]; try done.
  rewrite merge_live_dead_cons. inversion Hl; inversion Hd; subst.
  repeat case_match; by constructor.
Qed.

(** Two ascending streams merge into an ascending stream. *)
Lemma merge_live_dead_Sorted bySequence live : ∀ dead,
  let R := λ a b, (order bySequence a b ≤ 0)%Z in
  Sorted R live → Sorted R dead →
  Sorted R (merge_live_dead bySequence live dead).
Proof.
  induction live as [|x live IHl]; intros dead R.
  - intros _ Hd. by rewrite merge_live_dead_nil_l.
  - induction dead as [|y dead IHd]; intros Hl Hd.
    + by rewrite merge_live_dead_nil_r.
    + rewrite merge_live_dead_cons.
      apply Sorted_inv in Hl as [Hl Hxl]. apply Sorted_inv in Hd as [Hd Hyd].
      destruct (Z.ltb_spec (order bySequence x y) 0) as [Hlt|Hge].
      * constructor.
        -- apply IHl; [done|by constructor].
        -- apply merge_live_dead_HdRel; [done|]. constructor. unfold R. lia.
      * destruct (Z.ltb_spec 0 (order bySequence x y)) as [Hgt|Hle].
        -- constructor.
           ++ apply IHd; [by constructor|done].
           ++ apply merge_live_dead_HdRel; [|done]. constructor. unfold R.
              pose proof (order_antisym bySequence x y Hgt). lia.
        -- constructor.
           ++ by apply IHl.
           ++ apply merge_live_dead_HdRel; [done|].
              destruct Hyd as [|z dead' Hyz]; constructor. unfold R in *.
              rewrite (order_zero bySequence x y z) by lia. done.
Qed.

(** *** From the key-stores to the enumeration, ascending by key *)

#[local] Instance by_key_total : Total by_key.
Proof.
  intros x y. unfold by_key. destruct (String.leb_total x.1 y.1); auto.
Qed.

Lemma by_key_order x y : by_key x y ↔ (order false x y ≤ 0)%Z.
Proof.
  unfold by_key, order, slice_compare, String.leb.
  destruct (String.compare x.1 y.1); simpl; split; (done || lia).
Qed.

Lemma Sorted_iff {A} (R1 R2 : relation A) l :
  (∀ x y, R1 x y ↔ R2 x y) → Sorted R1 l → Sorted R2 l.
Proof.
  intros HR. induction 1 as [|x l Hl IH Hhd]; constructor; [done|].
  destruct Hhd; constructor. by apply HR.
Qed.

Lemma filter_all {A} (P : A → Prop) `{∀ x, Decision (P x)} (l : list A) :
  (∀ x, P x) → filter P l = l.
Proof.
  intros HP. induction l as [|x l IH]; [done|].
  rewrite filter_cons, decide_True by done. by rewrite IH.
Qed.

(** What a physical store enumerates by key when nothing is filtered out
    and the order is not descending. *)
Lemma newEnumeratorImpl_by_key since options st :
  includeDeleted options = true → sortOption options ≠ kDescending →
  newEnumeratorImpl false since options st
  = mkImpl None (merge_sort by_key (map_to_list st)).
Proof.
  intros Hinc Hsort. unfold newEnumeratorImpl.
  rewrite filter_all by (intros x; split; auto).
  by destruct (sortOption options).
Qed.

(** X7. Enumerating by key.  On a BothKeyStore that keeps
    every key in at most one sub-store, an enumeration by key with
    includeDeleted, ascending or unsorted, yields every record of both
    sub-stores exactly once, in ascending key order. *)
Theorem enumerate_ascending_by_key (s : BothKeyStore.t) since options :
  includeDeleted options = true → sortOption options ≠ kDescending →
  (∀ k, BothKeyStore.at_most_one k s) →
  ∃ e, BothKeyStore.newEnumeratorImpl false since options s
       = BothKeyStore.Merged e
    ∧ ∀ fuel,
        (size (BothKeyStore.liveStore s) + size (BothKeyStore.deadStore s)
         < fuel)%nat →
        ∃ l, drain fuel e = Ok l
          ∧ l ≡ₚ map_to_list (BothKeyStore.liveStore s)
                 ++ map_to_list (BothKeyStore.deadStore s)
          ∧ Sorted by_key l.
Proof.
  intros Hinc Hsort Hinv. unfold BothKeyStore.newEnumeratorImpl.
  rewrite Hinc. eexists. split; [reflexivity|]. intros fuel Hfuel.
  set (options' := match sortOption options with
                   | kUnsorted => mkOptions true kAscending
                   | _ => options
                   end).
  assert (Hinc' : includeDeleted options' = true).
  { unfold options'. by destruct (sortOption options). }
  assert (Hsort' : sortOption options' ≠ kDescending).
  { unfold options'. by destruct (sortOption options) eqn:E; rewrite ?E. }
  unfold create. rewrite !newEnumeratorImpl_by_key by done.
  assert (Hdesc : match sortOption options' with
                  | kDescending => true
                  | _ => false
                  end = false) by (by destruct (sortOption options')).
  rewrite Hdesc.
  set (live := merge_sort by_key (map_to_list (BothKeyStore.liveStore s))).
  set (dead := merge_sort by_key (map_to_list (BothKeyStore.deadStore s))).
  assert (Hlive : live ≡ₚ map_to_list (BothKeyStore.liveStore s))
    by apply merge_sort_Permutation.
  assert (Hdead : dead ≡ₚ map_to_list (BothKeyStore.deadStore s))
    by apply merge_sort_Permutation.
  exists (merge_live_dead false live dead). split; [|split].
  - apply merged_ascending_is_merge.
    rewrite Hlive, Hdead, !length_map_to_list. done.
  - rewrite merge_live_dead_Permutation; [by rewrite Hlive, Hdead|].
    intros x y Hx Hy Hzero.
    rewrite Hlive in Hx. rewrite Hdead in Hy.
    destruct x as [kx rx], y as [ky ry].
    apply elem_of_map_to_list in Hx, Hy.
    unfold order, slice_compare in Hzero. simpl in Hzero.
    destruct (String.compare kx ky) eqn:Hc; try done.
    apply String.compare_eq_iff in Hc. subst ky.
    destruct (Hinv kx) as [Hk|Hk]; congruence.
  - apply (Sorted_iff (λ a b, (order false a b ≤ 0)%Z));
      [intros x y; symmetry; apply by_key_order|].
    apply merge_live_dead_Sorted;
      (apply (Sorted_iff by_key); [apply by_key_order|]);
      apply Sorted_merge_sort, _.
Qed.

End BothEnumeratorFacts.

Module DatabaseFacts.
Import Database.

(** What [closeKeyStore] does for a name the cache does not hold. *)
Lemma closeKeyStore_absent closeStatus name db :
  _kvHandles db !! name = None →
  closeKeyStore closeStatus name db
  = (Ok (), mk (<[name := None]> (_kvHandles db)) (openHandles db)).
Proof. intros H. unfold closeKeyStore, subscript. by rewrite H. Qed.

(** C10 at its failing input.  On a database with an empty handle cache,
    [closeKeyStore "docs"] returns without error and closes nothing, but
    the subscript it reads the cache with has inserted a null entry for the
    name: the cache does hold an entry afterwards, and [openKVS] hands that
    null handle out. *)
Theorem closeKeyStore_unopened_leaves_null_entry :
  let r := closeKeyStore 0 "docs" (mk ∅ ∅) in
  r.1 = Ok ()
  ∧ openHandles r.2 = ∅
  ∧ _kvHandles r.2 !! "docs" = Some None
  ∧ (openKVS 0 7 "docs" r.2).1 = Ok None.
Proof. vm_compute. repeat split. Qed.

End DatabaseFacts.

Module SQLiteQueryFacts.
Import SQLiteQuery Scenarios.

(** C5 at its failing input.  In a row whose only NULL column is column 31
    the bit-map comes out as 0xFFFFFFFF80000000: [1 << 31] is a negative
    [int], and its conversion to 64 bits sets bits 32 to 63 as well.  Bit 32
    is 1 although column 32 is not NULL. *)
Theorem encodeRow_null_column_31_flags_columns_above :
  row_null_at_31 !! 32%nat = Some (SQLITE_INTEGER 7)
  ∧ ∃ vs m, encodeRow (λ _, None) plain_query row_null_at_31
            = Ok [VArray vs; VUInt m]
            ∧ m = 0xFFFFFFFF80000000%Z
            ∧ Z.testbit m 31 = true
            ∧ Z.testbit m 32 = true.
Proof.
  split; [reflexivity|]. eexists _, _. split; [vm_compute; reflexivity|].
  repeat split.
Qed.

(** What a reader of the recording gets from [missingColumns()] for that
    row. *)
Example missingColumns_null_column_31 :
  ∃ e e', sample_create 1 [row_null_at_31] = Ok e
          ∧ sample_next e = (Ok true, e')
          ∧ (_curEnumerator e' ≫= Playback_missingColumns)
            = Some 0xFFFFFFFF80000000%Z.
Proof.
  eexists _, _. split; [vm_compute; reflexivity|].
  split; vm_compute; reflexivity.
Qed.

(** For a NULL column between 32 and 63 the shift count is not below the
    width of [int]; the C++ expression has no defined value. *)
Example encodeRow_null_column_32_undefined :
  encodeRow (λ _, None) plain_query (replicate 32 (SQLITE_INTEGER 7) ++ [SQLITE_NULL])
  = Throw UndefinedShift.
Proof. vm_compute. reflexivity. Qed.

Lemma int_shl_one_low i :
  (0 ≤ i < 31)%Z → int_shl 1 i = Ok (2 ^ i)%Z ∧ uint64 (2 ^ i) = (2 ^ i)%Z.
Proof.
  intros Hi. unfold int_shl, sint32, uint64.
  assert (H1 : (0 < 2 ^ i)%Z) by (apply Z.pow_pos_nonneg; lia).
  assert (H2 : (2 ^ i ≤ 2 ^ 30)%Z) by (apply Z.pow_le_mono_r; lia).
  destruct (Z.leb_spec 0 i), (Z.ltb_spec i 32); try lia. simpl.
  rewrite Z.shiftl_1_l. split.
  - f_equal. rewrite Z.mod_small; lia.
  - rewrite Z.mod_small; lia.
Qed.

Lemma encodeColumn_present ftd q i col v present :
  encodeColumn ftd q i col = Ok (v, present) →
  present = negb (bool_decide (col = SQLITE_NULL)).
Proof.
  destruct col; simpl; intros H; repeat case_match; by simplify_eq.
Qed.

(** The bits the column loop adds to its accumulator, as long as every
    NULL column it meets has an index below 31. *)
Lemma encodeColumns_bits ftd q cols : ∀ i acc vs m,
  (0 ≤ i)%Z →
  (∀ k : nat, cols !! k = Some SQLITE_NULL → (i + Z.of_nat k < 31)%Z) →
  encodeColumns ftd q i cols acc = Ok (vs, m) →
  ∀ j, (0 ≤ j)%Z →
    Z.testbit m j
    = Z.testbit acc j
      || bool_decide ((i ≤ j)%Z
                      ∧ cols !! Z.to_nat (j - i) = Some SQLITE_NULL).
Proof.
  induction cols as [|col rest IH]; intros i acc vs m Hi Hlow Henc j Hj.
  - simpl in Henc. simplify_eq. rewrite lookup_nil.
    rewrite bool_decide_eq_false_2; [by rewrite orb_false_r|]. by intros [_ ?].
  - simpl in Henc.
    destruct (encodeColumn ftd q i col) as [[v present]|] eqn:Hcol;
      [|done]. simpl in Henc.
    apply encodeColumn_present in Hcol.
    assert (Hrest : ∀ k : nat, rest !! k = Some SQLITE_NULL →
                               (i + 1 + Z.of_nat k < 31)%Z).
    { intros k Hk. specialize (Hlow (S k) Hk). lia. }
    assert (Hidx : (i < j)%Z →
              (rest !! Z.to_nat (j - (i + 1)) = Some SQLITE_NULL ↔
               (col :: rest) !! Z.to_nat (j - i) = Some SQLITE_NULL)).
    { intros Hlt. replace (Z.to_nat (j - i)) with (S (Z.to_nat (j - (i + 1))))
        by lia. done. }
    destruct (decide (col = SQLITE_NULL)) as [->|Hnn].
    + rewrite bool_decide_eq_true_2 in Hcol by done. subst present.
      assert (Hi31 : (i < 31)%Z) by (specialize (Hlow 0%nat eq_refl); lia).
      destruct (int_shl_one_low i ltac:(lia)) as [Hshl Hu].
      destruct (Z.ltb_spec i 64); [|lia]. simpl in Henc.
      rewrite Hshl in Henc. simpl in Henc. rewrite Hu in Henc.
      destruct (encodeColumns ftd q (i + 1) rest (Z.lor acc (2 ^ i)))
        as [[vs' m']|] eqn:Hrec; [|done]. simpl in Henc. simplify_eq.
      rewrite (IH (i + 1)%Z _ _ _ ltac:(lia) Hrest Hrec j Hj).
      rewrite Z.lor_spec, Z.pow2_bits_eqb by lia.
      destruct (Z.eqb_spec i j) as [->|Hne].
      * rewrite Z.sub_diag. simpl.
        rewrite (bool_decide_eq_true_2 ((j ≤ j)%Z ∧ _)) by (split; [lia|done]).
        by rewrite !orb_true_r.
      * rewrite orb_false_r. f_equal. apply bool_decide_ext.
        split; intros [? ?]; (split; [lia|]);
          apply Hidx; (done || lia).
    + rewrite bool_decide_eq_false_2 in Hcol by done. subst present.
      simpl in Henc.
      destruct (encodeColumns ftd q (i + 1) rest acc)
        as [[vs' m']|] eqn:Hrec; [|done]. simpl in Henc. simplify_eq.
      rewrite (IH (i + 1)%Z _ _ _ ltac:(lia) Hrest Hrec j Hj).
      f_equal. apply bool_decide_ext.
      split; intros [? Hl].
      * assert (i ≠ j).
        { intros ->. lia. }
        split; [lia|]. apply Hidx; (done || lia).
      * assert (i ≠ j).
        { intros ->. rewrite Z.sub_diag in Hl. simpl in Hl. by simplify_eq. }
        split; [lia|]. apply Hidx; (done || lia).
Qed.

(** X15. Where the bit-map is right: in a row whose NULL columns all have an
    index below 31, bit [k] of the bit-map is 1 iff column [k] is NULL. *)
Lemma encodeRow_missing_bitmap_low ftd q row items :
  (∀ k : nat, row !! k = Some SQLITE_NULL → (k < 31)%nat) →
  encodeRow ftd q row = Ok items →
  ∃ vs m, items = [VArray vs; VUInt m]
    ∧ ∀ k : nat,
        Z.testbit m (Z.of_nat k) = bool_decide (row !! k = Some SQLITE_NULL).
Proof.
  intros Hlow Henc. unfold encodeRow in Henc.
  destruct (encodeColumns ftd q 0 row 0) as [[vs m]|] eqn:Hcols; [|done].
  simpl in Henc. simplify_eq. exists vs, m. split; [done|]. intros k.
  rewrite (encodeColumns_bits ftd q row 0 0 vs m ltac:(lia)
             ltac:(intros k' Hk'; specialize (Hlow k' Hk'); lia)
             Hcols (Z.of_nat k) ltac:(lia)).
  rewrite Z.bits_0. simpl. apply bool_decide_ext.
  rewrite Z.sub_0_r, Nat2Z.id. split; [by intros [_ ?]|]. split; [lia|done].
Qed.

(** *** Parameter binding *)

Lemma bindValue_null q key b : bindValue q key VNull b = Ok b.
Proof. reflexivity. Qed.

(** A value that is not null binds under the name [$_key] or throws. *)
Lemma bindValue_other q key val b b' k :
  bindValue q key val b = Ok b' → k ≠ key →
  b' !! ("$_" ++ k) = b !! ("$_" ++ k).
Proof.
  intros H Hne. unfold bindValue, bind in H.
  destruct val; repeat case_decide; try done;
    injection H as <-; try done;
    rewrite lookup_insert_ne; try done;
    intros Heq; cbv [String.append] in Heq; congruence.
Qed.

Lemma bindValue_known q key val b :
  (val ≠ VNull → "$_" ++ key ∈ sqlParameters q) →
  ∃ b', bindValue q key val b = Ok b'.
Proof.
  intros H. unfold bindValue, bind.
  destruct val; try (rewrite decide_True by (by apply H)); eauto.
Qed.

Lemma bindEntries_result q entries : ∀ u b u' b' key,
  bindEntries q entries u b = Ok (u', b') →
  (key ∈ entries.*1 → key ∉ u')
  ∧ (key ∉ u → key ∉ u')
  ∧ ((∀ v, (key, v) ∈ entries → v = VNull) →
     b' !! ("$_" ++ key) = b !! ("$_" ++ key)).
Proof.
  induction entries as [|[k v] rest IH]; intros u b u' b' key H.
  - simpl in H. simplify_eq. split; [by intros ?%elem_of_nil|done].
  - simpl in H.
    destruct (bindValue q k v b) as [b1|] eqn:Hb; [|done]. simpl in H.
    destruct (IH _ _ _ _ key H) as (Hin & Hout & Hbind).
    split; [|split].
    + simpl. intros [->|Hrest]%elem_of_cons; [|by apply Hin].
      apply Hout, not_elem_of_difference. right. by apply elem_of_singleton.
    + intros Hu. apply Hout, not_elem_of_difference. by left.
    + intros Hnull. rewrite Hbind
        by (intros v' Hv'; apply Hnull; by apply list_elem_of_further).
      destruct (decide (k = key)) as [->|Hne].
      * rewrite (Hnull v) in Hb by apply list_elem_of_here.
        rewrite bindValue_null in Hb. by simplify_eq.
      * by apply (bindValue_other q k v).
Qed.

Lemma bindEntries_known q entries : ∀ u b,
  (∀ k v, (k, v) ∈ entries → v ≠ VNull → "$_" ++ k ∈ sqlParameters q) →
  ∃ r, bindEntries q entries u b = Ok r.
Proof.
  induction entries as [|[k v] rest IH]; intros u b Hknown; simpl; [eauto|].
  destruct (bindValue_known q k v b) as [b' ->].
  { apply Hknown, list_elem_of_here. }
  simpl. apply IH. intros k' v' Hin. apply Hknown.
  by apply list_elem_of_further.
Qed.

(** C9. Let the binding dictionary hold [key] with the null value (and
    with no other value).  Whenever [bindParameters] returns, [key] is no
    longer among the unbound parameters, so no warning names it, and the
    statement's binding for [$_key] is what it was: no value was bound, and
    the parameter stays MISSING.  It does return when every key with a
    value that is not null names a parameter of the statement. *)
Theorem bindParameters_null_value convertJSON asDictFromData json e root key :
  asDictFromData (if looksLikeJSON json then convertJSON json else json)
    = Some root →
  (key, VNull) ∈ root →
  (∀ v, (key, v) ∈ root → v = VNull) →
  (∀ e', bindParameters convertJSON asDictFromData json e = Ok e' →
         (key ∉ _unboundParameters e')
         ∧ _bindings e' !! ("$_" ++ key) = _bindings e !! ("$_" ++ key))
  ∧ ((∀ k v, (k, v) ∈ root → v ≠ VNull →
             "$_" ++ k ∈ sqlParameters (_query e)) →
     ∃ e', bindParameters convertJSON asDictFromData json e = Ok e').
Proof.
  intros Hroot Hin Hnull. unfold bindParameters. rewrite Hroot. split.
  - intros e' H.
    destruct (bindEntries (_query e) root (_unboundParameters e)
                          (_bindings e)) as [[u b]|] eqn:Hb; [|done].
    simpl in H. simplify_eq.
    destruct (bindEntries_result _ _ _ _ _ _ key Hb) as (H1 & _ & H3).
    split; [|by apply H3]. apply H1.
    apply list_elem_of_fmap. by exists (key, VNull).
  - intros Hknown.
    destruct (bindEntries_known (_query e) root (_unboundParameters e)
                                (_bindings e) Hknown) as [[u b] ->].
    simpl. eauto.
Qed.

Lemma bindParameters_null_value_witness :
  ∃ e', bindParameters id (λ _, Some sample_root) "{...}" sample_enumerator
        = Ok e'
    ∧ ("limit" ∉ _unboundParameters e')
    ∧ _bindings e' !! "$_limit" = None
    ∧ _bindings e' !! "$_number" = Some (BindInt 5).
Proof.
  assert (Hin : ("limit", VNull) ∈ sample_root) by apply list_elem_of_here.
  assert (Hnull : ∀ v, ("limit", v) ∈ sample_root → v = VNull).
  { intros v Hv. apply elem_of_cons in Hv as [Hv|Hv]; [congruence|].
    apply elem_of_cons in Hv as [Hv|Hv]; [discriminate|].
    by apply elem_of_nil in Hv. }
  destruct (bindParameters_null_value id (λ _, Some sample_root) "{...}"
              sample_enumerator sample_root "limit" eq_refl Hin Hnull)
    as [Hres Hret].
  destruct Hret as [e' He'].
  { intros k v Hv Hnn. apply elem_of_cons in Hv as [Hv|Hv]; [congruence|].
    apply elem_of_cons in Hv as [Hv|Hv]; [|by apply elem_of_nil in Hv].
    injection Hv as -> ->. vm_compute. set_solver. }
  exists e'. destruct (Hres e' He') as [Hu Hb].
  split; [exact He'|]. split; [exact Hu|]. split; [exact Hb|].
  vm_compute in He'. injection He' as <-. reflexivity.
Defined.

(** *** Seeking past the end *)

Lemma sint64_small z : (- 2 ^ 63 ≤ z < 2 ^ 63)%Z → sint64 z = z.
Proof. intros H. unfold sint64. rewrite Z.mod_small; lia. Qed.

Lemma uint64_small z : (0 ≤ z < 2 ^ 64)%Z → uint64 z = z.
Proof. intros H. unfold uint64. by rewrite Z.mod_small. Qed.

(** A recording that ends at or before row [rowIndex] refuses the seek and
    stays as it is. *)
Lemma Playback_seek_past rowIndex p rowCount :
  (0 ≤ _firstRow p)%Z →
  (2 * _firstRow p + Playback_count p ≤ 2 * rowCount)%Z →
  (rowCount ≤ rowIndex < 2 ^ 62)%Z →
  Playback_seek rowIndex p = (false, p).
Proof.
  intros Hf Hc Hi. unfold Playback_seek.
  assert (Hn : (0 ≤ Playback_count p)%Z) by (unfold Playback_count; lia).
  rewrite (sint64_small (rowIndex - _firstRow p)) by lia.
  destruct (Z.ltb_spec (rowIndex - _firstRow p) 0); [done|].
  rewrite sint64_small by lia.
  destruct (Z.leb_spec (Playback_count p) ((rowIndex - _firstRow p) * 2));
    [done|lia].
Qed.

(** Stepping towards a row at or past the end of the result set uses up
    the statement's rows. *)
Lemma skipRows_past rows : ∀ rowCount rowIndex,
  (0 ≤ rowCount)%Z →
  (rowCount + Z.of_nat (length rows) ≤ rowIndex < 2 ^ 62)%Z →
  skipRows rows rowCount rowIndex
  = if (rowCount + Z.of_nat (length rows) <? rowIndex)%Z
    then (false, (None, rowCount + Z.of_nat (length rows))%Z)
    else (true, (Some [], rowCount + Z.of_nat (length rows))%Z).
Proof.
  induction rows as [|row rest IH]; intros rc i Hrc Hi; simpl length in *.
  - simpl. rewrite (uint64_small i) by lia. rewrite Z.add_0_r.
    by destruct (Z.ltb_spec rc i).
  - unfold skipRows; fold skipRows. rewrite (uint64_small i) by lia.
    destruct (Z.ltb_spec rc i); [|lia].
    rewrite (uint64_small (rc + 1)) by lia.
    rewrite IH by lia.
    replace (rc + 1 + Z.of_nat (length rest))%Z
      with (rc + Z.of_nat (S (length rest)))%Z by lia.
    done.
Qed.

(** Where a failed seek leaves the enumerator.  On a consistent
    enumerator, [seek] to a row index from the end of the result set on
    (and below 2^62) fails with InvalidParameter and leaves the current
    row position as it was.  When a next recording is queued the whole
    enumerator is unchanged.  When none is queued the current recording
    has been released, and the live statement, if there was one, has been
    stepped to its end. *)
Theorem seek_past_end_fails ftd finishDoc e rowIndex :
  consistent e →
  (totalRows e ≤ rowIndex < 2 ^ 62)%Z →
  let r := seek ftd finishDoc rowIndex e in
  r.1 = Throw InvalidParameter
  ∧ _curRow r.2 = _curRow e
  ∧ (is_Some (_nextEnumerator e) → r.2 = e)
  ∧ (_nextEnumerator e = None →
     r.2 = set_statement None (totalRows e)
             (match _statement e with
              | Some _ => false
              | None => _observingTransaction e
              end)
             (set_playbacks None None (_oldEnumerator e) e)).
Proof.
  intros (Hrc & Htot & Hcur & Hc & Hn) Hi r. subst r.
  assert (Hlen : (_rowCount e ≤ totalRows e)%Z) by (unfold totalRows; lia).
  unfold seek.
  destruct (Z.eqb_spec rowIndex (_curRow e)) as [Heq|Hneq]; [lia|].
  assert (Hwithin :
    (match _curEnumerator e with
     | Some p => let '(ok, p') := Playback_seek rowIndex p in (ok, Some p')
     | None => (false, None)
     end).1 = false).
  { destruct (_curEnumerator e) as [p|] eqn:Hp; [|done].
    destruct (Hc p eq_refl) as [Hf Hcount].
    by rewrite (Playback_seek_past rowIndex p (_rowCount e)) by (done || lia). }
  rewrite Hwithin.
  destruct (Z.ltb_spec rowIndex (_curRow e)) as [Hlt|Hge]; [lia|].
  destruct (_nextEnumerator e) as [nxt|] eqn:Hnext.
  - destruct (Hn nxt eq_refl) as [Hf Hcount].
    rewrite (Playback_seek_past rowIndex nxt (_rowCount e)) by (done || lia).
    simpl. repeat split; done.
  - destruct e as [q o st b u ls rc cr cur nx old obs].
    unfold totalRows in *. simpl in *. subst nx.
    destruct st as [rows|]; simpl in *.
    + rewrite (skipRows_past rows rc rowIndex) by lia.
      destruct (Z.ltb_spec (rc + Z.of_nat (length rows)) rowIndex); simpl.
      * repeat split; try done; by intros [? ?].
      * repeat split; try done; by intros [? ?].
    + rewrite Z.add_0_r in *. rewrite (uint64_small rowIndex) by lia.
      destruct (Z.ltb_spec rc rowIndex); simpl.
      * repeat split; try done; by intros [? ?].
      * repeat split; try done; by intros [? ?].
Qed.

Lemma seek_past_end_fails_witness :
  ∃ e e1, sample_create 1 rows_v1 = Ok e
       ∧ consistent e
       ∧ (totalRows e ≤ 5 < 2 ^ 62)%Z
       ∧ (sample_seek 5 e).1 = Throw InvalidParameter
       ∧ (sample_seek 5 e).2 = e
       ∧ sample_next e = (Ok true, e1)
       ∧ consistent e1
       ∧ (sample_seek 5 e1).1 = Throw InvalidParameter
       ∧ _curRow (sample_seek 5 e1).2 = _curRow e1.
Proof.
  eexists _, _. split; [vm_compute; reflexivity|].
  match goal with |- consistent ?e ∧ _ => set (e0 := e) end.
  assert (Hc : consistent e0).
  { unfold consistent, recorded_within, totalRows. simpl.
    repeat split; try lia; try done;
      match goal with H : Some _ = Some _ |- _ => injection H as <- end;
      vm_compute; discriminate. }
  assert (Hi : (totalRows e0 ≤ 5 < 2 ^ 62)%Z) by (vm_compute; split; congruence).
  destruct (seek_past_end_fails (λ _, None) sample_finishDoc e0 5 Hc Hi)
    as (H1 & _ & H2 & _).
  split; [exact Hc|]. split; [exact Hi|]. split; [exact H1|].
  split; [apply H2; vm_compute; eauto|].
  split; [vm_compute; reflexivity|].
  match goal with |- consistent ?e ∧ _ => set (e1 := e) end.
  assert (Hc1 : consistent e1).
  { unfold consistent, recorded_within, totalRows. simpl.
    repeat split; try lia; try done;
      match goal with H : Some _ = Some _ |- _ => injection H as <- end;
      vm_compute; discriminate. }
  assert (Hi1 : (totalRows e1 ≤ 5 < 2 ^ 62)%Z)
    by (vm_compute; split; congruence).
  destruct (seek_past_end_fails (λ _, None) sample_finishDoc e1 5 Hc1 Hi1)
    as (H3 & H4 & _).
  split; [exact Hc1|]. split; [exact H3|exact H4].
Defined.

(** C6 at its failing input.  A buffered enumerator over a single row
    stands on that row after one [next].  Seeking to row 5 throws
    InvalidParameter, but not before [_curEnumerator.reset()]: the
    enumerator is left with [_curRow] still 0 and no current recording,
    so that reading the columns of the row it stands on goes through a
    null pointer, and seeking to row 0, where it claims to be, does
    nothing. *)
Theorem seek_past_end_drops_current_recording :
  ∃ e0 e1, sample_create 1 rows_v1 = Ok e0
    ∧ sample_next e0 = (Ok true, e1)
    ∧ _curRow e1 = 0%Z
    ∧ columns e1 = Ok [VInt 1]
    ∧ let r := sample_seek 5 e1 in
      r.1 = Throw InvalidParameter
      ∧ _curRow r.2 = 0%Z
      ∧ _curEnumerator r.2 = None
      ∧ r.2 ≠ e1
      ∧ columns r.2 = Throw NullDereference
      ∧ missingColumns r.2 = Throw NullDereference
      ∧ sample_seek 0 r.2 = (Ok (), r.2).
Proof.
  eexists _, _. split; [vm_compute; reflexivity|].
  split; [vm_compute; reflexivity|].
  split; [vm_compute; reflexivity|]. split; [vm_compute; reflexivity|].
  cbv zeta.
  split; [vm_compute; reflexivity|]. split; [vm_compute; reflexivity|].
  split; [vm_compute; reflexivity|]. split; [vm_compute; discriminate|].
  split; [vm_compute; reflexivity|]. split; [vm_compute; reflexivity|].
  vm_compute. reflexivity.
Qed.

(** *** What the constructor of a buffered enumerator leaves *)

Lemma encodeRow_two_items ftd q row items :
  encodeRow ftd q row = Ok items → length items = 2%nat.
Proof.
  unfold encodeRow. destruct (encodeColumns ftd q 0 row 0) as [[vs m]|];
    simpl; intros H; by simplify_eq.
Qed.

Lemma set_statement_twice st rc obs st' rc' obs' e :
  set_statement st rc obs (set_statement st' rc' obs' e)
  = set_statement st rc obs e.
Proof. reflexivity. Qed.

(** As long as the bound [maxRows] is not reached, the loop of [encodeRows]
    runs to the end of the result set: it releases the statement, counts
    every row, and appends two items a row. *)
Lemma encodeRows_loop_all ftd rows : ∀ fuel maxRows numRows arr e r e',
  _statement e = Some rows →
  (length rows < fuel)%nat →
  (0 ≤ numRows)%Z →
  (numRows + Z.of_nat (length rows) < uint64 maxRows)%Z →
  (uint64 maxRows ≤ 2 ^ 63)%Z →
  (0 ≤ _rowCount e)%Z →
  (_rowCount e + Z.of_nat (length rows) < 2 ^ 63)%Z →
  encodeRows_loop ftd fuel maxRows numRows arr e = (Ok r, e') →
  e' = set_statement None (_rowCount e + Z.of_nat (length rows)) false e
  ∧ r.2 = (numRows + Z.of_nat (length rows))%Z
  ∧ length r.1 = (length arr + 2 * length rows)%nat.
Proof.
  induction rows as [|row rest IH];
    intros fuel maxRows numRows arr e r e' Hst Hfuel Hn Hmax Hmax' Hrc Hrc' H;
    (destruct fuel as [|fuel]; [simpl in Hfuel; lia|]);
    simpl in H; simpl length in *.
  - destruct (Z.ltb_spec numRows (uint64 maxRows)); [|lia].
    unfold stepStatement in H. rewrite Hst in H. simplify_eq.
    simpl. rewrite Z.add_0_r. repeat split; lia.
  - destruct (Z.ltb_spec numRows (uint64 maxRows)); [|lia].
    unfold stepStatement in H. rewrite Hst in H.
    destruct (encodeRow ftd _ row) as [items|] eqn:Hrow; [|done].
    rewrite (uint64_small (_rowCount e + 1)) in H by lia.
    rewrite (uint64_small (numRows + 1)) in H by lia.
    apply IH in H; simpl; try lia; try done.
    destruct H as (-> & -> & ->).
    rewrite set_statement_twice, length_app, (encodeRow_two_items _ _ _ _ Hrow).
    simpl. repeat split; try lia. f_equal. lia.
Qed.

#[local] Arguments encodeRows_loop : simpl never.

Lemma bindParameters_fields conv asDict json e e' :
  bindParameters conv asDict json e = Ok e' →
  ∃ u b, e' = set_binding u b e.
Proof.
  unfold bindParameters. destruct (asDict _) as [root|]; [|done].
  destruct (bindEntries _ _ _ _) as [[u b]|]; [|done].
  simpl. intros H. simplify_eq. eauto.
Qed.

(** A buffered enumerator, once constructed, has read the whole result set
    into one recording queued as next (none for an empty result set), and
    carries the sequence it was created at. *)
Lemma create_buffered ftd finishDoc conv asDict q opts seq rows e :
  oneShot opts = false →
  (Z.of_nat (length rows) < 2 ^ 62)%Z →
  create ftd finishDoc conv asDict q opts seq rows = Ok e →
  _query e = q ∧ _options e = opts ∧ _lastSequence e = seq
  ∧ _statement e = None
  ∧ _rowCount e = Z.of_nat (length rows)
  ∧ _curRow e = (-1)%Z
  ∧ _curEnumerator e = None ∧ _oldEnumerator e = None
  ∧ match _nextEnumerator e with
    | None => rows = []
    | Some p => rows ≠ []
                ∧ _firstRow p = 0%Z ∧ _iter p = 0%Z
                ∧ Playback_count p = (2 * Z.of_nat (length rows))%Z
                ∧ data (_recording p) = finishDoc (asArray (_recording p))
    end.
Proof.
  intros Hone Hlen. unfold create. rewrite Hone.
  set (e0 := mkEnumerator q opts (Some rows) ∅ (_parameters q) seq 0 (-1)
                          None None None false).
  intros H.
  assert (∃ u b, (match paramBindings opts with
                  | Some json => bindParameters conv asDict json e0
                  | None => Ok e0
                  end) = Ok (set_binding u b e0)) as (u & b & Hb).
  { destruct (paramBindings opts) as [json|].
    - destruct (bindParameters conv asDict json e0) as [e1|] eqn:Hbind;
        [|done].
      destruct (bindParameters_fields _ _ _ _ _ Hbind) as (u & b & ->). eauto.
    - exists (_parameters q), ∅. reflexivity. }
  rewrite Hb in H. simpl in H. clear Hb.
  unfold fastForward, recordRows, encodeRows in H. simpl in H.
  destruct (encodeRows_loop ftd (S (length rows)) INT64_MAX 0 []
              (set_binding u b e0)) as [[[arr numRows]|x] e1] eqn:Hloop;
    [|done].
  assert (Hmax : uint64 INT64_MAX = (2 ^ 63 - 1)%Z) by (vm_compute; reflexivity).
  apply encodeRows_loop_all with (rows := rows) in Hloop;
    [ | reflexivity | lia | lia | rewrite Hmax; lia | rewrite Hmax; lia
      | unfold e0; simpl; lia | unfold e0; simpl; lia ].
  simpl in Hloop. destruct Hloop as (-> & -> & Harr).
  rewrite !Z.add_0_l in H. rewrite sint64_small in H by lia.
  destruct (Z.eqb_spec (Z.of_nat (length rows)) 0) as [Hz|Hnz];
    simpl in H; simplify_eq; simpl.
  - repeat split; try done. destruct rows; [done|simpl in Hz; lia].
  - repeat split; try done.
    + intros ->. simpl in Hnz. lia.
    + unfold Playback_count. simpl. lia.
Qed.

(** A freshly constructed buffered enumerator is consistent. *)
Lemma create_consistent ftd finishDoc conv asDict q opts seq rows e :
  oneShot opts = false →
  (Z.of_nat (length rows) < 2 ^ 62)%Z →
  create ftd finishDoc conv asDict q opts seq rows = Ok e →
  consistent e ∧ totalRows e = Z.of_nat (length rows).
Proof.
  intros Hone Hlen Hcreate.
  destruct (create_buffered _ _ _ _ _ _ _ _ _ Hone Hlen Hcreate)
    as (_ & _ & _ & Hst & Hrc & Hrow & Hcur & _ & Hnext).
  unfold consistent, totalRows, recorded_within.
  rewrite Hst, Hrc, Hrow, Hcur. simpl. rewrite Z.add_0_r.
  repeat split; try lia; try done;
    match goal with Hp : _nextEnumerator e = Some _ |- _ =>
      rewrite Hp in Hnext end; lia.
Qed.

(** So is a freshly constructed one-shot enumerator, which has read
    nothing yet. *)
Lemma create_one_shot_consistent ftd finishDoc conv asDict q opts seq rows e :
  oneShot opts = true →
  (Z.of_nat (length rows) < 2 ^ 62)%Z →
  create ftd finishDoc conv asDict q opts seq rows = Ok e →
  consistent e ∧ totalRows e = Z.of_nat (length rows)
  ∧ _statement e = Some rows.
Proof.
  intros Hone Hlen. unfold create. rewrite Hone.
  set (e0 := mkEnumerator q opts (Some rows) ∅ (_parameters q) seq 0 (-1)
                          None None None false).
  intros H.
  assert (∃ u b, e = set_statement (Some rows) 0 true (set_binding u b e0))
    as (u & b & ->).
  { destruct (paramBindings opts) as [json|].
    - destruct (bindParameters conv asDict json e0) as [e1|] eqn:Hbind;
        [|done].
      destruct (bindParameters_fields _ _ _ _ _ Hbind) as (u & b & ->).
      simpl in H. injection H as <-. by exists u, b.
    - simpl in H. injection H as <-. by exists (_parameters q), ∅. }
  unfold consistent, totalRows, recorded_within. simpl.
  repeat split; try lia; done.
Qed.

(** A one-shot enumerator over two rows: seeking to row 5 fails with
    InvalidParameter after stepping the statement to its end. *)
Example seek_past_end_one_shot :
  ∃ e, create (λ _, None) sample_finishDoc id (λ _, None) plain_query
              (mkOptions true None) 1 rows_two = Ok e
       ∧ _statement e = Some rows_two
       ∧ (sample_seek 5 e).1 = Throw InvalidParameter
       ∧ _statement (sample_seek 5 e).2 = None
       ∧ _rowCount (sample_seek 5 e).2 = 2%Z
       ∧ _curRow (sample_seek 5 e).2 = (-1)%Z.
Proof.
  eexists. split; [vm_compute; reflexivity|]. vm_compute. repeat split.
Qed.

(** *** Refreshing *)

(** Where [refresh] compares two recordings.  Take a buffered enumerator
    that holds a recording (current, next or previous), and a re-run of
    the query that yields at least one row.  The query is re-run iff the
    stored [lastSequence] is 0 or differs from the key-store's current
    one.  [refresh] returns the new enumerator iff the query is re-run and
    the newly recorded bytes differ from those of the held recording.
    When the query is re-run and the bytes are equal it returns null and
    the stored [lastSequence] becomes the current one; when the query is
    not re-run it returns null and the enumerator is unchanged. *)
Theorem refresh_new_enumerator_iff
    ftd finishDoc conv asDict e curSeq rows newEnum own :
  oneShot (_options e) = false →
  ownRecording e = Some own →
  rows ≠ [] → (Z.of_nat (length rows) < 2 ^ 62)%Z →
  create ftd finishDoc conv asDict (_query e) (_options e) curSeq rows
    = Ok newEnum →
  ∃ fresh,
    _nextEnumerator newEnum = Some fresh
    ∧ let r := refresh ftd finishDoc conv asDict curSeq rows e in
      let rerun := _lastSequence e = 0%N ∨ _lastSequence e ≠ curSeq in
      let differ := data (_recording own) ≠ data (_recording fresh) in
      (r.1 = Ok (Some newEnum) ∨ r.1 = Ok None)
      ∧ (r.1 = Ok (Some newEnum) ↔ rerun ∧ differ)
      ∧ (rerun → ¬ differ → r = (Ok None, set_lastSequence curSeq e))
      ∧ (¬ rerun → r = (Ok None, e)).
Proof.
  intros Hone Hown Hrows Hlen Hcreate.
  destruct (create_buffered _ _ _ _ _ _ _ _ _ Hone Hlen Hcreate)
    as (_ & _ & Hseq & _ & _ & _ & Hcur & _ & Hnext).
  destruct (_nextEnumerator newEnum) as [fresh|] eqn:Hfresh; [|done].
  exists fresh. split; [done|]. intros r rerun differ. subst r.
  unfold refresh, createEnumerator. rewrite Hone.
  destruct (N.ltb_spec 0 (_lastSequence e)) as [Hpos|Hzero];
    [destruct (N.eqb_spec (_lastSequence e) curSeq) as [Hsame|Hchanged]|];
    simpl.
  - (* not re-run *)
    assert (Hno : ¬ rerun) by (unfold rerun; lia).
    split; [by right|]. split; [split; [done|tauto]|]. split; [tauto|done].
  - rewrite Hcreate. simpl. unfold hasEqualContents, otherRecording.
    rewrite Hown, Hcur, Hfresh. unfold Playback_hasEqualContents.
    assert (Hre : rerun) by (by right).
    case_bool_decide as Hd; simpl; rewrite ?Hseq.
    + split; [by right|]. split; [split; [done|intros [_ ?]; done]|].
      split; [done|tauto].
    + split; [by left|]. split; [split; done|]. split; [done|tauto].
  - rewrite Hcreate. simpl. unfold hasEqualContents, otherRecording.
    rewrite Hown, Hcur, Hfresh. unfold Playback_hasEqualContents.
    assert (Hre : rerun) by (left; lia).
    case_bool_decide as Hd; simpl; rewrite ?Hseq.
    + split; [by right|]. split; [split; [done|intros [_ ?]; done]|].
      split; [done|tauto].
    + split; [by left|]. split; [split; done|]. split; [done|tauto].
Qed.

(** The key-store moved from sequence 1 to 2 and the row changed: a new
    enumerator.  *)
Lemma refresh_new_enumerator_iff_witness :
  ∃ e newEnum, sample_create 1 rows_v1 = Ok e
    ∧ sample_create 2 rows_v2 = Ok newEnum
    ∧ (sample_refresh 2 rows_v2 e).1 = Ok (Some newEnum).
Proof.
  eexists _, _. split; [vm_compute; reflexivity|].
  split; [vm_compute; reflexivity|].
  match goal with |- (sample_refresh _ _ ?e).1 = Ok (Some ?n) =>
    set (e0 := e); set (n0 := n) end.
  assert (Hown : ∃ own, ownRecording e0 = Some own) by (vm_compute; eauto).
  destruct Hown as [own Hown].
  destruct (refresh_new_enumerator_iff (λ _, None) sample_finishDoc id
              (λ _, None) e0 2 rows_v2 n0 own eq_refl Hown
              ltac:(discriminate) ltac:(vm_compute; reflexivity)
              ltac:(vm_compute; reflexivity))
    as (fresh & Hfresh & _ & Hiff & _).
  apply Hiff. split; [right; vm_compute; discriminate|].
  vm_compute in Hown, Hfresh. injection Hown as <-. injection Hfresh as <-.
  vm_compute. discriminate.
Defined.

(** C3 at its failing input.  An enumerator is made while one document
    matches, at sequence 1.  The document goes away, the key-store is at
    sequence 2, and the re-run of the query yields no row.  The sequence
    has changed and the results differ, but [refresh] hands out no new
    enumerator: the enumerator it made has no recording ([recordRows]
    returns null for no rows), and [hasEqualContents] goes through that
    null pointer.  The same happens the other way round, to an enumerator
    made over an empty result set when a document comes to match. *)
Theorem refresh_empty_rerun_null_dereference :
  ∃ e newEnum,
    sample_create 1 rows_v1 = Ok e
    ∧ is_Some (ownRecording e)
    ∧ sample_create 2 [] = Ok newEnum
    ∧ otherRecording newEnum = None
    ∧ sample_refresh 2 [] e = (Throw NullDereference, e)
    ∧ ∃ e' newEnum',
        sample_create 1 [] = Ok e'
        ∧ ownRecording e' = None
        ∧ sample_create 2 rows_v1 = Ok newEnum'
        ∧ is_Some (otherRecording newEnum')
        ∧ sample_refresh 2 rows_v1 e' = (Throw NullDereference, e').
Proof.
  eexists _, _. split; [vm_compute; reflexivity|].
  split; [vm_compute; eauto|]. split; [vm_compute; reflexivity|].
  split; [vm_compute; reflexivity|]. split; [vm_compute; reflexivity|].
  eexists _, _. split; [vm_compute; reflexivity|].
  split; [vm_compute; reflexivity|]. split; [vm_compute; reflexivity|].
  split; [vm_compute; eauto|]. vm_compute. reflexivity.
Qed.

End SQLiteQueryFacts.

Module DBActorFacts.
Import DBActor Scenarios.

(** *** Reading back a printed generation *)

Lemma digit_of_pretty_N_char d :
  (d < 10)%N → digit_of (pretty_N_char d) = Some (Z.of_N d).
Proof.
  intros Hd.
  assert (d = 0 ∨ d = 1 ∨ d = 2 ∨ d = 3 ∨ d = 4 ∨ d = 5 ∨ d = 6 ∨ d = 7
          ∨ d = 8 ∨ d = 9)%N as Hc by lia.
  repeat (destruct Hc as [->|Hc]; [reflexivity|]). by subst.
Qed.

(** A digit is no white space and no sign, so [strtol] starts on it. *)
Lemma strtol_on_digit c r d :
  digit_of c = Some d →
  strtol (String c r) = Z.min (digits_value (String c r) 0) LONG_MAX.
Proof.
  intros Hd. unfold strtol.
  destruct c as [[] [] [] [] [] [] [] []]; try discriminate Hd; reflexivity.
Qed.

Lemma pretty_N_go_app x : ∀ s t,
  pretty_N_go x s +:+ t = pretty_N_go x (s +:+ t).
Proof.
  induction (N.lt_wf_0 x) as [x _ IH]; intros s t.
  destruct (decide (x = 0)%N) as [->|Hx]; [by rewrite !pretty_N_go_0|].
  rewrite (pretty_N_go_step x s), (pretty_N_go_step x (s +:+ t)) by lia.
  rewrite IH by (apply N.div_lt; lia). reflexivity.
Qed.

(** The printed digits of [x] start with a digit. *)
Lemma pretty_N_go_head x : ∀ s,
  (0 < x)%N → ∃ c r d, pretty_N_go x s = String c r ∧ digit_of c = Some d.
Proof.
  induction (N.lt_wf_0 x) as [x _ IH]; intros s Hx.
  rewrite pretty_N_go_step by done.
  destruct (decide (x `div` 10 = 0)%N) as [Hz|Hz].
  - rewrite Hz, pretty_N_go_0. eexists _, _, _. split; [done|].
    apply digit_of_pretty_N_char, N.mod_lt. lia.
  - apply IH; [apply N.div_lt; lia|by apply N.neq_0_lt_0].
Qed.

(** Reading the printed digits of [x] appends them to the accumulator. *)
Lemma digits_value_pretty_N_go x : ∀ s a,
  ∃ k, digits_value (pretty_N_go x s) a
       = digits_value s (a * 10 ^ Z.of_nat k + Z.of_N x)%Z.
Proof.
  induction (N.lt_wf_0 x) as [x _ IH]; intros s a.
  destruct (decide (x = 0)%N) as [->|Hx].
  - exists 0%nat. rewrite pretty_N_go_0. f_equal. simpl. lia.
  - rewrite pretty_N_go_step by lia.
    destruct (IH (x `div` 10)%N ltac:(apply N.div_lt; lia)
                 (String (pretty_N_char (x `mod` 10)) s) a) as [k ->].
    exists (S k). simpl.
    rewrite digit_of_pretty_N_char by (apply N.mod_lt; lia).
    f_equal. rewrite Nat2Z.inj_succ, Z.pow_succ_r by lia.
    pose proof (N.div_mod x 10 ltac:(lia)) as Hdm.
    apply (f_equal Z.of_N) in Hdm.
    rewrite N2Z.inj_add, N2Z.inj_mul in Hdm. simpl Z.of_N in Hdm at 2. lia.
Qed.

(** [strtol] reads back the generation of a meta printed as
    "<generation>-cc". *)
Lemma strtol_newRev (n : N) :
  (Z.of_N n ≤ LONG_MAX)%Z → strtol (pretty n +:+ "-cc") = Z.of_N n.
Proof.
  intros Hn. unfold pretty, pretty_N.
  destruct (decide (n = 0)%N) as [->|Hnz]; [reflexivity|].
  rewrite pretty_N_go_app.
  destruct (pretty_N_go_head n ("" +:+ "-cc") ltac:(lia))
    as (c & r & d & Heq & Hd).
  rewrite Heq, (strtol_on_digit c r d Hd), <- Heq.
  destruct (digits_value_pretty_N_go n ("" +:+ "-cc") 0) as [k ->].
  simpl. lia.
Qed.

Lemma newRev_next (n : N) :
  (Z.of_N n ≤ LONG_MAX)%Z →
  newRev (uint64 (uint64 (strtol (pretty n +:+ "-cc")) + 1))
  = pretty (n + 1)%N +:+ "-cc".
Proof.
  intros Hn. rewrite strtol_newRev by done. unfold newRev, uint64.
  unfold LONG_MAX in Hn.
  rewrite (Z.mod_small (Z.of_N n)) by lia.
  rewrite Z.mod_small by lia. do 2 f_equal. lia.
Qed.

(** Closes a goal from the membership [H] of a response in a list of
    other responses. *)
Ltac no_such_response H :=
  repeat (apply elem_of_cons in H as [H|H]; [discriminate H|]);
  by apply elem_of_nil in H.

(** C8. For a setCheckpoint request that names its client, served by a
    database whose read does not fail: the handler answers with HTTP 409
    iff the request's [rev] property differs from the stored document's
    meta (empty when there is no document), and then stores nothing.  On a
    match, when the transaction begins and the write and the commit succeed,
    it stores the request body under a new meta, all in that one
    transaction, and answers with that meta; the new meta is the stored
    decimal generation plus one followed by "-cc", and "1-cc" when there was
    no document. *)
Theorem handleSetCheckpoint_conflict_iff_rev_differs
    env request (db : gmap string C4RawDocument) checkpointID :
  readFails env = false →
  property "client" request = Some checkpointID →
  let storedMeta := meta <$> db !! checkpointID in
  let r := handleSetCheckpoint env request db in
  (respondWithError "HTTP" 409 ∈ r.1
   ↔ default "" (property "rev" request) ≠ default "" storedMeta)
  ∧ (respondWithError "HTTP" 409 ∈ r.1 → r.2 = db)
  ∧ (default "" (property "rev" request) = default "" storedMeta →
     beginOK env = true → putOK env = true → commitOK env = true →
     ∃ newMeta,
       r = ([respond {["rev" := newMeta]}],
            <[checkpointID := mkRawDocument newMeta (requestBody request)]> db)
       ∧ (∀ n : N, storedMeta = Some (pretty n +:+ "-cc") →
                   (Z.of_N n ≤ LONG_MAX)%Z →
                   newMeta = pretty (n + 1)%N +:+ "-cc")
       ∧ (storedMeta = None → newMeta = "1-cc")).
Proof.
  intros Hread Hclient storedMeta r. subst r storedMeta.
  unfold handleSetCheckpoint, getPeerCheckpointDoc, slice_eqb.
  rewrite Hread, Hclient. simpl.
  destruct (db !! checkpointID) as [d|] eqn:Hdoc; simpl;
    case_bool_decide as Heq; simpl.
  - split; [|split].
    + split; [|done].
      destruct (beginOK env), (putOK env), (commitOK env); simpl;
        intros Hin; no_such_response Hin.
    + destruct (beginOK env), (putOK env), (commitOK env); simpl;
        intros Hin; no_such_response Hin.
    + intros _ -> -> ->. simpl. eexists. split; [done|]. split; [|done].
      intros n Hn Hmax. injection Hn as ->. by apply newRev_next.
  - split; [|split].
    + split; [done|]. intros _. apply elem_of_app. right.
      apply list_elem_of_here.
    + done.
    + intros Hrev. by destruct Heq.
  - split; [|split].
    + split; [|done].
      destruct (beginOK env), (putOK env), (commitOK env); simpl;
        intros Hin; no_such_response Hin.
    + destruct (beginOK env), (putOK env), (commitOK env); simpl;
        intros Hin; no_such_response Hin.
    + intros _ -> -> ->. simpl. eexists. split; [done|]. split; [done|].
      intros _. reflexivity.
  - split; [|split].
    + split; [done|]. intros _. apply elem_of_app. right.
      apply list_elem_of_here.
    + done.
    + intros Hrev. by destruct Heq.
Qed.

Lemma handleSetCheckpoint_conflict_iff_rev_differs_witness :
  handleSetCheckpoint sample_env sample_request sample_store
  = ([respond {["rev" := "4-cc"]}],
     <["peer1" := mkRawDocument "4-cc" "[9]"]> sample_store).
Proof.
  destruct (handleSetCheckpoint_conflict_iff_rev_differs
              sample_env sample_request sample_store "peer1"
              eq_refl eq_refl) as (_ & _ & H).
  destruct (H eq_refl eq_refl eq_refl eq_refl) as (newMeta & Hr & Hgen & _).
  rewrite Hr, (Hgen 3%N eq_refl ltac:(vm_compute; discriminate)).
  reflexivity.
Defined.

End DBActorFacts.

(** ** The split key-store: what every [set] keeps *)

Module BothKeyStoreLaws.
Import KeyStore BothKeyStore Scenarios BothKeyStoreFacts.

Ltac bool_hyps :=
  repeat match goal with
         | H : _ && _ = true |- _ => apply andb_true_iff in H as [? ?]
         | H : (_ =? _)%N = true |- _ => apply N.eqb_eq in H
         | H : (_ <? _)%N = true |- _ => apply N.ltb_lt in H
         | H : (_ <? _)%N = false |- _ => apply N.ltb_ge in H
         end.

(** What a [set] can do to the two sub-stores: nothing (and then it
    returned 0 or failed the assertion); or store the record under a fresh
    sequence in the target sub-store, the other one losing the key at
    most; or replace the record in the target under its old sequence. *)
Lemma set_effect key vers value fl rs ns s :
  let r := BothKeyStore.set key vers value fl rs ns s in
  let rec seq := mkRec vers value fl seq in
  let fresh := (lastSequence s + 1)%N in
  (r.2 = s ∧ (r.1 = Ok 0%N ∨ r.1 = Throw AssertionFailed))
  ∨ (r.1 = Ok fresh ∧ lastSequence r.2 = fresh
     ∧ sub (target fl) r.2 = <[key := rec fresh]> (sub (target fl) s)
     ∧ (sub (other fl) r.2 = delete key (sub (other fl) s)
        ∨ sub (other fl) r.2 = sub (other fl) s))
  ∨ (∃ old, sub (target fl) s !! key = Some old ∧ (0 < sequence old)%N
     ∧ r.1 = Ok (sequence old) ∧ lastSequence r.2 = lastSequence s
     ∧ sub (target fl) r.2 = <[key := rec (sequence old)]> (sub (target fl) s)
     ∧ sub (other fl) r.2 = sub (other fl) s).
Proof.
  destruct s as [lv dd ls]. intros r rec fresh. subst r rec fresh.
  unfold_set. simpl.
  destruct (deleting fl), rs as [[|p]|]; simpl;
    repeat (case_match; simpl in *; simplify_eq);
    try (case_bool_decide; simpl in *); simpl; auto 10.
  all: try (right; left; repeat split; auto; fail).
  all: bool_hyps; try lia; try done.
  all: right; right; eexists; split; [reflexivity|];
       match goal with H : sequence _ = _ |- _ => rewrite H end;
       repeat split; auto; lia.
Qed.

Lemma which_cases fl w : w = target fl ∨ w = other fl.
Proof. unfold target, other. destruct w, (deleting fl); auto. Qed.

Lemma target_other fl : target fl ≠ other fl.
Proof. unfold target, other. by destruct (deleting fl). Qed.

(** X1. A [set] touches no key but its own: every other key keeps its
    record, or its absence, in both sub-stores. *)
Theorem set_leaves_other_keys key vers value fl rs ns s w k :
  k ≠ key →
  sub w (BothKeyStore.set key vers value fl rs ns s).2 !! k = sub w s !! k.
Proof.
  intros Hk.
  destruct (set_effect key vers value fl rs ns s)
    as [[-> _]|[(_ & _ & Ht & Ho)|(old & _ & _ & _ & _ & Ht & Ho)]]; [done| |].
  - destruct (which_cases fl w) as [->| ->].
    + rewrite Ht. by rewrite lookup_insert_ne.
    + destruct Ho as [-> | ->]; [by rewrite lookup_delete_ne|done].
  - destruct (which_cases fl w) as [->| ->].
    + rewrite Ht. by rewrite lookup_insert_ne.
    + by rewrite Ho.
Qed.

Lemma set_leaves_other_keys_witness :
  sub Dead (BothKeyStore.set "a" "2-bb" "" kDeleted None true store_S2).2 !! "b"
  = sub Dead store_S2 !! "b".
Proof. apply set_leaves_other_keys. done. Defined.


Lemma lookup_after_insert (m : gmap string Rec) key x k y :
  <[key := x]> m !! k = Some y → (k = key ∧ y = x) ∨ (k ≠ key ∧ m !! k = Some y).
Proof.
  destruct (decide (k = key)) as [->|Hne].
  - rewrite lookup_insert_eq. intros [= <-]. by left.
  - rewrite lookup_insert_ne by done. by right.
Qed.

Lemma lookup_after_delete (m : gmap string Rec) key k y :
  delete key m !! k = Some y → m !! k = Some y.
Proof.
  destruct (decide (k = key)) as [->|Hne].
  - by rewrite lookup_delete_eq.
  - by rewrite lookup_delete_ne.
Qed.

(** X3. The sequence allocator's invariant survives every [set]: stored
    sequences never exceed [lastSequence] and no two stored records share
    one, in either sub-store or across them. *)
Theorem set_keeps_sequences_unique key vers value fl rs ns s :
  sequences_bounded s → sequences_unique s →
  let r := BothKeyStore.set key vers value fl rs ns s in
  sequences_bounded r.2 ∧ sequences_unique r.2.
Proof.
  intros Hb Hu r. subst r.
  destruct (set_effect key vers value fl rs ns s)
    as [[-> _]|[(_ & Hl & Ht & Ho)|(old & Hold & _ & _ & Hl & Ht & Ho)]];
    [done| |].
  - set (s' := (BothKeyStore.set key vers value fl rs ns s).2) in *.
    assert (Horigin : ∀ w k x, sub w s' !! k = Some x →
              (w = target fl ∧ k = key
               ∧ x = mkRec vers value fl (lastSequence s + 1))
              ∨ sub w s !! k = Some x).
    { intros w k x Hx. destruct (which_cases fl w) as [->| ->].
      - rewrite Ht in Hx. apply lookup_after_insert in Hx as [[-> ->]|[_ Hx]];
          auto.
      - right. destruct Ho as [Ho|Ho]; rewrite Ho in Hx; [|done].
        by apply lookup_after_delete in Hx. }
    split.
    + intros w k x Hx. rewrite Hl.
      destruct (Horigin w k x Hx) as [(_ & _ & ->)|Hx']; simpl; [lia|].
      apply Hb in Hx'. lia.
    + intros w1 k1 x1 w2 k2 x2 H1 H2 Heq.
      destruct (Horigin _ _ _ H1) as [(-> & -> & ->)|H1'],
               (Horigin _ _ _ H2) as [(-> & -> & ->)|H2']; simpl in *.
      * done.
      * apply Hb in H2'. lia.
      * apply Hb in H1'. lia.
      * eauto.
  - set (s' := (BothKeyStore.set key vers value fl rs ns s).2) in *.
    assert (Horigin : ∀ w k x, sub w s' !! k = Some x →
              (w = target fl ∧ k = key
               ∧ x = mkRec vers value fl (sequence old))
              ∨ (¬ (w = target fl ∧ k = key) ∧ sub w s !! k = Some x)).
    { intros w k x Hx. destruct (which_cases fl w) as [->| ->].
      - rewrite Ht in Hx. apply lookup_after_insert in Hx as [[-> ->]|[? Hx]];
          [by left|right]. split; [tauto|done].
      - right. rewrite Ho in Hx. split; [|done].
        intros [Hw _]. by destruct (target_other fl). }
    split.
    + intros w k x Hx. rewrite Hl.
      destruct (Horigin w k x Hx) as [(_ & _ & ->)|[_ Hx']]; simpl; eauto.
    + intros w1 k1 x1 w2 k2 x2 H1 H2 Heq.
      destruct (Horigin _ _ _ H1) as [(-> & -> & ->)|[Hn1 H1']],
               (Horigin _ _ _ H2) as [(-> & -> & ->)|[Hn2 H2']]; simpl in *.
      * done.
      * destruct Hn2. symmetry in Heq.
        by destruct (Hu _ _ _ _ _ _ H2' Hold Heq).
      * destruct Hn1. by destruct (Hu _ _ _ _ _ _ H1' Hold Heq).
      * eauto.
Qed.

Lemma store_S1_sequences :
  sequences_bounded store_S1 ∧ sequences_unique store_S1.
Proof.
  split.
  - intros [] k x; simpl; [|by rewrite lookup_empty].
    intros [_ <-]%lookup_singleton_Some. simpl. lia.
  - intros [] k1 x1 [] k2 x2; simpl; rewrite ?lookup_empty; try done.
    by intros [<- _]%lookup_singleton_Some [<- _]%lookup_singleton_Some.
Qed.

Lemma set_keeps_sequences_unique_witness :
  let r := BothKeyStore.set "a" "2-bb" "" kDeleted (Some 1%N) true store_S1 in
  sequences_bounded r.2 ∧ sequences_unique r.2.
Proof.
  exact (set_keeps_sequences_unique "a" "2-bb" "" kDeleted (Some 1%N) true
           store_S1 (proj1 store_S1_sequences) (proj2 store_S1_sequences)).
Defined.

(** X4. An MVCC insert ([replacingSequence = 0]) looks for the key in both
    sub-stores: if either holds it, whether live or as a tombstone, the
    call returns 0 and changes nothing; otherwise the record is stored in
    the target sub-store under the next sequence. *)
Theorem set_mvcc_insert_iff_absent key vers value fl ns s :
  let r := BothKeyStore.set key vers value fl (Some 0%N) ns s in
  let fresh := (lastSequence s + 1)%N in
  if exists_ key (liveStore s) || exists_ key (deadStore s)
  then r = (Ok 0%N, s)
  else r = (Ok fresh,
            with_sub (target fl)
              (<[key := mkRec vers value fl fresh]> (sub (target fl) s))
              fresh s).
Proof.
  destruct s as [lv dd ls]. unfold_set. simpl.
  destruct (deleting fl); simpl;
    repeat (case_bool_decide; simpl);
    repeat (case_match; simpl in *; simplify_eq); try done.
  all: bool_hyps; try lia.
  all: match goal with H : ¬ is_Some (Some _) |- _ => by destruct H end.
Qed.

Lemma size_delete_Some (m : gmap string Rec) k r :
  m !! k = Some r → size m = S (size (delete k m)).
Proof.
  intros H. rewrite <- (insert_delete_id m k r H) at 1.
  rewrite map_size_insert_None; [done|apply lookup_delete_eq].
Qed.

(** X5. The record count over both sub-stores grows by one exactly when a
    plain upsert or an MVCC insert meets a key that neither sub-store
    holds, and is unchanged by every other [set]. *)
Theorem set_recordCount key vers value fl rs ns s :
  at_most_one key s →
  (N.of_nat (size (liveStore s)) + N.of_nat (size (deadStore s)) + 1
   < 2 ^ 64)%N →
  let r := BothKeyStore.set key vers value fl rs ns s in
  let added :=
    negb (exists_ key (liveStore s) || exists_ key (deadStore s))
    && match rs with None | Some 0%N => true | _ => false end in
  recordCount true r.2
  = (recordCount true s + if added then 1 else 0)%N.
Proof.
  intros Hone Hsize r added. subst r added.
  destruct s as [lv dd ls]. unfold recordCount, KeyStore.recordCount.
  unfold_set. simpl in *.
  assert (Hmod : ∀ a b : nat,
            (N.of_nat a + N.of_nat b < 2 ^ 64)%N →
            ((N.of_nat a + N.of_nat b) mod 2 ^ 64 = N.of_nat a + N.of_nat b)%N)
    by (intros; by apply N.mod_small).
  destruct (deleting fl), rs as [[|p]|]; simpl;
    repeat (case_bool_decide; simpl);
    repeat (case_match; simpl in *; simplify_eq); simpl.
  all: bool_hyps; try lia.
  all: repeat match goal with
       | H : ¬ is_Some ?x |- _ => apply eq_None_not_Some in H
       | H : is_Some ?x |- _ => destruct H as [? H]
       | H : _ ∨ _ |- _ => destruct H
       end; simplify_eq.
  all: rewrite ?map_size_insert_Some, ?map_size_insert_None,
         ?map_size_delete_None by eauto.
  all: rewrite ?N.add_0_r; try (rewrite Hmod by lia; lia).
  all: try match goal with
       | H : ?m !! ?k = Some _ |- context [size (delete ?k ?m)] =>
           pose proof (size_delete_Some m k _ H)
       end.
  all: rewrite !Hmod by lia; lia.
Qed.
Lemma set_recordCount_witness :
  recordCount true
    (BothKeyStore.set "b" "1-cc" "{}" 0 None true store_S1).2 = 2%N.
Proof.
  rewrite (set_recordCount "b" "1-cc" "{}" 0 None true store_S1).
  - vm_compute. reflexivity.
  - left. reflexivity.
  - vm_compute. reflexivity.
Defined.

(** *** withDocBodies *)

Section WithDocBodies.
Variable docIDs : list string.
Variable result : list (option string).
Variable fromDead : string → option string.

Lemma take_S_insert (l : list nat) k x :
  (k < length l)%nat → take (S k) (<[k := x]> l) = (take k l ++ [x])%list.
Proof.
  intros Hk. rewrite (take_S_r _ _ x) by by apply list_lookup_insert_eq.
  by rewrite take_insert_ge.
Qed.

Lemma length_misses m : (length (misses result m) ≤ m)%nat.
Proof.
  unfold misses. etrans; [apply length_filter|]. by rewrite length_seq.
Qed.

Lemma misses_S m :
  misses result (S m)
  = (misses result m
     ++ match result !!! m with None => [m] | Some _ => [] end)%list.
Proof.
  unfold misses. rewrite seq_S, filter_app. simpl. f_equal.
  destruct (result !!! m) eqn:Hres.
  - by rewrite filter_cons_False by (simpl; congruence).
  - by rewrite filter_cons_True by (simpl; congruence).
Qed.

(** The first loop: after [m] rounds the misses among the first [m]
    positions have been collected, in order. *)
Lemma recheck_loop m :
  (m ≤ length docIDs)%nat →
  ∃ recheckIndexes,
    foldl (recheck_step docIDs result) ([], replicate (length docIDs) 0, 0)
          (seq 0 m)
    = ((docIDs !!!.) <$> misses result m, recheckIndexes,
       length (misses result m))
    ∧ length recheckIndexes = length docIDs
    ∧ take (length (misses result m)) recheckIndexes = misses result m.
Proof.
  induction m as [|m IH]; intros Hm.
  - exists (replicate (length docIDs) 0). simpl.
    by rewrite length_replicate.
  - destruct IH as (idx & Hfold & Hlen & Htake); [lia|].
    rewrite seq_S, foldl_app, Hfold, misses_S. simpl. unfold recheck_step.
    pose proof (length_misses m) as Hk.
    destruct (result !!! m) as [b|].
    + rewrite app_nil_r. by exists idx.
    + exists (<[length (misses result m) := m]> idx).
      rewrite fmap_app, length_app, length_insert. simpl.
      rewrite Nat.add_1_r, take_S_insert by lia. by rewrite Htake.
Qed.

(** A loop over the positions of a list is a fold over the list. *)
Lemma foldl_seq_lookup {A B} `{!Inhabited B} (step : A → nat → A)
    (g : A → B → A) (l : list B) (a : A) :
  (∀ acc i, (i < length l)%nat → step acc i = g acc (l !!! i)) →
  foldl step a (seq 0 (length l)) = foldl g a l.
Proof.
  induction l as [|x l IH] using rev_ind; intros Hstep; [done|].
  rewrite length_app. simpl. rewrite Nat.add_1_r, seq_S, !foldl_app. simpl.
  rewrite IH.
  - rewrite Hstep by (rewrite length_app; simpl; lia).
    by rewrite lookup_total_app_r, Nat.sub_diag by lia.
  - intros acc i Hi. rewrite Hstep by (rewrite length_app; simpl; lia).
    by rewrite lookup_total_app_l by lia.
Qed.

Lemma foldl_patch_lookup l acc j :
  foldl (patch docIDs fromDead) acc l !! j
  = if bool_decide (j ∈ l)
    then match fromDead (docIDs !!! j) with
         | Some b => (λ _, Some b) <$> acc !! j
         | None => acc !! j
         end
    else acc !! j.
Proof.
  revert acc. induction l as [|a l IH]; intros acc.
  - rewrite bool_decide_eq_false_2 by apply not_elem_of_nil. done.
  - change (foldl (patch docIDs fromDead) acc (a :: l))
      with (foldl (patch docIDs fromDead) (patch docIDs fromDead acc a) l).
    rewrite IH.
    destruct (decide (j = a)) as [->|Hne].
    + rewrite (bool_decide_eq_true_2 (a ∈ a :: l)) by apply list_elem_of_here.
      unfold patch.
      destruct (fromDead (docIDs !!! a)) as [b|] eqn:Hd.
      * destruct (decide (a < length acc)%nat) as [Ha|Ha].
        -- rewrite list_lookup_insert_eq by done.
           apply lookup_lt_is_Some in Ha as [x Hx].
           rewrite Hx. by case_bool_decide.
        -- rewrite list_insert_ge by lia.
           assert (acc !! a = None) as ->
             by (apply lookup_ge_None_2; lia).
           by case_bool_decide.
      * by case_bool_decide.
    + assert (Hlk : patch docIDs fromDead acc a !! j = acc !! j).
      { unfold patch. destruct (fromDead (docIDs !!! a)); [|done].
        by rewrite list_lookup_insert_ne. }
      rewrite Hlk.
      rewrite (bool_decide_ext (j ∈ a :: l) (j ∈ l)); [done|].
      rewrite elem_of_cons. split; [by intros [?|?]|by right].
Qed.

End WithDocBodies.

(** X6. [withDocBodies] answers each docID from the live sub-store, and
    from the dead one exactly where the live one gave nothing; the
    answers come in the order of the docIDs. *)
Theorem withDocBodies_live_then_dead docIDs callback (s : BothKeyStore.t) :
  BothKeyStore.withDocBodies docIDs callback s
  = (λ id, match r ← liveStore s !! id; callback id r with
           | Some b => Some b
           | None => r ← deadStore s !! id; callback id r
           end) <$> docIDs.
Proof.
  unfold BothKeyStore.withDocBodies.
  set (result := KeyStore.withDocBodies docIDs callback (liveStore s)).
  set (fromDead := λ id : string, r ← deadStore s !! id; callback id r).
  destruct (recheck_loop docIDs result (length docIDs))
    as (idx & Hfold & Hlen & Htake); [done|].
  rewrite Hfold.
  set (n := length docIDs) in *.
  set (dead := KeyStore.withDocBodies _ callback (deadStore s)).
  assert (Hloop : (if (0 <? length (misses result n))%nat
                   then foldl (splice_step dead idx) result
                              (seq 0 (length (misses result n)))
                   else result)
                  = foldl (patch docIDs fromDead) result (misses result n)).
  { destruct (Nat.ltb_spec 0 (length (misses result n))) as [Hk|Hk].
    - apply foldl_seq_lookup. intros acc i Hi.
      assert (Hidx : idx !!! i = misses result n !!! i)
        by (rewrite <- (lookup_total_take_lt idx (length (misses result n)) i)
              by done; by rewrite Htake).
      assert (Hdead : dead !!! i
                      = fromDead (docIDs !!! (misses result n !!! i))).
      { apply list_lookup_total_correct.
        unfold dead, KeyStore.withDocBodies. rewrite !list_lookup_fmap.
        by rewrite (list_lookup_lookup_total_lt (misses result n) i Hi). }
      unfold splice_step, patch. by rewrite Hidx, Hdead.
    - assert (H0 : length (misses result n) = 0%nat) by lia.
      apply nil_length_inv in H0. by rewrite H0. }
  rewrite Hloop. apply list_eq. intros j.
  rewrite foldl_patch_lookup, list_lookup_fmap.
  assert (Hr : result !! j
               = (λ id, r ← liveStore s !! id; callback id r) <$> docIDs !! j)
    by (unfold result, KeyStore.withDocBodies; by rewrite list_lookup_fmap).
  rewrite !Hr.
  destruct (docIDs !! j) as [id|] eqn:Hj; simpl.
  - assert (Hlt : (j < n)%nat) by (by apply lookup_lt_is_Some).
    assert (Hid : docIDs !!! j = id) by (by apply list_lookup_total_correct).
    assert (Hres : result !!! j = (r ← liveStore s !! id; callback id r))
      by (apply list_lookup_total_correct; by rewrite Hr).
    rewrite Hid.
    rewrite (bool_decide_ext (j ∈ misses result n) (result !!! j = None)).
    2:{ unfold misses. rewrite list_elem_of_filter, elem_of_seq.
        split; [by intros [? _]|]. intros ?. split; [done|lia]. }
    rewrite Hres.
    destruct (liveStore s !! id ≫= callback id) as [b|] eqn:Hlive;
      case_bool_decide; try done.
    unfold fromDead. by destruct (deadStore s !! id ≫= callback id).
  - case_bool_decide; [|done]. by destruct (fromDead (docIDs !!! j)).
Qed.

(** *** Tombstones in their own sub-store *)

Lemma isDeleted_rec vers value fl seq :
  isDeleted (mkRec vers value fl seq)
  = match target fl with Live => false | Dead => true end.
Proof.
  unfold isDeleted, target, deleting. simpl.
  by destruct (Z.land fl kDeleted =? 0)%Z.
Qed.

(** X28. Live records and tombstones stay apart: if the live sub-store
    holds no record flagged Deleted and the dead one none but such, this
    is still so after any [set]. *)
Theorem set_keeps_tombstones_apart key vers value fl rs ns s :
  tombstones_apart s →
  tombstones_apart (BothKeyStore.set key vers value fl rs ns s).2.
Proof.
  intros Hinv w k r.
  assert (Hstored : ∀ seq w' (m : gmap string Rec),
            w' = target fl →
            <[key := mkRec vers value fl seq]> m !! k = Some r →
            (∀ r', m !! k = Some r' →
               isDeleted r' = match w' with Live => false | Dead => true end) →
            isDeleted r = match w' with Live => false | Dead => true end).
  { intros seq w' m -> Hr Hm. destruct (decide (k = key)) as [->|Hne].
    - rewrite lookup_insert_eq in Hr. injection Hr as <-.
      apply isDeleted_rec.
    - rewrite lookup_insert_ne in Hr by done. by apply Hm. }
  destruct (set_effect key vers value fl rs ns s)
    as [[-> _]|[(_ & _ & Ht & Ho)|(old & _ & _ & _ & _ & Ht & Ho)]].
  - apply Hinv.
  - destruct (which_cases fl w) as [->| ->].
    + rewrite Ht. intros Hr.
      apply (Hstored _ _ _ eq_refl Hr). intros r'. apply Hinv.
    + destruct Ho as [-> | ->]; [|apply Hinv].
      intros Hr. apply lookup_delete_Some in Hr. destruct Hr as [_ Hr].
      exact (Hinv _ _ _ Hr).
  - destruct (which_cases fl w) as [->| ->].
    + rewrite Ht. intros Hr.
      apply (Hstored _ _ _ eq_refl Hr). intros r'. apply Hinv.
    + rewrite Ho. apply Hinv.
Qed.

Lemma set_keeps_tombstones_apart_witness :
  tombstones_apart (mk ∅ ∅ 0)
  ∧ tombstones_apart
      (BothKeyStore.set "a" "2-bb" "" kDeleted None true (mk ∅ ∅ 0)).2.
Proof.
  assert (H0 : tombstones_apart (mk ∅ ∅ 0))
    by (intros [] k r H; simpl in H; by rewrite lookup_empty in H).
  split; [exact H0|].
  exact (set_keeps_tombstones_apart "a" "2-bb" "" kDeleted None true
           (mk ∅ ∅ 0) H0).
Defined.

Lemma filter_Forall_iff {A} (P Q : A → Prop)
    `{∀ x, Decision (P x)} `{∀ x, Decision (Q x)} (l : list A) :
  Forall (λ x, P x ↔ Q x) l → filter P l = filter Q l.
Proof.
  induction 1 as [|x l Hx _ IH]; [done|].
  rewrite !filter_cons, IH.
  destruct (decide (P x)), (decide (Q x)); tauto.
Qed.

(** X29. No need to filter.  On a store that keeps live records and
    tombstones apart, what [newEnumeratorImpl] hands out for a request
    without [includeDeleted] (the live sub-store's enumerator, told to
    include deleted records) is what the live sub-store would hand out
    for the request as the caller made it; and [recordCount(false)],
    which counts the live sub-store with its deleted records, is the
    number of its records that are not deleted. *)
Theorem live_store_needs_no_filter bySequence since options s :
  tombstones_apart s →
  includeDeleted options = false →
  newEnumeratorImpl bySequence since options s
  = LiveOnly (KeyStore.newEnumeratorImpl bySequence since options
                                         (liveStore s))
  ∧ recordCount false s = KeyStore.recordCount false (liveStore s).
Proof.
  intros Hinv Hinc.
  assert (Hlive : ∀ k r, liveStore s !! k = Some r → isDeleted r = false)
    by (intros k r Hr; exact (Hinv Live k r Hr)).
  split.
  - unfold newEnumeratorImpl. rewrite Hinc. f_equal.
    unfold KeyStore.newEnumeratorImpl.
    cbn [includeDeleted sortOption]. rewrite Hinc.
    rewrite (filter_Forall_iff
               (λ x, (bySequence = false ∨ (since < sequence x.2)%N)
                     ∧ (true = true ∨ isDeleted x.2 = false))
               (λ x, (bySequence = false ∨ (since < sequence x.2)%N)
                     ∧ (false = true ∨ isDeleted x.2 = false))); [done|].
    apply Forall_forall. intros [k r] Hkr.
    apply elem_of_map_to_list in Hkr. apply Hlive in Hkr. simpl. tauto.
  - unfold recordCount, KeyStore.recordCount. f_equal.
    rewrite map_filter_id; [done|]. intros k r Hr. simpl. by eapply Hlive.
Qed.

Lemma live_store_needs_no_filter_witness :
  let s := mk {["b" := mkRec "1-aa" "" 0 1]}
              {["a" := mkRec "2-bb" "" kDeleted 2]} 2 in
  newEnumeratorImpl false 0 (mkOptions false kDescending) s
  = LiveOnly (KeyStore.newEnumeratorImpl false 0
                (mkOptions false kDescending) (liveStore s))
  ∧ recordCount false s = KeyStore.recordCount false (liveStore s).
Proof.
  apply live_store_needs_no_filter; [|reflexivity].
  intros [] k r H; cbn [sub liveStore deadStore] in H;
    apply lookup_singleton_Some in H as [_ <-]; reflexivity.
Defined.

End BothKeyStoreLaws.

(** ** The merged enumerator, by sequence *)

Module BothEnumeratorLaws.
Import KeyStore BothEnumeratorImpl Scenarios BothEnumeratorFacts.

#[local] Instance by_seq_total : Total by_seq.
Proof. intros x y. unfold by_seq. lia. Qed.

Lemma by_seq_order x y : by_seq x y ↔ (order true x y ≤ 0)%Z.
Proof.
  unfold by_seq, order, compare.
  destruct (N.ltb_spec (sequence x.2) (sequence y.2)); [split; lia|].
  destruct (N.ltb_spec (sequence y.2) (sequence x.2)); split; lia.
Qed.

(** What a physical store enumerates by sequence when tombstones are
    included and the order is not descending. *)
Lemma newEnumeratorImpl_by_seq since options st :
  includeDeleted options = true → sortOption options ≠ kDescending →
  newEnumeratorImpl true since options st
  = mkImpl None (merge_sort by_seq
                   (filter (λ x, (since < sequence x.2)%N) (map_to_list st))).
Proof.
  intros Hinc Hsort. unfold newEnumeratorImpl.
  rewrite (list_filter_iff _ (λ x, (since < sequence x.2)%N)).
  - by destruct (sortOption options).
  - intros x. rewrite Hinc. split; [by intros [[?|?] _]|]. auto.
Qed.

Lemma store_S4_at_most_one k : BothKeyStore.at_most_one k store_S4.
Proof.
  unfold BothKeyStore.at_most_one, store_S4.
  cbn [BothKeyStore.liveStore BothKeyStore.deadStore].
  destruct (decide (k = "b")) as [->|Hb]; [by left|].
  destruct (decide (k = "d")) as [->|Hd]; [by left|].
  right. rewrite lookup_insert_ne by done. by apply lookup_singleton_ne.
Qed.

Lemma enumerate_ascending_by_key_witness :
  ∃ l, drain 5 (create false 0 (mkOptions true kUnsorted)
                       (BothKeyStore.liveStore store_S4)
                       (BothKeyStore.deadStore store_S4)) = Ok l
       ∧ Sorted by_key l.
Proof.
  destruct (enumerate_ascending_by_key store_S4 0 (mkOptions true kUnsorted)
              eq_refl ltac:(discriminate) store_S4_at_most_one)
    as (e & He & Hdrain).
  injection He as <-.
  destruct (Hdrain 5%nat ltac:(vm_compute; lia)) as (l & Hl & _ & Hs).
  by exists l.
Defined.

(** X8. Enumerating by sequence.  On a BothKeyStore whose records all carry
    different sequences, an enumeration by sequence with includeDeleted,
    ascending or unsorted, yields the records of both sub-stores that come
    after [since], each exactly once, in ascending sequence order. *)
Theorem enumerate_ascending_by_sequence (s : BothKeyStore.t) since options :
  includeDeleted options = true → sortOption options ≠ kDescending →
  BothKeyStore.sequences_unique s →
  ∃ e, BothKeyStore.newEnumeratorImpl true since options s
       = BothKeyStore.Merged e
    ∧ ∀ fuel,
        (size (BothKeyStore.liveStore s) + size (BothKeyStore.deadStore s)
         < fuel)%nat →
        ∃ l, drain fuel e = Ok l
          ∧ l ≡ₚ filter (λ x, (since < sequence x.2)%N)
                   (map_to_list (BothKeyStore.liveStore s)
                    ++ map_to_list (BothKeyStore.deadStore s))%list
          ∧ Sorted by_seq l.
Proof.
  intros Hinc Hsort Hinv. unfold BothKeyStore.newEnumeratorImpl.
  rewrite Hinc. eexists. split; [reflexivity|]. intros fuel Hfuel.
  set (options' := match sortOption options with
                   | kUnsorted => mkOptions true kAscending
                   | _ => options
                   end).
  assert (Hinc' : includeDeleted options' = true).
  { unfold options'. by destruct (sortOption options). }
  assert (Hsort' : sortOption options' ≠ kDescending).
  { unfold options'. by destruct (sortOption options) eqn:E; rewrite ?E. }
  unfold create. rewrite !newEnumeratorImpl_by_seq by done.
  assert (Hdesc : match sortOption options' with
                  | kDescending => true
                  | _ => false
                  end = false) by (by destruct (sortOption options')).
  rewrite Hdesc.
  set (after := λ x : string * Rec, (since < sequence x.2)%N).
  set (live := merge_sort by_seq
                 (filter after (map_to_list (BothKeyStore.liveStore s)))).
  set (dead := merge_sort by_seq
                 (filter after (map_to_list (BothKeyStore.deadStore s)))).
  assert (Hlive : live ≡ₚ filter after (map_to_list (BothKeyStore.liveStore s)))
    by apply merge_sort_Permutation.
  assert (Hdead : dead ≡ₚ filter after (map_to_list (BothKeyStore.deadStore s)))
    by apply merge_sort_Permutation.
  exists (merge_live_dead true live dead). split; [|split].
  - apply merged_ascending_is_merge.
    rewrite Hlive, Hdead.
    pose proof (length_filter after (map_to_list (BothKeyStore.liveStore s))).
    pose proof (length_filter after (map_to_list (BothKeyStore.deadStore s))).
    rewrite !length_map_to_list in *. lia.
  - rewrite merge_live_dead_Permutation; [by rewrite filter_app, Hlive, Hdead|].
    intros x y Hx Hy Hzero.
    rewrite Hlive in Hx. rewrite Hdead in Hy.
    apply list_elem_of_filter in Hx as [_ Hx], Hy as [_ Hy].
    destruct x as [kx rx], y as [ky ry].
    apply elem_of_map_to_list in Hx, Hy.
    unfold order, compare in Hzero. simpl in Hzero.
    destruct (N.ltb_spec (sequence rx) (sequence ry)); [done|].
    destruct (N.ltb_spec (sequence ry) (sequence rx)); [done|].
    assert (Heq : sequence rx = sequence ry) by lia.
    by destruct (Hinv Live kx rx Dead ky ry Hx Hy Heq).
  - apply (Sorted_iff (λ a b, (order true a b ≤ 0)%Z)).
    + intros x y. symmetry. apply by_seq_order.
    + apply merge_live_dead_Sorted;
        (eapply Sorted_iff; [apply by_seq_order|]);
        apply (Sorted_merge_sort by_seq).
Qed.

Lemma store_S4_sequences_unique : BothKeyStore.sequences_unique store_S4.
Proof.
  intros w1 k1 r1 w2 k2 r2 H1 H2 Heq.
  assert (Hall : ∀ w k r, BothKeyStore.sub w store_S4 !! k = Some r →
            (w, k, sequence r) ∈ [(Live, "a", 10%N); (Live, "c", 30%N);
                                   (Dead, "b", 20%N); (Dead, "d", 40%N)]).
  { intros [] k r; unfold store_S4;
      cbn [BothKeyStore.sub BothKeyStore.liveStore BothKeyStore.deadStore];
      intros H;
      (apply lookup_insert_Some in H as [[<- <-]|[_ H]];
         [|apply lookup_singleton_Some in H as [<- <-]]);
      set_solver. }
  apply Hall in H1, H2. rewrite Heq in H1.
  set_unfold. destruct_or!; simplify_eq; try done; congruence.
Qed.

Lemma enumerate_ascending_by_sequence_witness :
  ∃ l, drain 5 (create true 10 (mkOptions true kAscending)
                       (BothKeyStore.liveStore store_S4)
                       (BothKeyStore.deadStore store_S4)) = Ok l
       ∧ Sorted by_seq l.
Proof.
  destruct (enumerate_ascending_by_sequence store_S4 10
              (mkOptions true kAscending)
              eq_refl ltac:(discriminate) store_S4_sequences_unique)
    as (e & He & Hdrain).
  injection He as <-.
  destruct (Hdrain 5%nat ltac:(vm_compute; lia)) as (l & Hl & _ & Hs).
  by exists l.
Defined.

End BothEnumeratorLaws.

(** ** The query enumerator: playing back and seeking *)

Module SQLiteQueryLaws.
Import SQLiteQuery Scenarios SQLiteQueryFacts.

Lemma encodeRow_missing_bitmap_low_witness :
  ∃ vs m,
    encodeRow (λ _, None) plain_query [SQLITE_NULL; SQLITE_INTEGER 7]
    = Ok [VArray vs; VUInt m]
    ∧ Z.testbit m 0 = true ∧ Z.testbit m 1 = false.
Proof.
  destruct (encodeRow_missing_bitmap_low (λ _, None) plain_query
              [SQLITE_NULL; SQLITE_INTEGER 7]
              [VArray [VNull; VInt 7]; VUInt 1])
    as (vs & m & Heq & Hbits).
  - intros [|[|k]]; simpl; intros H; (lia || discriminate H).
  - reflexivity.
  - exists vs, m. injection Heq as <- <-.
    split; [reflexivity|]. split; reflexivity.
Defined.

(** *** One step of the iteration, by the state it starts in *)

Section Steps.
Variable ftd : string → option Value.
Variable fd : list Value → string.
Variables (q : Query) (opts : Options) (b : gmap string Binding)
  (u : gset string) (seq : N) (rc cr : Z) (obs : bool).

(** Inside a recording. *)
Lemma next_playing st p nx old :
  (_iter p + 2 < Playback_count p)%Z →
  next ftd fd (mkEnumerator q opts st b u seq rc cr (Some p) nx old obs)
  = (Ok true,
     mkEnumerator q opts st b u seq rc (sint64 (cr + 1))
       (Some (mkPlayback (_recording p) (_iter p + 2) (_firstRow p)))
       nx old obs).
Proof.
  intros Hin. unfold next, Playback_next. simpl.
  destruct (Z.ltb_spec (_iter p + 2) (Playback_count p)); [|lia]. reflexivity.
Qed.

(** On to the recording queued as next. *)
Lemma next_queued st n old :
  next ftd fd (mkEnumerator q opts st b u seq rc cr None (Some n) old obs)
  = (Ok true,
     mkEnumerator q opts st b u seq rc (sint64 (cr + 1)) (Some n) None old
                  obs).
Proof. reflexivity. Qed.

(** At the end of the last recording of a buffered enumerator. *)
Lemma next_at_end p old :
  oneShot opts = false →
  (Playback_count p ≤ _iter p + 2)%Z →
  next ftd fd (mkEnumerator q opts None b u seq rc cr (Some p) None old obs)
  = (Ok false,
     mkEnumerator q opts None b u seq rc cr None None
       (Some (mkPlayback (_recording p) (_iter p + 2) (_firstRow p))) obs).
Proof.
  intros Hone Hout. unfold next, Playback_next. simpl.
  destruct (Z.ltb_spec (_iter p + 2) (Playback_count p)); [lia|].
  simpl. rewrite Hone. reflexivity.
Qed.

(** With nothing recorded and nothing left to record. *)
Lemma next_nothing old :
  next ftd fd (mkEnumerator q opts None b u seq rc cr None None old obs)
  = (Ok false,
     mkEnumerator q opts None b u seq rc cr None None
       (if oneShot opts then old else None) obs).
Proof. unfold next. simpl. by destruct (oneShot opts). Qed.

End Steps.

(** *** A recording read back *)

Lemma recorded_length pairs :
  length (recorded pairs) = (2 * length pairs)%nat.
Proof.
  unfold recorded. induction pairs as [|pr pairs IH]; [done|].
  rewrite bind_cons, length_app, IH. simpl. lia.
Qed.

Lemma recorded_lookup pairs : ∀ k,
  recorded pairs !! (2 * k)%nat = (λ pr, VArray pr.1) <$> pairs !! k
  ∧ recorded pairs !! S (2 * k) = (λ pr, VUInt pr.2) <$> pairs !! k.
Proof.
  unfold recorded. induction pairs as [|pr pairs IH]; intros [|k]; try done.
  replace (2 * S k)%nat with (S (S (2 * k))) by lia.
  rewrite bind_cons. apply IH.
Qed.

(** The loop of [encodeRows] as a whole: when it ends well, every row has
    been encoded and its two items appended, in order. *)
Lemma encodeRows_loop_items ftd rows : ∀ fuel maxRows numRows arr e r e',
  _statement e = Some rows →
  (length rows < fuel)%nat →
  (0 ≤ numRows)%Z →
  (numRows + Z.of_nat (length rows) < uint64 maxRows)%Z →
  (uint64 maxRows ≤ 2 ^ 63)%Z →
  (0 ≤ _rowCount e)%Z →
  (_rowCount e + Z.of_nat (length rows) < 2 ^ 63)%Z →
  encodeRows_loop ftd fuel maxRows numRows arr e = (Ok r, e') →
  ∃ pairs,
    Forall2 (λ row pr, encodeColumns ftd (_query e) 0 row 0 = Ok pr)
            rows pairs
    ∧ r.1 = (arr ++ recorded pairs)%list.
Proof.
  induction rows as [|row rest IH];
    intros fuel maxRows numRows arr e r e' Hst Hfuel Hn Hmax Hmax' Hrc Hrc' H;
    (destruct fuel as [|fuel]; [simpl in Hfuel; lia|]);
    cbn [encodeRows_loop] in H; simpl length in *.
  - destruct (Z.ltb_spec numRows (uint64 maxRows)); [|lia].
    unfold stepStatement in H. rewrite Hst in H. simplify_eq.
    exists []. split; [constructor|]. simpl. by rewrite app_nil_r.
  - destruct (Z.ltb_spec numRows (uint64 maxRows)); [|lia].
    unfold stepStatement in H. rewrite Hst in H.
    destruct (encodeRow ftd _ row) as [items|] eqn:Hrow; [|done].
    rewrite (uint64_small (_rowCount e + 1)) in H by lia.
    rewrite (uint64_small (numRows + 1)) in H by lia.
    apply IH in H; simpl; try lia; try done.
    destruct H as (pairs & Hall & ->).
    unfold encodeRow in Hrow.
    destruct (encodeColumns ftd (_query e) 0 row 0) as [[vs m]|] eqn:Hcols;
      [|done].
    simpl in Hrow. injection Hrow as <-.
    exists ((vs, m) :: pairs). split; [by constructor|].
    unfold recorded. by rewrite bind_cons, <- app_assoc.
Qed.

#[local] Arguments encodeRows_loop : simpl never.

(** A buffered enumerator as its constructor leaves it: the statement
    released, every row counted and recorded in one recording queued as
    next (none for an empty result set). *)
Lemma create_buffered_state ftd fd conv asDict q opts seq rows e :
  oneShot opts = false →
  (Z.of_nat (length rows) < 2 ^ 62)%Z →
  create ftd fd conv asDict q opts seq rows = Ok e →
  ∃ pairs b u,
    Forall2 (λ row pr, encodeColumns ftd q 0 row 0 = Ok pr) rows pairs
    ∧ e = mkEnumerator q opts None b u seq (Z.of_nat (length rows)) (-1)
            None
            (match rows with
             | [] => None
             | _ => Some (mkPlayback
                            (mkDoc (recorded pairs) (fd (recorded pairs)))
                            0 0)
             end)
            None false.
Proof.
  intros Hone Hlen. unfold create. rewrite Hone.
  set (e0 := mkEnumerator q opts (Some rows) ∅ (_parameters q) seq 0 (-1)
                          None None None false).
  intros H.
  assert (∃ u b, (match paramBindings opts with
                  | Some json => bindParameters conv asDict json e0
                  | None => Ok e0
                  end) = Ok (set_binding u b e0)) as (u & b & Hb).
  { destruct (paramBindings opts) as [json|].
    - destruct (bindParameters conv asDict json e0) as [e1|] eqn:Hbind;
        [|done].
      destruct (bindParameters_fields _ _ _ _ _ Hbind) as (u & b & ->). eauto.
    - exists (_parameters q), ∅. reflexivity. }
  rewrite Hb in H. simpl in H. clear Hb.
  unfold fastForward, recordRows, encodeRows in H. simpl in H.
  destruct (encodeRows_loop ftd (S (length rows)) INT64_MAX 0 []
              (set_binding u b e0)) as [[[arr numRows]|x] e1] eqn:Hloop;
    [|done].
  assert (Hmax : uint64 INT64_MAX = (2 ^ 63 - 1)%Z) by (vm_compute; reflexivity).
  pose proof Hloop as Hitems.
  apply encodeRows_loop_all with (rows := rows) in Hloop;
    [ | reflexivity | lia | lia | rewrite Hmax; lia | rewrite Hmax; lia
      | unfold e0; simpl; lia | unfold e0; simpl; lia ].
  apply encodeRows_loop_items with (rows := rows) in Hitems;
    [ | reflexivity | lia | lia | rewrite Hmax; lia | rewrite Hmax; lia
      | unfold e0; simpl; lia | unfold e0; simpl; lia ].
  destruct Hitems as (pairs & Hall & Harr'). simpl in Hall, Harr'.
  subst arr.
  simpl in Hloop. destruct Hloop as (-> & -> & Harr).
  rewrite !Z.add_0_l in H. rewrite sint64_small in H by lia.
  exists pairs, b, u. split; [done|].
  destruct (Z.eqb_spec (Z.of_nat (length rows)) 0) as [Hz|Hnz];
    simpl in H; simplify_eq; simpl.
  - destruct rows; [done|simpl in Hz; lia].
  - destruct rows; [done|]. reflexivity.
Qed.

(** *** Playing a buffered recording back *)

Section Playing.
Variable ftd : string → option Value.
Variable fd : list Value → string.
Variables (q : Query) (opts : Options) (b : gmap string Binding)
  (u : gset string) (seq : N) (rc : Z) (old : option Playback).
Variable pairs : list (list Value * Z).
Variable dat : string.
Hypothesis Hone : oneShot opts = false.
Hypothesis Hsmall : (Z.of_nat (length pairs) < 2 ^ 62)%Z.

Local Notation "'standing' k" :=
  (at_row q opts b u seq rc old pairs dat k) (at level 10, only parsing).

Lemma columns_at_row k pr :
  pairs !! k = Some pr →
  columns (standing k) = Ok (shown q pr).1
  ∧ missingColumns (standing k) = Ok pr.2.
Proof.
  intros Hk. destruct (recorded_lookup pairs k) as [H0 H1].
  unfold columns, missingColumns, Playback_columns, Playback_missingColumns,
    at_row.
  cbn [_curEnumerator _recording _iter asArray _query].
  rewrite Nat2Z.id.
  replace (Z.to_nat (Z.of_nat (2 * k) + 1)) with (S (2 * k)) by lia.
  by rewrite H0, H1, Hk.
Qed.

Lemma collect_at_row : ∀ fuel k,
  (k < length pairs)%nat → (length pairs - k ≤ fuel)%nat →
  collect ftd fd fuel (standing k) = Ok (shown q <$> drop (S k) pairs).
Proof.
  induction fuel as [|fuel IH]; intros k Hk Hfuel; [lia|].
  cbn [collect]. destruct (decide (S k < length pairs)%nat) as [Hin|Hout].
  - unfold at_row at 1. rewrite next_playing
      by (unfold Playback_count; simpl; rewrite recorded_length; lia).
    cbn [_recording _iter _firstRow].
    rewrite sint64_small by lia.
    replace (Z.of_nat k + 1)%Z with (Z.of_nat (S k)) by lia.
    replace (Z.of_nat (2 * k) + 2)%Z with (Z.of_nat (2 * S k)) by lia.
    fold (standing (S k)).
    destruct (lookup_lt_is_Some_2 pairs (S k) Hin) as [pr Hpr].
    destruct (columns_at_row (S k) pr Hpr) as [-> ->].
    rewrite IH by lia.
    by rewrite (drop_S pairs pr (S k) Hpr).
  - unfold at_row. rewrite next_at_end
      by (done || unfold Playback_count; simpl; rewrite recorded_length; lia).
    by rewrite drop_ge by lia.
Qed.

End Playing.

(** X9. Record and play back.  A buffered enumerator that was constructed
    well hands a caller who loops over [next] every row of the result
    set, once and in order: the columns as [encodeRow] rendered them,
    from the first custom result column on, with the row's bit-map of
    missing columns; after the last row [next] returns false. *)
Theorem buffered_enumerator_plays_back_every_row
    ftd fd conv asDict q opts seq rows e fuel :
  oneShot opts = false →
  (Z.of_nat (length rows) < 2 ^ 62)%Z →
  create ftd fd conv asDict q opts seq rows = Ok e →
  (length rows < fuel)%nat →
  ∃ recs, collect ftd fd fuel e = Ok recs
    ∧ Forall2 (λ row rec, readRow ftd q row = Ok rec) rows recs.
Proof.
  intros Hone Hlen Hcreate Hfuel.
  destruct (create_buffered_state _ _ _ _ _ _ _ _ _ Hone Hlen Hcreate)
    as (pairs & b & u & Hall & ->).
  pose proof (Forall2_length _ _ _ Hall) as Hn.
  exists (shown q <$> pairs).
  split.
  - destruct fuel as [|fuel]; [lia|]. cbn [collect].
    destruct rows as [|row rows].
    + apply Forall2_nil_inv_l in Hall as ->.
      by rewrite next_nothing.
    + rewrite next_queued. change (sint64 (-1 + 1)) with 0%Z.
      destruct pairs as [|pr pairs]; [by apply Forall2_nil_inv_r in Hall|].
      set (n := Z.of_nat (length (row :: rows))).
      set (dat := fd (recorded (pr :: pairs))).
      change (mkEnumerator q opts None b u seq n 0 _ None None false)
        with (at_row q opts b u seq n None (pr :: pairs) dat 0).
      destruct (columns_at_row q opts b u seq n None (pr :: pairs) dat
                  0 pr eq_refl) as [-> ->].
      rewrite (collect_at_row ftd fd q opts b u seq n None (pr :: pairs) dat
                 Hone);
        [done|rewrite <- Hn; done|simpl; lia|rewrite <- Hn; simpl in *; lia].
  - apply Forall2_fmap_r. eapply Forall2_impl; [exact Hall|].
    intros row [vs m] Hrow. unfold readRow. by rewrite Hrow.
Qed.

Lemma buffered_enumerator_plays_back_every_row_witness :
  match sample_create 5 rows_two with
  | Ok e => ∃ recs, collect (λ _, None) sample_finishDoc 3 e = Ok recs
              ∧ Forall2 (λ row rec, readRow (λ _, None) plain_query row
                                    = Ok rec) rows_two recs
  | Throw _ => False
  end.
Proof.
  destruct (sample_create 5 rows_two) as [e|x] eqn:H.
  - unfold sample_create in H.
    apply (buffered_enumerator_plays_back_every_row
             (λ _, None) sample_finishDoc id (λ _, None) plain_query
             (mkOptions false None) 5 rows_two e 3).
    + reflexivity.
    + vm_compute. reflexivity.
    + exact H.
    + simpl. lia.
  - vm_compute in H. discriminate H.
Defined.

(** *** Seeking in a buffered enumerator *)

Section Seeking.
Variable ftd : string → option Value.
Variable fd : list Value → string.
Variables (q : Query) (opts : Options) (b : gmap string Binding)
  (u : gset string) (seq : N) (rc : Z).
Variable pairs : list (list Value * Z).
Variable dat : string.
Hypothesis Hsmall : (Z.of_nat (length pairs) < 2 ^ 31)%Z.

(** The buffered enumerator at row [i], or before the first row. *)
Local Notation "'state_at' i" :=
  (if (i =? -1)%Z
   then mkEnumerator q opts None b u seq rc (-1) None
          (match pairs with
           | [] => None
           | _ => Some (mkPlayback (mkDoc (recorded pairs) dat) 0 0)
           end) None false
   else at_row q opts b u seq rc None pairs dat (Z.to_nat i))
  (at level 10, only parsing).

Lemma seek_state_at i j :
  (-1 ≤ i < Z.of_nat (length pairs))%Z →
  (-1 ≤ j < Z.of_nat (length pairs))%Z →
  seek ftd fd i (state_at j) = (Ok (), state_at i).
Proof.
  intros Hi Hj.
  assert (Hcount : ∀ it fr,
            Playback_count (mkPlayback (mkDoc (recorded pairs) dat) it fr)
            = (2 * Z.of_nat (length pairs))%Z).
  { intros. unfold Playback_count. simpl. rewrite recorded_length. lia. }
  destruct (Z.eqb_spec j (-1)) as [->|Hj'].
  - (* before the first row *)
    destruct (Z.eqb_spec i (-1)) as [->|Hi']; [reflexivity|].
    unfold seek. simpl.
    destruct (Z.eqb_spec i (-1)); [done|].
    destruct (Z.ltb_spec i (-1)); [lia|].
    assert (Hnx : match pairs with
                  | [] => None
                  | _ => Some (mkPlayback (mkDoc (recorded pairs) dat) 0 0)
                  end
                  = Some (mkPlayback (mkDoc (recorded pairs) dat) 0 0))
      by (destruct pairs; [simpl in Hi; lia|done]).
    rewrite Hnx. unfold Playback_seek. rewrite Hcount. simpl.
    rewrite Z.sub_0_r, (sint64_small i), (sint64_small (i * 2)) by lia.
    destruct (Z.ltb_spec i 0); [lia|].
    destruct (Z.leb_spec (2 * Z.of_nat (length pairs)) (i * 2)); [lia|].
    unfold at_row, uint32.
    rewrite Z.mod_small by lia.
    replace (Z.of_nat (Z.to_nat i)) with i by lia.
    by replace (Z.of_nat (2 * Z.to_nat i)) with (i * 2)%Z by lia.
  - unfold at_row at 1. unfold seek. simpl.
    destruct (Z.eqb_spec i (Z.of_nat (Z.to_nat j))) as [Heq|Hne].
    + destruct (Z.eqb_spec i (-1)); [lia|]. unfold at_row.
      by replace (Z.to_nat i) with (Z.to_nat j) by lia.
    + unfold Playback_seek. rewrite Hcount. simpl.
      rewrite Z.sub_0_r.
      destruct (Z.eqb_spec i (-1)) as [->|Hi'].
      * change (sint64 (-1)) with (-1)%Z. simpl.
        destruct (Z.ltb_spec (-1) (Z.of_nat (Z.to_nat j))); [|lia].
        change (sint64 (-1 + 1) =? sint64 0)%Z with true. simpl.
        change (sint64 0) with 0%Z. change (sint64 (0 - 0)) with 0%Z. simpl.
        change (sint64 0) with 0%Z.
        destruct (Z.leb_spec (2 * Z.of_nat (length pairs)) 0); [lia|].
        simpl. f_equal. f_equal. destruct pairs; [simpl in Hj; lia|done].
      * rewrite (sint64_small i), (sint64_small (i * 2)) by lia.
        destruct (Z.ltb_spec i 0); [lia|].
        destruct (Z.leb_spec (2 * Z.of_nat (length pairs)) (i * 2)); [lia|].
        simpl. unfold at_row, uint32. rewrite Z.mod_small by lia.
        replace (Z.of_nat (Z.to_nat i)) with i by lia.
        by replace (Z.of_nat (2 * Z.to_nat i)) with (i * 2)%Z by lia.
Qed.

Lemma seeks_state_at idxs : ∀ j,
  Forall (λ i, (-1 ≤ i < Z.of_nat (length pairs))%Z) idxs →
  (-1 ≤ j < Z.of_nat (length pairs))%Z →
  seeks ftd fd idxs (state_at j) = (Ok (), state_at (default j (last idxs))).
Proof.
  induction idxs as [|i idxs IH]; intros j Hall Hj; [done|].
  apply Forall_cons in Hall as [Hi Hall].
  cbn [seeks]. rewrite seek_state_at by done. rewrite IH by done.
  rewrite last_cons. by destruct (last idxs).
Qed.

Lemma curRow_state_at i : (-1 ≤ i)%Z → _curRow (state_at i) = i.
Proof.
  intros Hi. destruct (Z.eqb_spec i (-1)) as [->|Hne]; [done|].
  unfold at_row. simpl. lia.
Qed.

Lemma columns_state_at i pr :
  (0 ≤ i)%Z → pairs !! Z.to_nat i = Some pr →
  columns (state_at i) = Ok (shown q pr).1
  ∧ missingColumns (state_at i) = Ok pr.2.
Proof.
  intros Hi Hpr. destruct (Z.eqb_spec i (-1)) as [->|Hne]; [lia|].
  by apply columns_at_row.
Qed.

Lemma collect_state_at i fuel :
  oneShot opts = false →
  (-1 ≤ i < Z.of_nat (length pairs))%Z ∨ (i = -1)%Z →
  (length pairs < fuel)%nat →
  collect ftd fd fuel (state_at i)
  = Ok (shown q <$> drop (Z.to_nat (i + 1)) pairs).
Proof.
  intros Hone Hi Hfuel. destruct (Z.eqb_spec i (-1)) as [->|Hne].
  - destruct fuel as [|fuel]; [lia|]. cbn [collect].
    destruct (pairs !! 0%nat) as [pr|] eqn:H0.
    + assert (Hnx : match pairs with
                    | [] => None
                    | _ => Some (mkPlayback (mkDoc (recorded pairs) dat) 0 0)
                    end
                    = Some (mkPlayback (mkDoc (recorded pairs) dat) 0 0))
        by (by destruct pairs).
      rewrite Hnx, next_queued. change (sint64 (-1 + 1)) with 0%Z.
      change (mkEnumerator q opts None b u seq rc 0 _ None None false)
        with (at_row q opts b u seq rc None pairs dat 0).
      destruct (columns_at_row q opts b u seq rc None pairs dat 0 pr H0)
        as [-> ->].
      apply lookup_lt_Some in H0 as Hlen.
      rewrite (collect_at_row ftd fd q opts b u seq rc None pairs dat Hone);
        [|lia|lia|lia].
      change (Z.to_nat (-1 + 1)) with 0%nat.
      by rewrite (drop_S pairs pr 0 H0).
    + assert (Hnil : pairs = []) by (by destruct pairs).
      rewrite Hnil. by rewrite next_nothing.
  - rewrite (collect_at_row ftd fd q opts b u seq rc None pairs dat Hone);
      [|lia|lia|lia].
    by replace (Z.to_nat (i + 1)) with (S (Z.to_nat i)) by lia.
Qed.

End Seeking.

(** X10. Random access.  On a buffered enumerator that was constructed
    well, any sequence of seeks to rows of the result set, or to -1
    (before the first row), succeeds; it leaves the enumerator on the row
    last sought, whose columns and bit-map can then be read, and a caller
    who goes on looping over [next] gets the rows after it, each once and
    in order. *)
Theorem buffered_enumerator_seeks_anywhere
    ftd fd conv asDict q opts seq rows e idxs fuel :
  oneShot opts = false →
  (Z.of_nat (length rows) < 2 ^ 31)%Z →
  create ftd fd conv asDict q opts seq rows = Ok e →
  Forall (λ i, (-1 ≤ i < Z.of_nat (length rows))%Z) idxs →
  (length rows < fuel)%nat →
  ∃ e', seeks ftd fd idxs e = (Ok (), e')
    ∧ _curRow e' = default (-1)%Z (last idxs)
    ∧ (∀ row, (0 ≤ _curRow e')%Z →
         rows !! Z.to_nat (_curRow e') = Some row →
         ∃ rec, readRow ftd q row = Ok rec
           ∧ columns e' = Ok rec.1 ∧ missingColumns e' = Ok rec.2)
    ∧ ∃ recs, collect ftd fd fuel e' = Ok recs
        ∧ Forall2 (λ row rec, readRow ftd q row = Ok rec)
                  (drop (Z.to_nat (_curRow e' + 1)) rows) recs.
Proof.
  intros Hone Hlen Hcreate Hidx Hfuel.
  assert (Hlen' : (Z.of_nat (length rows) < 2 ^ 62)%Z) by lia.
  destruct (create_buffered_state _ _ _ _ _ _ _ _ _ Hone Hlen' Hcreate)
    as (pairs & b & u & Hall & ->).
  pose proof (Forall2_length _ _ _ Hall) as Hn.
  set (n := Z.of_nat (length rows)) in *.
  set (dat := fd (recorded pairs)).
  assert (Hread : ∀ row pr, encodeColumns ftd q 0 row 0 = Ok pr →
                    readRow ftd q row = Ok (shown q pr)).
  { intros row [vs m] Hrow. unfold readRow. by rewrite Hrow. }
  set (j := default (-1)%Z (last idxs)).
  assert (Hj : (-1 ≤ j < n)%Z ∨ j = (-1)%Z).
  { unfold j. destruct (last idxs) as [i|] eqn:Hlast; [left|by right].
    apply last_Some_elem_of in Hlast. simpl.
    by apply (proj1 (Forall_forall _ _) Hidx). }
  assert (He : mkEnumerator q opts None b u seq n (-1) None
                 (match rows with
                  | [] => None
                  | _ => Some (mkPlayback (mkDoc (recorded pairs) dat) 0 0)
                  end) None false
               = (if (-1 =? -1)%Z
                  then mkEnumerator q opts None b u seq n (-1) None
                         (match pairs with
                          | [] => None
                          | _ => Some (mkPlayback
                                         (mkDoc (recorded pairs) dat) 0 0)
                          end) None false
                  else at_row q opts b u seq n None pairs dat
                         (Z.to_nat (-1)))).
  { change (-1 =? -1)%Z with true. cbv iota.
    by destruct Hall. }
  rewrite He. clear He.
  assert (Hsmall : (Z.of_nat (length pairs) < 2 ^ 31)%Z) by lia.
  assert (Hidx' : Forall (λ i, (-1 ≤ i < Z.of_nat (length pairs))%Z) idxs).
  { eapply Forall_impl; [exact Hidx|]. simpl. intros. lia. }
  exists (if (j =? -1)%Z
          then mkEnumerator q opts None b u seq n (-1) None
                 (match pairs with
                  | [] => None
                  | _ => Some (mkPlayback (mkDoc (recorded pairs) dat) 0 0)
                  end) None false
          else at_row q opts b u seq n None pairs dat (Z.to_nat j)).
  split; [|split; [|split]].
  - apply (seeks_state_at ftd fd q opts b u seq n pairs dat Hsmall idxs (-1));
      [done|lia].
  - apply curRow_state_at. destruct Hj as [?|?]; lia.
  - rewrite (curRow_state_at q opts b u seq n pairs dat j)
      by (destruct Hj; lia).
    intros row Hpos Hrow.
    destruct (Forall2_lookup_l _ _ _ _ _ Hall Hrow) as (pr & Hpr & Henc).
    exists (shown q pr). split; [by apply Hread|].
    destruct (columns_state_at q opts b u seq n pairs dat j pr Hpos Hpr)
      as [Hc Hm].
    split; [exact Hc|exact Hm].
  - rewrite (curRow_state_at q opts b u seq n pairs dat j)
      by (destruct Hj; lia).
    exists (shown q <$> drop (Z.to_nat (j + 1)) pairs). split.
    + apply collect_state_at; [done|done| |lia].
      destruct Hj; [left|right]; lia.
    + apply Forall2_fmap_r, Forall2_drop.
      eapply Forall2_impl; [exact Hall|]. intros row pr. apply Hread.
Qed.

Lemma buffered_enumerator_seeks_anywhere_witness :
  match sample_create 5 rows_two with
  | Ok e =>
      ∃ e', seeks (λ _, None) sample_finishDoc [1; -1; 0]%Z e = (Ok (), e')
        ∧ _curRow e' = 0%Z
  | Throw _ => False
  end.
Proof.
  destruct (sample_create 5 rows_two) as [e|x] eqn:H.
  - unfold sample_create in H.
    destruct (buffered_enumerator_seeks_anywhere
                (λ _, None) sample_finishDoc id (λ _, None) plain_query
                (mkOptions false None) 5 rows_two e [1; -1; 0]%Z 3)
      as (e' & Hseeks & Hrow & _).
    + reflexivity.
    + vm_compute. reflexivity.
    + exact H.
    + repeat constructor; simpl; lia.
    + simpl. lia.
    + by exists e'.
  - vm_compute in H. discriminate H.
Defined.

End SQLiteQueryLaws.

(** ** The query enumerator: one page after another *)

Module PagingLaws.
Import SQLiteQuery Scenarios SQLiteQueryFacts SQLiteQueryLaws.

Lemma set_statement_same e st :
  _statement e = st →
  set_statement st (_rowCount e) (_observingTransaction e) e = e.
Proof. destruct e. simpl. by intros ->. Qed.

(** The loop of [encodeRows] on rows that all encode: it takes the rows
    there is room for, and releases the statement if it steps past the
    last one. *)
Lemma encodeRows_loop_page ftd q : ∀ rest prs fuel maxRows numRows arr e,
  _statement e = Some rest → _query e = q →
  Forall2 (λ row pr, encodeColumns ftd q 0 row 0 = Ok pr) rest prs →
  (length rest < fuel)%nat →
  (0 ≤ numRows ≤ uint64 maxRows)%Z → (uint64 maxRows ≤ 2 ^ 63)%Z →
  (0 ≤ _rowCount e)%Z →
  (_rowCount e + Z.of_nat (length rest) < 2 ^ 63)%Z →
  let room := Z.to_nat (uint64 maxRows - numRows) in
  let m := (room `min` length rest)%nat in
  encodeRows_loop ftd fuel maxRows numRows arr e
  = (Ok ((arr ++ recorded (take m prs))%list, (numRows + Z.of_nat m)%Z),
     if (length rest <? room)%nat
     then set_statement None (_rowCount e + Z.of_nat (length rest)) false e
     else set_statement (Some (drop m rest)) (_rowCount e + Z.of_nat m)
                        (_observingTransaction e) e).
Proof.
  induction rest as [|row rest IH];
    intros prs fuel maxRows numRows arr e Hst Hq Hall Hfuel Hn Hmax Hrc Hrc';
    (destruct fuel as [|fuel]; [simpl in Hfuel; lia|]);
    cbn [encodeRows_loop]; cbv zeta; simpl length in *.
  - apply Forall2_nil_inv_l in Hall as ->.
    rewrite Nat.min_0_r, Z.add_0_r. cbn [take recorded]. 
    unfold recorded. cbn [mbind list_bind]. rewrite app_nil_r.
    destruct (Z.ltb_spec numRows (uint64 maxRows)) as [Hlt|Hge].
    + unfold stepStatement. rewrite Hst.
      destruct (Nat.ltb_spec 0 (Z.to_nat (uint64 maxRows - numRows)));
        [|lia].
      by rewrite Z.add_0_r.
    + destruct (Nat.ltb_spec 0 (Z.to_nat (uint64 maxRows - numRows)));
        [lia|].
      by rewrite Z.add_0_r, set_statement_same.
  - apply Forall2_cons_inv_l in Hall as (pr & prs' & Hrow & Hall & ->).
    destruct (Z.ltb_spec numRows (uint64 maxRows)) as [Hlt|Hge].
    + unfold stepStatement. rewrite Hst. unfold encodeRow.
      rewrite Hq, Hrow. destruct pr as [vs mc]. cbn [mbind result_bind].
      rewrite (uint64_small (_rowCount e + 1)) by lia.
      rewrite (uint64_small (numRows + 1)) by lia.
      rewrite (IH prs') by (done || cbn; lia).
      cbn [_rowCount _observingTransaction set_statement].
      replace (Z.to_nat (uint64 maxRows - numRows))
        with (S (Z.to_nat (uint64 maxRows - (numRows + 1)))) by lia.
      cbn [Nat.min take drop].
      assert (Hltb : ∀ a b : nat, (S a <? S b)%nat = (a <? b)%nat)
        by (intros; done).
      rewrite Hltb.
      f_equal.
      * f_equal. f_equal; [|lia].
        rewrite <- app_assoc. f_equal.
      * destruct (_ <? _)%nat; unfold set_statement; cbn; f_equal; lia.
    + replace (Z.to_nat (uint64 maxRows - numRows)) with 0%nat by lia.
      cbn [Nat.min take drop Nat.ltb Nat.leb].
      unfold recorded. cbn [mbind list_bind].
      by rewrite app_nil_r, !Z.add_0_r, set_statement_same.
Qed.

(** [recordRows] on a live statement whose rows all encode. *)
Lemma recordRows_page ftd fd q rest prs maxRows e :
  _statement e = Some rest → _query e = q →
  Forall2 (λ row pr, encodeColumns ftd q 0 row 0 = Ok pr) rest prs →
  (0 ≤ uint64 maxRows < 2 ^ 63)%Z →
  (0 ≤ _rowCount e)%Z →
  (_rowCount e + Z.of_nat (length rest) < 2 ^ 63)%Z →
  let room := Z.to_nat (uint64 maxRows) in
  let m := (room `min` length rest)%nat in
  recordRows ftd fd maxRows e
  = (Ok (match m with
         | O => None
         | _ => Some (mkPlayback
                        (mkDoc (recorded (take m prs))
                               (fd (recorded (take m prs))))
                        0 (_rowCount e))
         end),
     if (length rest <? room)%nat
     then set_statement None (_rowCount e + Z.of_nat (length rest)) false e
     else set_statement (Some (drop m rest)) (_rowCount e + Z.of_nat m)
                        (_observingTransaction e) e).
Proof.
  intros Hst Hq Hall Hmax Hrc Hrc' room m.
  unfold recordRows, encodeRows. rewrite Hst. cbv zeta. cbn [default].
  unfold id.
  rewrite (encodeRows_loop_page ftd q rest prs (S (length rest)) maxRows 0 []
             e Hst Hq Hall ltac:(lia) ltac:(lia) ltac:(lia) Hrc Hrc').
  rewrite Z.sub_0_r, Z.add_0_l. fold room. fold m. cbn [app].
  rewrite sint64_small by lia.
  destruct m as [|m'] eqn:Hm; [done|].
  by destruct (Z.eqb_spec (Z.of_nat (S m')) 0); [lia|].
Qed.

(** [fastForward] on a live statement whose rows all encode: the rows
    left are recorded and queued as next, and the statement is released. *)
Lemma fastForward_live ftd fd q rest prs e :
  _statement e = Some rest → _query e = q → _nextEnumerator e = None →
  Forall2 (λ row pr, encodeColumns ftd q 0 row 0 = Ok pr) rest prs →
  (0 ≤ _rowCount e)%Z →
  (_rowCount e + Z.of_nat (length rest) < 2 ^ 62)%Z →
  fastForward ftd fd e
  = (Ok (),
     set_playbacks (_curEnumerator e)
       (match length rest with
        | O => None
        | _ => Some (mkPlayback (mkDoc (recorded prs) (fd (recorded prs)))
                                0 (_rowCount e))
        end)
       (_oldEnumerator e)
       (set_statement None (_rowCount e + Z.of_nat (length rest)) false e)).
Proof.
  intros Hst Hq Hnx Hall Hrc Hrc'.
  unfold fastForward. rewrite Hst, Hnx.
  assert (Hmax : uint64 INT64_MAX = (2 ^ 63 - 1)%Z) by (by vm_compute).
  assert (Hk : (0 ≤ uint64 INT64_MAX < 2 ^ 63)%Z) by (rewrite Hmax; lia).
  rewrite (recordRows_page ftd fd q rest prs INT64_MAX e Hst Hq Hall Hk Hrc
             ltac:(lia)).
  rewrite Hmax.
  set (room := Z.to_nat (2 ^ 63 - 1)).
  assert (Hroom : (length rest < room)%nat) by (unfold room; lia).
  clearbody room.
  replace (room `min` length rest)%nat with (length rest) by lia.
  destruct (Nat.ltb_spec (length rest) room) as [_|]; [|lia].
  cbv zeta.
  cbn [set_statement set_playbacks _statement _curEnumerator _oldEnumerator
       _nextEnumerator _query _options _bindings _unboundParameters
       _lastSequence _rowCount _curRow _observingTransaction].
  rewrite firstn_all2 by (erewrite <- Forall2_length by exact Hall; lia).
  reflexivity.
Qed.

(** *** One step of the iteration, at the end of a recording *)

Section Steps.
Variable ftd : string → option Value.
Variable fd : list Value → string.
Variables (q : Query) (opts : Options) (b : gmap string Binding)
  (u : gset string) (seq : N) (rc cr : Z) (obs : bool).
Variable st : option (list (list Column)).

(** On to the recording queued as next. *)
Lemma next_turn p n old :
  (Playback_count p ≤ _iter p + 2)%Z →
  next ftd fd (mkEnumerator q opts st b u seq rc cr (Some p) (Some n) old obs)
  = (Ok true,
     mkEnumerator q opts st b u seq rc (sint64 (cr + 1)) (Some n) None old
                  obs).
Proof.
  intros Hout. unfold next, Playback_next. simpl.
  destruct (Z.ltb_spec (_iter p + 2) (Playback_count p)); [lia|]. reflexivity.
Qed.

(** With nothing queued, the next page is read off the statement. *)
Lemma next_page cur old :
  match cur with
  | Some p => (Playback_count p ≤ _iter p + 2)%Z
  | None => True
  end →
  next ftd fd (mkEnumerator q opts st b u seq rc cr cur None old obs)
  = let cur' :=
      match cur with
      | Some p => Some (mkPlayback (_recording p) (_iter p + 2) (_firstRow p))
      | None => None
      end in
    let e1 :=
      if oneShot opts
      then mkEnumerator q opts st b u seq rc cr cur' None old obs
      else mkEnumerator q opts st b u seq rc cr None None cur' obs in
    match recordRows ftd fd kPageSize e1 with
    | (Throw x, e2) => (Throw x, e2)
    | (Ok None, e2) =>
        (Ok false,
         set_playbacks None (_nextEnumerator e2) (_oldEnumerator e2) e2)
    | (Ok (Some page), e2) =>
        (Ok true,
         set_curRow (sint64 (_curRow e2 + 1))
           (set_playbacks (Some page) (_nextEnumerator e2)
                          (_oldEnumerator e2) e2))
    end.
Proof.
  intros Hout. unfold next, Playback_next.
  destruct cur as [p|]; simpl.
  - destruct (Z.ltb_spec (_iter p + 2) (Playback_count p)); [lia|]. simpl.
    destruct (oneShot opts); simpl;
      by destruct (recordRows _ _ _ _) as [[[page|]|x] e2].
  - destruct (oneShot opts); simpl;
      by destruct (recordRows _ _ _ _) as [[[page|]|x] e2].
Qed.

End Steps.

(** *** Paging through a result set *)

Section Paging.
Variable ftd : string → option Value.
Variable fd : list Value → string.
Variables (q : Query) (opts : Options).
Variable rows : list (list Column).
Variable pairs : list (list Value * Z).
Hypothesis Hall :
  Forall2 (λ row pr, encodeColumns ftd q 0 row 0 = Ok pr) rows pairs.
Hypothesis Hsmall : (Z.of_nat (length rows) < 2 ^ 62)%Z.

Lemma pairs_length : length pairs = length rows.
Proof. symmetry. by eapply Forall2_length. Qed.

Lemma columns_standing_on r e pr :
  standing_on q opts rows pairs r e →
  pairs !! r = Some pr →
  columns e = Ok (shown q pr).1 ∧ missingColumns e = Ok pr.2.
Proof.
  intros (d & c & m & dat & Hr & Hn & Hq & _ & _ & _ & _ & Hcur & _) Hpr.
  unfold columns, missingColumns, Playback_columns, Playback_missingColumns.
  rewrite Hcur, Hq. cbn [_recording _iter asArray].
  destruct (recorded_lookup (take c (drop d pairs)) (r - d)) as [H0 H1].
  rewrite Nat2Z.id.
  replace (Z.to_nat (Z.of_nat (2 * (r - d)) + 1)) with (S (2 * (r - d)))
    by lia.
  rewrite H0, H1, lookup_take_lt, lookup_drop by lia.
  replace (d + (r - d))%nat with r by lia. by rewrite Hpr.
Qed.

(** A step from a row to the next one, or off the end. *)
Lemma next_standing_on r e :
  standing_on q opts rows pairs r e →
  if decide (S r < length rows)%nat
  then ∃ e', next ftd fd e = (Ok true, e')
             ∧ standing_on q opts rows pairs (S r) e'
  else ∃ e', next ftd fd e = (Ok false, e').
Proof.
  intros (d & c & m & dat & Hr & Hn & Hq & Hopts & Hrc & Hcr & Hst & Hcur
          & Hnx).
  destruct e as [q0 opts0 st b u seq rc cr cur nx old obs];
    cbn [_query _options _statement _rowCount _curRow _curEnumerator
         _nextEnumerator _observingTransaction] in *.
  subst q0 opts0 rc cr cur.
  set (p := mkPlayback (mkDoc (recorded (take c (drop d pairs))) dat)
                       (Z.of_nat (2 * (r - d))) (Z.of_nat d)).
  assert (Hcount : Playback_count p = (2 * Z.of_nat c)%Z).
  { unfold Playback_count, p. cbn [_recording asArray].
    rewrite recorded_length, length_take, length_drop, pairs_length. lia. }
  assert (Hiter : _iter p = Z.of_nat (2 * (r - d))) by done.
  destruct (decide (S r < d + c)%nat) as [Hin|Hend].
  - (* inside the current recording *)
    rewrite next_playing by lia.
    rewrite decide_True by lia. eexists. split; [done|].
    exists d, c, m, dat. 
    cbn [set_curRow set_playbacks _query _options _rowCount _curRow
                _statement _curEnumerator _nextEnumerator].
    rewrite sint64_small by lia.
    split; [lia|]. split; [lia|]. split; [reflexivity|].
    split; [reflexivity|]. split; [reflexivity|]. split; [lia|].
    split; [exact Hst|]. split; [|exact Hnx].
    unfold p. cbn [_recording _iter _firstRow]. do 3 f_equal. lia.
  - destruct m as [|m'].
    + (* nothing queued: read a page *)
      subst nx. rewrite next_page by (rewrite Hcount, Hiter; lia).
      cbv zeta.
      set (cur' := Some (mkPlayback (_recording p) (_iter p + 2)
                                    (_firstRow p))).
      set (e1 := if oneShot opts
                 then mkEnumerator q opts st b u seq
                        (Z.of_nat (d + c + 0)) (Z.of_nat r) cur' None old obs
                 else mkEnumerator q opts st b u seq
                        (Z.of_nat (d + c + 0)) (Z.of_nat r) None None cur'
                        obs).
      assert (He1 : _statement e1 = st ∧ _query e1 = q
                    ∧ _rowCount e1 = Z.of_nat (d + c)
                    ∧ _curRow e1 = Z.of_nat r ∧ _nextEnumerator e1 = None
                    ∧ _options e1 = opts).
      { unfold e1. rewrite Nat.add_0_r.
        destruct (oneShot opts); repeat split; reflexivity. }
      destruct He1 as (Hst1 & Hq1 & Hrc1 & Hcr1 & Hnx1 & Hopts1).
      clearbody e1.
      destruct Hst as [[-> _]|[-> Hfull]].
      * (* the statement is live *)
        rewrite Nat.add_0_r in *.
        assert (Hk : (0 ≤ uint64 kPageSize < 2 ^ 63)%Z) by (by vm_compute).
        assert (Hrc0 : (0 ≤ _rowCount e1)%Z) by (rewrite Hrc1; lia).
        assert (Hrc2 : (_rowCount e1 + Z.of_nat (length (drop (d + c) rows))
                        < 2 ^ 63)%Z)
          by (rewrite Hrc1, length_drop; lia).
        rewrite (recordRows_page ftd fd q (drop (d + c) rows)
                   (drop (d + c) pairs) kPageSize e1 Hst1 Hq1
                   (Forall2_drop _ _ _ _ Hall) Hk Hrc0 Hrc2).
        clear Hk Hrc0 Hrc2.
        change (Z.to_nat (uint64 kPageSize)) with 50%nat.
        rewrite Hrc1, length_drop.
        set (m1 := (50 `min` (length rows - (d + c)))%nat).
        assert (Hm1 : (m1 ≤ 50 ∧ m1 ≤ length rows - (d + c)
                       ∧ (m1 = 50 ∨ m1 = length rows - (d + c)))%nat)
          by (unfold m1; lia).
        clearbody m1.
        set (e2 := if (length rows - (d + c) <? 50)%nat
                   then set_statement None
                          (Z.of_nat (d + c)
                           + Z.of_nat (length rows - (d + c))) false e1
                   else set_statement (Some (drop m1 (drop (d + c) rows)))
                          (Z.of_nat (d + c) + Z.of_nat m1)
                          (_observingTransaction e1) e1).
        assert (He2 : _query e2 = q ∧ _options e2 = opts
                      ∧ _curRow e2 = Z.of_nat r ∧ _nextEnumerator e2 = None
                      ∧ _rowCount e2 = Z.of_nat (d + c + m1)
                      ∧ (_statement e2 = Some (drop (d + c + m1) rows)
                         ∨ _statement e2 = None
                           ∧ (d + c + m1)%nat = length rows)).
        { unfold e2. destruct (Nat.ltb_spec (length rows - (d + c)) 50);
            destruct e1;
            cbn [set_statement _query _options _curRow _nextEnumerator
                 _rowCount _statement _observingTransaction] in *.
          - split; [exact Hq1|]. split; [exact Hopts1|].
            split; [exact Hcr1|]. split; [exact Hnx1|]. split; [lia|].
            right. split; [reflexivity|lia].
          - split; [exact Hq1|]. split; [exact Hopts1|].
            split; [exact Hcr1|]. split; [exact Hnx1|]. split; [lia|].
            left. by rewrite drop_drop. }
        destruct He2 as (Hq2 & Hopts2 & Hcr2 & Hnx2 & Hrc2 & Hst2).
        clearbody e2.
        destruct m1 as [|m1'].
        -- rewrite decide_False by lia. by eexists.
        -- rewrite decide_True by lia. eexists. split; [reflexivity|].
           exists (d + c)%nat, (S m1'), 0%nat,
             (fd (recorded (take (S m1') (drop (d + c) pairs)))).
           destruct e2;
           cbn [set_curRow set_playbacks _query _options _rowCount _curRow
                _statement _curEnumerator _nextEnumerator] in *.
           rewrite Hcr2, sint64_small by lia.
           rewrite !Nat.add_0_r.
           split; [lia|]. split; [lia|]. split; [exact Hq2|].
           split; [exact Hopts2|]. split; [exact Hrc2|]. split; [lia|].
           split; [|split; [|exact Hnx2]].
           ++ destruct Hst2 as [->| [-> ?]]; [left|right]; by split.
           ++ do 3 f_equal; lia.
      * (* the statement has been released *)
        unfold recordRows. rewrite Hst1.
        rewrite decide_False by lia. by eexists.
    + (* on to the recording queued as next *)
      destruct Hnx as [dat' ->].
      rewrite next_turn by (rewrite Hcount, Hiter; lia).
      destruct Hst as [[_ ?]|[-> Hfull]]; [done|].
      rewrite decide_True by lia. eexists. split; [reflexivity|].
      exists (d + c)%nat, (S m'), 0%nat, dat'.
      cbn [set_curRow set_playbacks _query _options _rowCount _curRow
                _statement _curEnumerator _nextEnumerator].
      rewrite sint64_small by lia. rewrite !Nat.add_0_r.
      split; [lia|]. split; [lia|]. split; [reflexivity|].
      split; [reflexivity|]. split; [reflexivity|]. split; [lia|].
      split; [|split; [|reflexivity]].
      * right. split; [reflexivity|lia].
      * do 3 f_equal; lia.
Qed.

Lemma nexts_standing_on : ∀ j r e,
  standing_on q opts rows pairs r e → (r + j < length rows)%nat →
  ∃ ek, nexts ftd fd j e = (Ok true, ek)
        ∧ standing_on q opts rows pairs (r + j) ek.
Proof.
  induction j as [|j IH]; intros r e He Hj.
  - exists e. by rewrite Nat.add_0_r.
  - pose proof (next_standing_on r e He) as Hstep.
    rewrite decide_True in Hstep by lia.
    destruct Hstep as (e' & Hnext & He').
    destruct (IH (S r) e' He' ltac:(lia)) as (ek & Hk & Hek).
    exists ek. cbn [nexts]. rewrite Hnext.
    by replace (r + S j)%nat with (S r + j)%nat by lia.
Qed.

Lemma collect_standing_on : ∀ fuel r e,
  standing_on q opts rows pairs r e →
  (r < length rows)%nat → (length rows - r ≤ fuel)%nat →
  collect ftd fd fuel e = Ok (shown q <$> drop (S r) pairs).
Proof.
  induction fuel as [|fuel IH]; intros r e He Hr Hfuel; [lia|].
  cbn [collect]. pose proof (next_standing_on r e He) as Hstep.
  destruct (decide (S r < length rows)%nat) as [Hin|Hout].
  - destruct Hstep as (e' & -> & He').
    destruct (lookup_lt_is_Some_2 pairs (S r)) as [pr Hpr];
      [rewrite pairs_length; lia|].
    destruct (columns_standing_on (S r) e' pr He' Hpr) as [-> ->].
    rewrite (IH (S r) e' He') by lia.
    by rewrite (drop_S pairs pr (S r) Hpr).
  - destruct Hstep as (e' & ->).
    by rewrite drop_ge by (rewrite pairs_length; lia).
Qed.

(** The first step. *)
Lemma next_before_first e :
  before_first q opts rows pairs e →
  if decide (0 < length rows)%nat
  then ∃ e', next ftd fd e = (Ok true, e')
             ∧ standing_on q opts rows pairs 0 e'
  else ∃ e', next ftd fd e = (Ok false, e').
Proof.
  intros (Hq & Hopts & Hcr & Hcur & Hst).
  destruct e as [q0 opts0 st b u seq rc cr cur nx old obs];
    cbn [_query _options _statement _rowCount _curRow _curEnumerator
         _nextEnumerator _observingTransaction] in *.
  subst q0 opts0 cr cur.
  destruct Hst as [(-> & -> & ->)|(-> & -> & Hnx)].
  - (* nothing read yet: the first page *)
    rewrite next_page by done. cbv zeta.
    set (e1 := if oneShot opts
               then mkEnumerator q opts (Some rows) b u seq 0 (-1) None None
                                 old obs
               else mkEnumerator q opts (Some rows) b u seq 0 (-1) None None
                                 None obs).
    assert (He1 : _statement e1 = Some rows ∧ _query e1 = q
                  ∧ _rowCount e1 = 0%Z
                  ∧ _curRow e1 = (-1)%Z ∧ _nextEnumerator e1 = None
                  ∧ _options e1 = opts).
    { unfold e1. destruct (oneShot opts); repeat split; reflexivity. }
    destruct He1 as (Hst1 & Hq1 & Hrc1 & Hcr1 & Hnx1 & Hopts1).
    clearbody e1.
    assert (Hk : (0 ≤ uint64 kPageSize < 2 ^ 63)%Z) by (by vm_compute).
    assert (Hrc0 : (0 ≤ _rowCount e1)%Z) by (rewrite Hrc1; lia).
    assert (Hrc2 : (_rowCount e1 + Z.of_nat (length rows) < 2 ^ 63)%Z)
      by (rewrite Hrc1; lia).
    rewrite (recordRows_page ftd fd q rows pairs kPageSize e1 Hst1 Hq1
               Hall Hk Hrc0 Hrc2).
    clear Hk Hrc0 Hrc2.
    change (Z.to_nat (uint64 kPageSize)) with 50%nat.
    rewrite Hrc1.
    set (m1 := (50 `min` length rows)%nat).
    assert (Hm1 : (m1 ≤ 50 ∧ m1 ≤ length rows
                   ∧ (m1 = 50 ∨ m1 = length rows))%nat)
      by (unfold m1; lia).
    clearbody m1.
    set (e2 := if (length rows <? 50)%nat
               then set_statement None (0 + Z.of_nat (length rows)) false e1
               else set_statement (Some (drop m1 rows)) (0 + Z.of_nat m1)
                      (_observingTransaction e1) e1).
    assert (He2 : _query e2 = q ∧ _options e2 = opts
                  ∧ _curRow e2 = (-1)%Z ∧ _nextEnumerator e2 = None
                  ∧ _rowCount e2 = Z.of_nat m1
                  ∧ (_statement e2 = Some (drop m1 rows)
                     ∨ _statement e2 = None ∧ m1 = length rows)).
    { unfold e2. destruct (Nat.ltb_spec (length rows) 50);
        destruct e1;
        cbn [set_statement _query _options _curRow _nextEnumerator
             _rowCount _statement _observingTransaction] in *.
      - split; [exact Hq1|]. split; [exact Hopts1|].
        split; [exact Hcr1|]. split; [exact Hnx1|]. split; [lia|].
        right. split; [reflexivity|lia].
      - split; [exact Hq1|]. split; [exact Hopts1|].
        split; [exact Hcr1|]. split; [exact Hnx1|]. split; [lia|].
        by left. }
    destruct He2 as (Hq2 & Hopts2 & Hcr2 & Hnx2 & Hrc2 & Hst2).
    clearbody e2.
    destruct m1 as [|m1'].
    + rewrite decide_False by lia. by eexists.
    + rewrite decide_True by lia. eexists. split; [reflexivity|].
      exists 0%nat, (S m1'), 0%nat, (fd (recorded (take (S m1') pairs))).
      destruct e2;
        cbn [set_curRow set_playbacks _query _options _rowCount _curRow
             _statement _curEnumerator _nextEnumerator] in *.
      rewrite Hcr2. rewrite !Nat.add_0_r, !Nat.add_0_l.
      split; [lia|]. split; [lia|]. split; [exact Hq2|].
      split; [exact Hopts2|]. split; [exact Hrc2|].
      split; [by vm_compute|].
      split; [|split; [|exact Hnx2]].
      * destruct Hst2 as [->| [-> ?]]; [left|right]; by split.
      * reflexivity.
  - (* everything recorded already *)
    assert (Hnx' : if decide (0 < length rows)%nat
                   then ∃ dat, nx = Some (mkPlayback
                                            (mkDoc (recorded pairs) dat) 0 0)
                   else nx = None).
    { destruct rows; [done|]. by rewrite decide_True by (simpl; lia). }
    clear Hnx. destruct (decide (0 < length rows)%nat) as [Hpos|Hzero].
    + destruct Hnx' as [dat ->]. rewrite next_queued.
      eexists. split; [reflexivity|].
      exists 0%nat, (length rows), 0%nat, dat.
      cbn [_query _options _rowCount _curRow _statement _curEnumerator
           _nextEnumerator].
      rewrite !Nat.add_0_r, !Nat.add_0_l.
      split; [lia|]. split; [lia|]. split; [reflexivity|].
      split; [reflexivity|]. split; [reflexivity|].
      split; [by vm_compute|].
      split; [by right|]. split; [|reflexivity].
      rewrite <- pairs_length. change (drop 0 pairs) with pairs.
      rewrite firstn_all. reflexivity.
    + subst nx. rewrite next_nothing. by eexists.
Qed.

Lemma nexts_before_first k e :
  before_first q opts rows pairs e → (k < length rows)%nat →
  ∃ ek, nexts ftd fd (S k) e = (Ok true, ek)
        ∧ standing_on q opts rows pairs k ek.
Proof.
  intros He Hk. pose proof (next_before_first e He) as Hstep.
  rewrite decide_True in Hstep by lia.
  destruct Hstep as (e' & Hnext & He').
  destruct (nexts_standing_on k 0 e' He' ltac:(lia)) as (ek & Hks & Hek).
  exists ek. cbn [nexts]. by rewrite Hnext.
Qed.

Lemma collect_before_first fuel e :
  before_first q opts rows pairs e → (length rows < fuel)%nat →
  collect ftd fd fuel e = Ok (shown q <$> pairs).
Proof.
  intros He Hfuel. destruct fuel as [|fuel]; [lia|].
  cbn [collect]. pose proof (next_before_first e He) as Hstep.
  destruct (decide (0 < length rows)%nat) as [Hin|Hout].
  - destruct Hstep as (e' & -> & He').
    destruct (lookup_lt_is_Some_2 pairs 0) as [pr Hpr];
      [rewrite pairs_length; lia|].
    destruct (columns_standing_on 0 e' pr He' Hpr) as [-> ->].
    rewrite (collect_standing_on fuel 0 e' He') by lia.
    assert (Hd : pairs = pr :: drop 1 pairs)
      by exact (drop_S pairs pr 0 Hpr).
    rewrite Hd at 2. by destruct pr.
  - destruct Hstep as (e' & ->).
    by rewrite (nil_length_inv pairs) by (rewrite pairs_length; lia).
Qed.

(** *** A page at a time *)

Lemma paged_on_standing_on r e :
  paged_on q opts rows pairs r e → standing_on q opts rows pairs r e.
Proof.
  intros (j & dat & He). cbv zeta in He.
  destruct He as (Hr & Hq & Hopts & Hrc & Hcr & Hst & Hcur & Hnx).
  exists (50 * j)%nat, (50 `min` (length rows - 50 * j))%nat, 0%nat, dat.
  rewrite !Nat.add_0_r.
  split; [exact Hr|]. split; [lia|]. split; [exact Hq|].
  split; [exact Hopts|]. split; [exact Hrc|]. split; [exact Hcr|].
  split; [|split; [exact Hcur|exact Hnx]].
  rewrite Hst. destruct (Nat.ltb_spec (length rows) (50 * j + 50)).
  - right. split; [reflexivity|lia].
  - left. split; [|reflexivity]. do 2 f_equal. lia.
Qed.

(** A step of a one-shot enumerator from a row to the next: within the
    page, or on to a page that is read now. *)
Lemma next_paged_on r e :
  oneShot opts = true →
  paged_on q opts rows pairs r e → (S r < length rows)%nat →
  ∃ e', next ftd fd e = (Ok true, e')
        ∧ paged_on q opts rows pairs (S r) e'.
Proof.
  intros Hone (j & dat & He) Hlt. cbv zeta in He.
  destruct He as (Hr & Hq & Hopts & Hrc & Hcr & Hst & Hcur & Hnx).
  destruct e as [q0 opts0 st b u seq rc cr cur nx old obs];
    cbn [_query _options _statement _rowCount _curRow _curEnumerator
         _nextEnumerator _observingTransaction] in *.
  subst q0 opts0 rc cr cur nx.
  set (d := (50 * j)%nat) in *.
  set (c := (50 `min` (length rows - d))%nat) in *.
  set (p := mkPlayback (mkDoc (recorded (take c (drop d pairs))) dat)
                       (Z.of_nat (2 * (r - d))) (Z.of_nat d)).
  assert (Hc : (c ≤ 50 ∧ c ≤ length rows - d
                ∧ (c = 50 ∨ c = length rows - d))%nat) by (unfold c; lia).
  assert (Hcount : Playback_count p = (2 * Z.of_nat c)%Z).
  { unfold Playback_count, p. cbn [_recording asArray].
    rewrite recorded_length, length_take, length_drop, pairs_length. lia. }
  assert (Hiter : _iter p = Z.of_nat (2 * (r - d))) by done.
  destruct (decide (S r < d + c)%nat) as [Hin|Hend].
  - (* within the page *)
    rewrite next_playing by lia. eexists. split; [reflexivity|].
    exists j, dat. cbv zeta. fold d. fold c.
    cbn [_query _options _rowCount _curRow _statement _curEnumerator
         _nextEnumerator].
    rewrite sint64_small by lia.
    split; [lia|]. split; [reflexivity|]. split; [reflexivity|].
    split; [reflexivity|]. split; [lia|]. split; [exact Hst|].
    split; [|reflexivity].
    unfold p. cbn [_recording _iter _firstRow]. do 3 f_equal. lia.
  - (* on to the next page *)
    assert (Hfull : c = 50%nat) by lia.
    assert (Hmore : (d + 50 < length rows)%nat) by lia.
    destruct (Nat.ltb_spec (length rows) (d + 50)) as [?|_]; [lia|].
    subst st.
    rewrite next_page by (rewrite Hcount, Hiter; lia).
    cbv zeta. rewrite Hone.
    set (e1 := mkEnumerator q opts (Some (drop (d + 50) rows)) b u seq
                 (Z.of_nat (d + c)) (Z.of_nat r)
                 (Some (mkPlayback (_recording p) (_iter p + 2)
                                   (_firstRow p)))
                 None old obs).
    assert (Hk : (0 ≤ uint64 kPageSize < 2 ^ 63)%Z) by (by vm_compute).
    assert (Hrc0 : (0 ≤ _rowCount e1)%Z) by (cbn [e1 _rowCount]; lia).
    assert (Hrc2 : (_rowCount e1
                    + Z.of_nat (length (drop (d + 50) rows)) < 2 ^ 63)%Z)
      by (cbn [e1 _rowCount]; rewrite length_drop; lia).
    rewrite (recordRows_page ftd fd q (drop (d + 50) rows)
               (drop (d + 50) pairs) kPageSize e1 eq_refl eq_refl
               (Forall2_drop _ _ _ _ Hall) Hk Hrc0 Hrc2).
    clear Hk Hrc0 Hrc2.
    change (Z.to_nat (uint64 kPageSize)) with 50%nat.
    rewrite length_drop.
    set (c' := (50 `min` (length rows - (d + 50)))%nat).
    assert (Hc' : (1 ≤ c' ≤ 50 ∧ c' ≤ length rows - (d + 50))%nat)
      by (unfold c'; lia).
    destruct c' as [|c1] eqn:Hc1; [lia|].
    eexists. split; [reflexivity|].
    exists (S j), (fd (recorded (take (S c1) (drop (d + 50) pairs)))).
    cbv zeta.
    replace (50 * S j)%nat with (d + 50)%nat by (unfold d; lia).
    fold c'. rewrite Hc1.
    destruct (Nat.ltb_spec (length rows - (d + 50)) 50) as [Hlast|Hnext];
      cbn [e1 set_curRow set_playbacks set_statement _query _options
           _rowCount _curRow _statement _curEnumerator _nextEnumerator
           _oldEnumerator _observingTransaction];
      rewrite sint64_small by lia.
    + destruct (Nat.ltb_spec (length rows) (d + 50 + 50)) as [_|?]; [|lia].
      split; [lia|]. split; [reflexivity|]. split; [reflexivity|].
      split; [lia|]. split; [lia|]. split; [reflexivity|].
      split; [|reflexivity]. do 3 f_equal; lia.
    + destruct (Nat.ltb_spec (length rows) (d + 50 + 50)) as [?|_]; [lia|].
      split; [lia|]. split; [reflexivity|]. split; [reflexivity|].
      split; [lia|]. split; [lia|].
      split; [by rewrite drop_drop; do 2 f_equal; lia|].
      split; [|reflexivity]. do 3 f_equal; lia.
Qed.

(** The first step of a one-shot enumerator reads the first page. *)
Lemma next_fresh_paged e :
  oneShot opts = true →
  before_first q opts rows pairs e → _statement e = Some rows →
  (0 < length rows)%nat →
  ∃ e', next ftd fd e = (Ok true, e') ∧ paged_on q opts rows pairs 0 e'.
Proof.
  intros Hone (Hq & Hopts & Hcr & Hcur & Hst) Hlive Hpos.
  destruct Hst as [(_ & Hrc & Hnx)|(Hnone & _)];
    [|by rewrite Hnone in Hlive].
  destruct e as [q0 opts0 st b u seq rc cr cur nx old obs];
    cbn [_query _options _statement _rowCount _curRow _curEnumerator
         _nextEnumerator _observingTransaction] in *.
  subst q0 opts0 st rc cr cur nx.
  rewrite next_page by done. cbv zeta. rewrite Hone.
  set (e1 := mkEnumerator q opts (Some rows) b u seq 0 (-1) None None old
                          obs).
  assert (Hk : (0 ≤ uint64 kPageSize < 2 ^ 63)%Z) by (by vm_compute).
  assert (Hrc0 : (0 ≤ _rowCount e1)%Z) by (cbn [e1 _rowCount]; lia).
  assert (Hrc2 : (_rowCount e1 + Z.of_nat (length rows) < 2 ^ 63)%Z)
    by (cbn [e1 _rowCount]; lia).
  rewrite (recordRows_page ftd fd q rows pairs kPageSize e1 eq_refl eq_refl
             Hall Hk Hrc0 Hrc2).
  clear Hk Hrc0 Hrc2.
  change (Z.to_nat (uint64 kPageSize)) with 50%nat.
  set (c' := (50 `min` length rows)%nat).
  assert (Hc' : (1 ≤ c' ≤ 50 ∧ c' ≤ length rows)%nat) by (unfold c'; lia).
  destruct c' as [|c1] eqn:Hc1; [lia|].
  eexists. split; [reflexivity|].
  exists 0%nat, (fd (recorded (take (S c1) pairs))).
  cbv zeta. change (50 * 0)%nat with 0%nat.
  rewrite Nat.sub_0_r, !Nat.add_0_l. fold c'. rewrite Hc1.
  destruct (Nat.ltb_spec (length rows) 50) as [Hlast|Hnext];
    cbn [e1 set_curRow set_playbacks set_statement _query _options
         _rowCount _curRow _statement _curEnumerator _nextEnumerator
         _oldEnumerator _observingTransaction].
  - split; [lia|]. split; [reflexivity|]. split; [reflexivity|].
    split; [lia|]. split; [by vm_compute|]. split; [reflexivity|].
    split; reflexivity.
  - split; [lia|]. split; [reflexivity|]. split; [reflexivity|].
    split; [lia|]. split; [by vm_compute|].
    split; [do 2 f_equal; lia|]. split; reflexivity.
Qed.

Lemma nexts_paged_on : ∀ i r e,
  oneShot opts = true →
  paged_on q opts rows pairs r e → (r + i < length rows)%nat →
  ∃ ek, nexts ftd fd i e = (Ok true, ek)
        ∧ paged_on q opts rows pairs (r + i) ek.
Proof.
  induction i as [|i IH]; intros r e Hone He Hi.
  - exists e. by rewrite Nat.add_0_r.
  - destruct (next_paged_on r e Hone He ltac:(lia)) as (e' & Hnext & He').
    destruct (IH (S r) e' Hone He' ltac:(lia)) as (ek & Hk & Hek).
    exists ek. cbn [nexts]. rewrite Hnext.
    by replace (r + S i)%nat with (S r + i)%nat by lia.
Qed.

(** After [S k] calls of [next], a one-shot enumerator stands on row
    [k], with the statement read to the end of that row's page. *)
Lemma nexts_fresh_paged k e :
  oneShot opts = true →
  before_first q opts rows pairs e → _statement e = Some rows →
  (k < length rows)%nat →
  ∃ ek, nexts ftd fd (S k) e = (Ok true, ek)
        ∧ paged_on q opts rows pairs k ek.
Proof.
  intros Hone He Hlive Hk.
  destruct (next_fresh_paged e Hone He Hlive ltac:(lia))
    as (e' & Hnext & He').
  destruct (nexts_paged_on k 0 e' Hone He' ltac:(lia)) as (ek & Hks & Hek).
  exists ek. cbn [nexts]. by rewrite Hnext.
Qed.

(** Fast-forwarding keeps the place and releases the statement. *)
Lemma fastForward_standing_on r e :
  standing_on q opts rows pairs r e →
  ∃ e', fastForward ftd fd e = (Ok (), e')
        ∧ standing_on q opts rows pairs r e'
        ∧ _statement e' = None
        ∧ _rowCount e' = Z.of_nat (length rows)
        ∧ (_observingTransaction e = false
           → _observingTransaction e' = false).
Proof.
  intros He.
  pose proof He as (d & c & m & dat & Hr & Hn & Hq & Hopts & Hrc & Hcr & Hst
                    & Hcur & Hnx).
  destruct Hst as [[Hst ->]|[Hst Hfull]].
  - rewrite Nat.add_0_r in *.
    rewrite (fastForward_live ftd fd q (drop (d + c) rows)
               (drop (d + c) pairs) e Hst Hq Hnx
               (Forall2_drop _ _ _ _ Hall))
      by (rewrite Hrc, ?length_drop; lia).
    eexists. split; [reflexivity|].
    rewrite length_drop, Hrc.
    cbn [set_statement set_playbacks _statement _curEnumerator
         _oldEnumerator _nextEnumerator _query _options _bindings
         _unboundParameters _lastSequence _rowCount _curRow
         _observingTransaction].
    split; [|split; [reflexivity|split; [lia|done]]].
    exists d, c, (length rows - (d + c))%nat, dat.
    cbn [set_statement set_playbacks _statement _curEnumerator
         _oldEnumerator _nextEnumerator _query _options _bindings
         _unboundParameters _lastSequence _rowCount _curRow
         _observingTransaction].
    split; [lia|]. split; [lia|]. split; [exact Hq|].
    split; [exact Hopts|]. split; [lia|]. split; [exact Hcr|].
    split; [right; split; [reflexivity|lia]|]. split; [exact Hcur|].
    destruct (length rows - (d + c))%nat as [|m'] eqn:Hm; [reflexivity|].
    eexists. do 3 f_equal.
    rewrite firstn_all2; [reflexivity|].
    rewrite length_drop, pairs_length. lia.
  - exists e. unfold fastForward. rewrite Hst.
    split; [reflexivity|]. split; [exact He|]. split; [reflexivity|].
    split; [rewrite Hrc; lia|done].
Qed.

Lemma fastForward_before_first e :
  before_first q opts rows pairs e →
  ∃ e', fastForward ftd fd e = (Ok (), e')
        ∧ before_first q opts rows pairs e'
        ∧ _statement e' = None
        ∧ _rowCount e' = Z.of_nat (length rows)
        ∧ (_observingTransaction e = false
           → _observingTransaction e' = false).
Proof.
  intros He. pose proof He as (Hq & Hopts & Hcr & Hcur & Hst).
  destruct Hst as [(Hst & Hrc & Hnx)|(Hst & Hrc & Hnx)].
  - rewrite (fastForward_live ftd fd q rows pairs e Hst Hq Hnx Hall)
      by (rewrite Hrc; lia).
    eexists. split; [reflexivity|]. rewrite Hrc, Z.add_0_l.
    cbn [set_statement set_playbacks _statement _curEnumerator
         _oldEnumerator _nextEnumerator _query _options _bindings
         _unboundParameters _lastSequence _rowCount _curRow
         _observingTransaction].
    split; [|split; [reflexivity|split; [reflexivity|done]]].
    split; [exact Hq|]. split; [exact Hopts|]. split; [exact Hcr|].
    split; [exact Hcur|]. right.
    cbn [set_statement set_playbacks _statement _curEnumerator
         _oldEnumerator _nextEnumerator _query _options _bindings
         _unboundParameters _lastSequence _rowCount _curRow
         _observingTransaction].
    split; [reflexivity|]. split; [reflexivity|].
    destruct rows; [reflexivity|]. by eexists.
  - exists e. unfold fastForward. rewrite Hst.
    split; [reflexivity|]. split; [exact He|]. split; [reflexivity|].
    split; [exact Hrc|done].
Qed.

End Paging.

(** Whether the enumerator observes transactions has no part in where it
    stands. *)
Lemma standing_on_observing q opts rows pairs r e obs :
  standing_on q opts rows pairs r e →
  standing_on q opts rows pairs r
    (set_statement (_statement e) (_rowCount e) obs e).
Proof. intros (d & c & m & dat & H). by exists d, c, m, dat. Qed.

Lemma before_first_observing q opts rows pairs e obs :
  before_first q opts rows pairs e →
  before_first q opts rows pairs
    (set_statement (_statement e) (_rowCount e) obs e).
Proof. intros H. exact H. Qed.

(** A one-shot enumerator, once constructed, has read nothing. *)
Lemma create_one_shot_state ftd fd conv asDict q opts seq rows pairs e :
  oneShot opts = true →
  create ftd fd conv asDict q opts seq rows = Ok e →
  before_first q opts rows pairs e ∧ _observingTransaction e = true
  ∧ _statement e = Some rows ∧ _rowCount e = 0%Z.
Proof.
  intros Hone. unfold create. rewrite Hone.
  set (e0 := mkEnumerator q opts (Some rows) ∅ (_parameters q) seq 0 (-1)
                          None None None false).
  intros H.
  assert (∃ u b, e = set_statement (Some rows) 0 true (set_binding u b e0))
    as (u & b & ->).
  { destruct (paramBindings opts) as [json|].
    - destruct (bindParameters conv asDict json e0) as [e1|] eqn:Hbind;
        [|done].
      destruct (bindParameters_fields _ _ _ _ _ Hbind) as (u & b & ->).
      simpl in H. injection H as <-. by exists u, b.
    - simpl in H. injection H as <-. by exists (_parameters q), ∅. }
  split; [|by repeat split].
  split; [reflexivity|]. split; [reflexivity|]. split; [reflexivity|].
  split; [reflexivity|]. left. by repeat split.
Qed.

(** What a caller is meant to read, row by row. *)
Lemma readRow_shown ftd q rows recs :
  Forall2 (λ row rec, readRow ftd q row = Ok rec) rows recs →
  ∃ pairs,
    Forall2 (λ row pr, encodeColumns ftd q 0 row 0 = Ok pr) rows pairs
    ∧ recs = shown q <$> pairs.
Proof.
  induction 1 as [|row rec rows recs Hrow _ (pairs & Hall & ->)].
  - by exists [].
  - unfold readRow in Hrow.
    destruct (encodeColumns ftd q 0 row 0) as [[vs m]|] eqn:Henc; [|done].
    injection Hrow as <-. exists ((vs, m) :: pairs). split; [|done].
    by constructor.
Qed.

(** Where [k] calls of [next] leave an enumerator that had read nothing:
    each returned true, and it stands on row [k - 1]. *)
Lemma nexts_from_start ftd fd q opts rows pairs k e :
  Forall2 (λ row pr, encodeColumns ftd q 0 row 0 = Ok pr) rows pairs →
  (Z.of_nat (length rows) < 2 ^ 62)%Z →
  before_first q opts rows pairs e → (k ≤ length rows)%nat →
  ∃ ek, nexts ftd fd k e = (Ok true, ek)
        ∧ match k with
          | O => before_first q opts rows pairs ek
          | S r => standing_on q opts rows pairs r ek
          end.
Proof.
  intros Hall Hlen He Hk. destruct k as [|r].
  - by exists e.
  - by apply nexts_before_first.
Qed.

(** The rows still to come, after [k] calls of [next]. *)
Lemma collect_from ftd fd q opts rows pairs k e fuel :
  Forall2 (λ row pr, encodeColumns ftd q 0 row 0 = Ok pr) rows pairs →
  (Z.of_nat (length rows) < 2 ^ 62)%Z →
  match k with
  | O => before_first q opts rows pairs e
  | S r => standing_on q opts rows pairs r e
  end →
  (k ≤ length rows)%nat → (length rows < fuel)%nat →
  collect ftd fd fuel e = Ok (drop k (shown q <$> pairs)).
Proof.
  intros Hall Hlen He Hk Hfuel. rewrite <- fmap_drop. destruct k as [|r].
  - by apply (collect_before_first ftd fd q opts rows).
  - apply (collect_standing_on ftd fd q opts rows); (done || lia).
Qed.

(** X11. One page after another.  The constructor of a one-shot
    enumerator reads nothing.  Over a result set whose rows all encode,
    a caller who loops over [next] is handed every row, once and in
    order, and after the last row [next] returns false.  The statement
    is stepped a page of 50 rows at a time: after [k] calls of [next],
    where [k] lies on page [j] (the calls [50 * j + 1] to [50 * j + 50]),
    it has been stepped through the first [50 * (j + 1)] rows, or all of
    them if they are fewer, and still holds the rows after these; it is
    released only once it has run out of rows. *)
Theorem one_shot_enumerator_yields_every_row
    ftd fd conv asDict q opts seq rows recs e fuel :
  oneShot opts = true →
  (Z.of_nat (length rows) < 2 ^ 62)%Z →
  create ftd fd conv asDict q opts seq rows = Ok e →
  Forall2 (λ row rec, readRow ftd q row = Ok rec) rows recs →
  (length rows < fuel)%nat →
  _statement e = Some rows ∧ _rowCount e = 0%Z
  ∧ collect ftd fd fuel e = Ok recs
  ∧ ∀ j k : nat, (50 * j < k ≤ 50 * S j)%nat → (k ≤ length rows)%nat →
      ∃ ek, nexts ftd fd k e = (Ok true, ek)
        ∧ _rowCount ek = Z.of_nat (length rows `min` (50 * S j))
        ∧ _statement ek = if (length rows <? 50 * S j)%nat then None
                          else Some (drop (50 * S j) rows).
Proof.
  intros Hone Hlen Hcreate Hrecs Hfuel.
  destruct (readRow_shown ftd q rows recs Hrecs) as (pairs & Hall & ->).
  destruct (create_one_shot_state _ _ _ _ _ _ _ _ pairs _ Hone Hcreate)
    as (He & _ & Hlive & Hrc).
  split; [exact Hlive|]. split; [exact Hrc|].
  split; [by apply (collect_before_first ftd fd q opts rows)|].
  intros j [|r] Hpage Hk; [lia|].
  destruct (nexts_fresh_paged ftd fd q opts rows pairs Hall Hlen r e Hone He
              Hlive ltac:(lia)) as (ek & Hnexts & j' & dat & Hek).
  cbv zeta in Hek.
  destruct Hek as (Hr & _ & _ & Hrc' & _ & Hst & _).
  assert (j' = j) as -> by lia.
  exists ek. split; [exact Hnexts|]. split; [rewrite Hrc'; lia|].
  rewrite Hst. by replace (50 * S j)%nat with (50 * j + 50)%nat by lia.
Qed.

Lemma one_shot_enumerator_yields_every_row_witness :
  match create (λ _, None) sample_finishDoc id (λ _, None) plain_query
               (mkOptions true None) 5 rows_many with
  | Ok e =>
      collect (λ _, None) sample_finishDoc 52 e
      = Ok ((λ i, ([VInt (Z.of_nat i)], 0%Z)) <$> seq 0 51)
      ∧ (∃ e1, nexts (λ _, None) sample_finishDoc 1 e = (Ok true, e1)
           ∧ _rowCount e1 = 50%Z
           ∧ _statement e1 = Some (drop 50 rows_many))
      ∧ (∃ e51, nexts (λ _, None) sample_finishDoc 51 e = (Ok true, e51)
           ∧ _rowCount e51 = 51%Z
           ∧ _statement e51 = None)
  | Throw _ => False
  end.
Proof.
  destruct (create (λ _, None) sample_finishDoc id (λ _, None) plain_query
                   (mkOptions true None) 5 rows_many) as [e|x] eqn:H.
  - destruct (one_shot_enumerator_yields_every_row
                (λ _, None) sample_finishDoc id (λ _, None) plain_query
                (mkOptions true None) 5 rows_many
                ((λ i, ([VInt (Z.of_nat i)], 0%Z)) <$> seq 0 51) e 52)
      as (_ & _ & Hcollect & Hpages).
    + reflexivity.
    + vm_compute. reflexivity.
    + exact H.
    + unfold rows_many. apply Forall2_fmap, Forall_Forall2_diag.
      apply Forall_forall. intros i _. reflexivity.
    + vm_compute. lia.
    + split; [exact Hcollect|]. split.
      * exact (Hpages 0%nat 1%nat ltac:(lia) ltac:(vm_compute; lia)).
      * exact (Hpages 1%nat 51%nat ltac:(lia) ltac:(vm_compute; lia)).
  - vm_compute in H. discriminate H.
Defined.

(** X12. Before the database changes.  After any number of rows read from a
    one-shot enumerator, [preTransaction] records the rows the statement
    still has and releases it, and the enumerator stops observing
    transactions; the caller then reads on from where they were and gets
    every remaining row. *)
Theorem preTransaction_keeps_remaining_rows
    ftd fd conv asDict q opts seq rows recs e k fuel :
  oneShot opts = true →
  (Z.of_nat (length rows) < 2 ^ 62)%Z →
  create ftd fd conv asDict q opts seq rows = Ok e →
  Forall2 (λ row rec, readRow ftd q row = Ok rec) rows recs →
  (k ≤ length rows)%nat → (length rows < fuel)%nat →
  ∃ ek et,
    nexts ftd fd k e = (Ok true, ek)
    ∧ preTransaction ftd fd ek = (Ok (), et)
    ∧ _statement et = None ∧ _observingTransaction et = false
    ∧ collect ftd fd fuel et = Ok (drop k recs).
Proof.
  intros Hone Hlen Hcreate Hrecs Hk Hfuel.
  destruct (readRow_shown ftd q rows recs Hrecs) as (pairs & Hall & ->).
  destruct (create_one_shot_state _ _ _ _ _ _ _ _ pairs _ Hone Hcreate)
    as [He _].
  destruct (nexts_from_start ftd fd q opts rows pairs k e Hall Hlen He Hk)
    as (ek & Hnexts & Hek).
  exists ek. unfold preTransaction.
  set (ek' := set_statement (_statement ek) (_rowCount ek) false ek).
  assert (∃ et, fastForward ftd fd ek' = (Ok (), et)
                ∧ match k with
                  | O => before_first q opts rows pairs et
                  | S r => standing_on q opts rows pairs r et
                  end
                ∧ _statement et = None ∧ _observingTransaction et = false)
    as (et & Hff & Het & Hst & Hobs).
  { destruct k as [|r].
    - destruct (fastForward_before_first ftd fd q opts rows pairs Hall Hlen
                  ek' (before_first_observing _ _ _ _ _ false Hek))
        as (et & ? & ? & ? & _ & Hobs).
      exists et. by rewrite Hobs.
    - destruct (fastForward_standing_on ftd fd q opts rows pairs Hall Hlen
                  r ek' (standing_on_observing _ _ _ _ _ _ false Hek))
        as (et & ? & ? & ? & _ & Hobs).
      exists et. by rewrite Hobs. }
  exists et. split; [exact Hnexts|]. split; [exact Hff|].
  split; [exact Hst|]. split; [exact Hobs|].
  by apply (collect_from ftd fd q opts rows).
Qed.

Lemma preTransaction_keeps_remaining_rows_witness :
  match create (λ _, None) sample_finishDoc id (λ _, None) plain_query
               (mkOptions true None) 5 rows_two with
  | Ok e =>
      ∃ ek et,
        nexts (λ _, None) sample_finishDoc 1 e = (Ok true, ek)
        ∧ preTransaction (λ _, None) sample_finishDoc ek = (Ok (), et)
        ∧ _statement et = None ∧ _observingTransaction et = false
        ∧ collect (λ _, None) sample_finishDoc 3 et
          = Ok [([VInt 2], 0%Z)]
  | Throw _ => False
  end.
Proof.
  destruct (create (λ _, None) sample_finishDoc id (λ _, None) plain_query
                   (mkOptions true None) 5 rows_two) as [e|x] eqn:H.
  - apply (preTransaction_keeps_remaining_rows
             (λ _, None) sample_finishDoc id (λ _, None) plain_query
             (mkOptions true None) 5 rows_two
             [([VInt 1], 0%Z); ([VInt 2], 0%Z)] e 1 3).
    + reflexivity.
    + vm_compute. reflexivity.
    + exact H.
    + repeat constructor.
    + simpl. lia.
    + simpl. lia.
  - vm_compute in H. discriminate H.
Defined.

(** X13. Counting in mid-iteration.  Asked for the row count after any
    number of rows read, a one-shot enumerator over a result set whose rows all
    encode answers with the size of the whole result set, having
    fast-forwarded to its end; the caller still gets every remaining
    row. *)
Theorem getRowCount_counts_every_row
    ftd fd conv asDict q opts seq rows recs e k fuel :
  oneShot opts = true →
  (Z.of_nat (length rows) < 2 ^ 62)%Z →
  create ftd fd conv asDict q opts seq rows = Ok e →
  Forall2 (λ row rec, readRow ftd q row = Ok rec) rows recs →
  (k ≤ length rows)%nat → (length rows < fuel)%nat →
  ∃ ek eg,
    nexts ftd fd k e = (Ok true, ek)
    ∧ getRowCount ftd fd ek = (Ok (Z.of_nat (length rows)), eg)
    ∧ collect ftd fd fuel eg = Ok (drop k recs).
Proof.
  intros Hone Hlen Hcreate Hrecs Hk Hfuel.
  destruct (readRow_shown ftd q rows recs Hrecs) as (pairs & Hall & ->).
  destruct (create_one_shot_state _ _ _ _ _ _ _ _ pairs _ Hone Hcreate)
    as [He _].
  destruct (nexts_from_start ftd fd q opts rows pairs k e Hall Hlen He Hk)
    as (ek & Hnexts & Hek).
  exists ek. unfold getRowCount.
  assert (∃ eg, fastForward ftd fd ek = (Ok (), eg)
                ∧ match k with
                  | O => before_first q opts rows pairs eg
                  | S r => standing_on q opts rows pairs r eg
                  end
                ∧ _rowCount eg = Z.of_nat (length rows))
    as (eg & Hff & Heg & Hrc).
  { destruct k as [|r].
    - destruct (fastForward_before_first ftd fd q opts rows pairs Hall Hlen
                  ek Hek) as (eg & ? & ? & _ & ? & _).
      by exists eg.
    - destruct (fastForward_standing_on ftd fd q opts rows pairs Hall Hlen
                  r ek Hek) as (eg & ? & ? & _ & ? & _).
      by exists eg. }
  exists eg. rewrite Hff, Hrc, sint64_small by lia.
  split; [exact Hnexts|]. split; [reflexivity|].
  by apply (collect_from ftd fd q opts rows).
Qed.

Lemma getRowCount_counts_every_row_witness :
  match create (λ _, None) sample_finishDoc id (λ _, None) plain_query
               (mkOptions true None) 5 rows_two with
  | Ok e =>
      ∃ ek eg,
        nexts (λ _, None) sample_finishDoc 1 e = (Ok true, ek)
        ∧ getRowCount (λ _, None) sample_finishDoc ek = (Ok 2%Z, eg)
        ∧ collect (λ _, None) sample_finishDoc 3 eg
          = Ok [([VInt 2], 0%Z)]
  | Throw _ => False
  end.
Proof.
  destruct (create (λ _, None) sample_finishDoc id (λ _, None) plain_query
                   (mkOptions true None) 5 rows_two) as [e|x] eqn:H.
  - apply (getRowCount_counts_every_row
             (λ _, None) sample_finishDoc id (λ _, None) plain_query
             (mkOptions true None) 5 rows_two
             [([VInt 1], 0%Z); ([VInt 2], 0%Z)] e 1 3).
    + reflexivity.
    + vm_compute. reflexivity.
    + exact H.
    + repeat constructor.
    + simpl. lia.
    + simpl. lia.
  - vm_compute in H. discriminate H.
Defined.

End PagingLaws.

(** ** Binding parameters *)

Module BindParametersLaws.
Import SQLiteQuery Scenarios SQLiteQueryFacts.

Lemma bindValue_outcome q key val b :
  match bindValue q key val b with
  | Ok b' => bindable q (key, val) = true
             ∧ (val ≠ VNull → is_Some (b' !! ("$_" ++ key)))
             ∧ ∀ k, is_Some (b !! k) → is_Some (b' !! k)
  | Throw x => x = InvalidQueryParam ∧ bindable q (key, val) = false
  end.
Proof.
  assert (Hins : ∀ x k, is_Some (b !! k) →
            is_Some (<["$_" ++ key := x]> b !! k)).
  { intros x k Hk. destruct (decide (k = "$_" ++ key)) as [->|?].
    - rewrite lookup_insert_eq. eauto.
    - by rewrite lookup_insert_ne. }
  unfold bindValue, bind, bindable.
  destruct val; simpl; try done; case_decide; simpl;
    try (split; [by apply bool_decide_eq_true_2|split; [|by auto]];
         intros _; rewrite lookup_insert_eq; eauto);
    split; (done || by apply bool_decide_eq_false_2).
Qed.

Lemma bindEntries_outcome q entries : ∀ u b,
  match bindEntries q entries u b with
  | Ok (u', b') =>
      forallb (bindable q) entries = true
      ∧ u' = u ∖ list_to_set entries.*1
      ∧ (∀ k v, (k, v) ∈ entries → v ≠ VNull →
           is_Some (b' !! ("$_" ++ k)))
      ∧ ∀ k, is_Some (b !! k) → is_Some (b' !! k)
  | Throw x => x = InvalidQueryParam ∧ forallb (bindable q) entries = false
  end.
Proof.
  induction entries as [|[key val] rest IH]; intros u b.
  - simpl. repeat split; [|by intros ?? ?%elem_of_nil|done].
    by rewrite difference_empty_L.
  - cbn [bindEntries forallb].
    pose proof (bindValue_outcome q key val b) as Hv.
    destruct (bindValue q key val b) as [b1|x]; simpl.
    + destruct Hv as (Hk & Hbound & Hmono). rewrite Hk.
      specialize (IH (u ∖ {[key]}) b1).
      destruct (bindEntries q rest (u ∖ {[key]}) b1) as [[u' b']|x].
      * destruct IH as (Hall & -> & Hb & Hmono').
        split; [done|]. split; [by rewrite difference_difference_l_L|]. split.
        -- intros k v [Heq|Hin]%elem_of_cons Hnn.
           ++ injection Heq as -> ->. by apply Hmono', Hbound.
           ++ by apply (Hb k v).
        -- intros k Hk'. by apply Hmono', Hmono.
      * by destruct IH as [-> ->].
    + by destruct Hv as [-> ->].
Qed.

(** X14. What binding leaves.  [bindParameters] throws InvalidParameter
    when the bindings are not a dictionary; otherwise it succeeds exactly
    when every entry with a value that is not null names a parameter of
    the compiled statement, and throws InvalidQueryParam if one does not.
    When it succeeds, the parameters left unbound are those that were
    unbound before minus every key of the dictionary (keys with a null
    value included), every key with a value that is not null is bound,
    nothing bound before is lost, and nothing else in the enumerator
    changes. *)
Theorem bindParameters_outcome convertJSON asDictFromData json e :
  match asDictFromData (if looksLikeJSON json then convertJSON json
                        else json) with
  | None =>
      bindParameters convertJSON asDictFromData json e
      = Throw InvalidParameter
  | Some root =>
      if forallb (bindable (_query e)) root
      then ∃ b',
          bindParameters convertJSON asDictFromData json e
          = Ok (set_binding (_unboundParameters e ∖ list_to_set root.*1)
                            b' e)
          ∧ (∀ k v, (k, v) ∈ root → v ≠ VNull →
               is_Some (b' !! ("$_" ++ k)))
          ∧ ∀ k, is_Some (_bindings e !! k) → is_Some (b' !! k)
      else bindParameters convertJSON asDictFromData json e
           = Throw InvalidQueryParam
  end.
Proof.
  unfold bindParameters.
  destruct (asDictFromData _) as [root|]; [|done].
  pose proof (bindEntries_outcome (_query e) root (_unboundParameters e)
                (_bindings e)) as H.
  destruct (bindEntries _ root _ _) as [[u' b']|x]; simpl.
  - destruct H as (-> & -> & Hb & Hmono). by exists b'.
  - by destruct H as [-> ->].
Qed.

End BindParametersLaws.

(** ** Peer checkpoints and changes *)

Module DBActorLaws.
Import DBActor Scenarios DBActorFacts.

(** *** Checkpoints *)

Lemma respond_rev_inj (r r' : string) :
  [respond {["rev" := r]}] = [respond {["rev" := r']}] → r = r'.
Proof.
  intros H.
  assert (Hm : ({["rev" := r]} : gmap string string) = {["rev" := r']})
    by congruence.
  apply (f_equal (λ m : gmap string string, m !! "rev")) in Hm.
  rewrite !lookup_singleton_eq in Hm. congruence.
Qed.

(** X16. Set, then get.  When [handleSetCheckpoint] answers with a rev, a
    later getCheckpoint request of the same client, served by a database
    whose read works, is answered with that rev and the body that was
    set. *)
Theorem handleGetCheckpoint_after_set env env' request request' db rev :
  (handleSetCheckpoint env request db).1 = [respond {["rev" := rev]}] →
  property "client" request' = property "client" request →
  readFails env' = false →
  handleGetCheckpoint env' request' (handleSetCheckpoint env request db).2
  = Ok (respond {["rev" := rev]}, Some (requestBody request)).
Proof.
  unfold handleSetCheckpoint, handleGetCheckpoint.
  intros Hset Hclient Hread.
  unfold getPeerCheckpointDoc at 1. rewrite Hclient, Hread.
  unfold getPeerCheckpointDoc in *.
  destruct (property "client" request) as [checkpointID|];
    [|destruct (beginOK env); simplify_eq].
  destruct (match (if readFails env then None else db !! checkpointID) with
            | Some d => inr (checkpointID, Some d)
            | None =>
                if false || negb ((if readFails env then 502 else 404) =? 404)%Z
                then inl (respondWithError "HTTP"
                            (if readFails env then 502 else 404)%Z)
                else inr (checkpointID, None)
            end) as [r|[cid doc]] eqn:Hget.
  - destruct (beginOK env); simpl in Hset; [|simplify_eq].
    injection Hset as ->. repeat case_match; simplify_eq.
  - assert (cid = checkpointID) as ->
      by (repeat case_match; simplify_eq; done).
    destruct (negb (slice_eqb (property "rev" request) (meta <$> doc)));
      [destruct (beginOK env); simplify_eq|].
    destruct (putOK env && commitOK env);
      [|destruct (beginOK env); simplify_eq].
    cbn [fst snd] in *. rewrite lookup_insert_eq.
    assert (Hsent : (if beginOK env then [] else [respondWithError "HTTP" 502])
                    = []).
    { destruct (beginOK env); [done|]. simpl in Hset. simplify_eq. }
    rewrite Hsent in Hset. simpl in Hset.
    by rewrite (respond_rev_inj _ _ Hset).
Qed.

Lemma handleGetCheckpoint_after_set_witness :
  handleGetCheckpoint sample_env
    (mkMessageIn {["client" := "peer1"]} "")
    (handleSetCheckpoint sample_env sample_request sample_store).2
  = Ok (respond {["rev" := "4-cc"]}, Some "[9]").
Proof.
  apply (handleGetCheckpoint_after_set sample_env sample_env sample_request
           (mkMessageIn {["client" := "peer1"]} "") sample_store "4-cc").
  - vm_compute. reflexivity.
  - vm_compute. reflexivity.
  - reflexivity.
Defined.

(** One [setCheckpoint] of a peer that presents the stored rev, on a
    database that works. *)
Lemma handleSetCheckpoint_next env client rev data db (k : N) :
  beginOK env = true → readFails env = false →
  putOK env = true → commitOK env = true →
  (Z.of_N k < LONG_MAX)%Z →
  (k = 0%N ∧ rev = None ∧ db !! client = None
   ∨ ∃ old, rev = Some (pretty k +:+ "-cc")
            ∧ db !! client = Some (mkRawDocument (pretty k +:+ "-cc") old)) →
  handleSetCheckpoint env
    (mkMessageIn (match rev with
                  | Some r => {["client" := client; "rev" := r]}
                  | None => {["client" := client]}
                  end) data) db
  = ([respond {["rev" := pretty (k + 1)%N +:+ "-cc"]}],
     <[client := mkRawDocument (pretty (k + 1)%N +:+ "-cc") data]> db).
Proof.
  intros Hb Hr Hp Hc Hk Hstate.
  unfold handleSetCheckpoint, getPeerCheckpointDoc, property.
  rewrite Hb, Hr, Hp, Hc.
  destruct Hstate as [(-> & -> & Hdb)|(old & -> & Hdb)];
    cbn [properties requestBody].
  - rewrite lookup_singleton_eq, lookup_singleton_ne, Hdb by done.
    reflexivity.
  - rewrite lookup_insert_eq, lookup_insert_ne, lookup_singleton_eq, Hdb
      by done.
    cbn [fmap option_fmap option_map meta negb orb andb Z.eqb].
    unfold slice_eqb. rewrite bool_decide_eq_true_2 by done.
    cbn [negb andb app]. rewrite newRev_next by lia. done.
Qed.

(** X17. Generations.  A peer that starts without a checkpoint and saves
    one checkpoint after another on a database that works, presenting
    each time the rev it was given last, is given the revs "1-cc", "2-cc"
    and so on; after [n] saves the stored checkpoint has the rev
    "[n]-cc" and the body saved last. *)
Theorem setCheckpoints_counts_generations env client bodies db :
  beginOK env = true → readFails env = false →
  putOK env = true → commitOK env = true →
  db !! client = None →
  (Z.of_nat (length bodies) < LONG_MAX)%Z →
  setCheckpoints env client None bodies db
  = match last bodies with
    | None => (None, db)
    | Some data =>
        let rev := pretty (N.of_nat (length bodies)) +:+ "-cc" in
        (Some rev, <[client := mkRawDocument rev data]> db)
    end.
Proof.
  intros Hb Hr Hp Hc Hdb Hlen.
  assert (Hgen : ∀ bodies (k : N) rev db',
            (Z.of_N k + Z.of_nat (length bodies) < LONG_MAX)%Z →
            (k = 0%N ∧ rev = None ∧ db' !! client = None
             ∨ ∃ old, rev = Some (pretty k +:+ "-cc")
                  ∧ db' = <[client := mkRawDocument (pretty k +:+ "-cc") old]>
                            db) →
            (k = 0%N → db' = db) →
            setCheckpoints env client rev bodies db'
            = match last bodies with
              | None => (rev, db')
              | Some data =>
                  let rev := pretty (k + N.of_nat (length bodies))%N
                             +:+ "-cc" in
                  (Some rev, <[client := mkRawDocument rev data]> db)
              end).
  { clear bodies Hlen. induction bodies as [|data rest IH];
      intros k rev db' Hk Hstate Hzero; [done|].
    cbn [setCheckpoints].
    rewrite (handleSetCheckpoint_next env client rev data db' k)
      by (done || (simpl in Hk; lia)
          || (destruct Hstate as [?|(old & -> & ->)]; [by left|right];
              exists old; by rewrite lookup_insert_eq)).
    rewrite lookup_singleton_eq.
    assert (Hdb' : <[client := mkRawDocument (pretty (k + 1)%N +:+ "-cc")
                                             data]> db'
                   = <[client := mkRawDocument (pretty (k + 1)%N +:+ "-cc")
                                               data]> db).
    { destruct Hstate as [(-> & _ & _)|(old & _ & ->)].
      - by rewrite Hzero.
      - by rewrite insert_insert_eq. }
    rewrite Hdb'.
    rewrite (IH (k + 1)%N); [| simpl in Hk; lia | right; eauto | lia].
    rewrite last_cons. destruct (last rest) as [data'|] eqn:Hlast.
    - simpl.
      by replace (k + 1 + N.of_nat (length rest))%N
        with (k + N.pos (Pos.of_succ_nat (length rest)))%N by lia.
    - by apply last_None in Hlast as ->. }
  rewrite (Hgen bodies 0%N None db); [done|lia|by left|done].
Qed.

Lemma setCheckpoints_counts_generations_witness :
  setCheckpoints sample_env "peer2" None ["[1]"; "[2]"; "[3]"] sample_store
  = (Some "3-cc", <["peer2" := mkRawDocument "3-cc" "[3]"]> sample_store).
Proof.
  apply (setCheckpoints_counts_generations sample_env "peer2"
           ["[1]"; "[2]"; "[3]"] sample_store);
    try reflexivity.
Defined.

(** X18. A getCheckpoint request is always answered, and never through a
    null document: with BLIP 400 when it names no client, HTTP 502 when
    the read fails, HTTP 404 when the client has no checkpoint, and
    otherwise with the stored rev and body. *)
Theorem handleGetCheckpoint_answers env request db :
  handleGetCheckpoint env request db
  = Ok (match property "client" request with
        | None => (respondWithError "BLIP" 400, None)
        | Some checkpointID =>
            if readFails env then (respondWithError "HTTP" 502, None)
            else match db !! checkpointID with
                 | Some doc =>
                     (respond {["rev" := meta doc]}, Some (body doc))
                 | None => (respondWithError "HTTP" 404, None)
                 end
        end).
Proof.
  unfold handleGetCheckpoint, getPeerCheckpointDoc.
  destruct (property "client" request) as [checkpointID|]; [|done].
  destruct (readFails env); [done|].
  by destruct (db !! checkpointID).
Qed.

(** X19. What a setCheckpoint request gets back.  When the transaction
    begins, exactly one response is sent.  When it does not begin, HTTP
    502 is sent and the handler goes on as if it had begun: what follows,
    the second response and the change of the store, is what the same
    request gets from a database that differs only in that the
    transaction begins.  In either case the checkpoint store changes only
    together with a response that carries the new rev, and then holds
    that rev and the request's body under the client's ID. *)
Theorem handleSetCheckpoint_responses env request db :
  let r := handleSetCheckpoint env request db in
  let begun :=
    handleSetCheckpoint (mkEnv true (readFails env) (putOK env) (commitOK env))
                        request db in
  length begun.1 = 1%nat
  ∧ r = (if beginOK env then begun
         else (respondWithError "HTTP" 502 :: begun.1, begun.2))
  ∧ (∀ props, respond props ∈ r.1 →
       ∃ checkpointID rev,
         property "client" request = Some checkpointID
         ∧ props = {["rev" := rev]}
         ∧ r.2 = <[checkpointID := mkRawDocument rev (requestBody request)]>
                   db)
  ∧ ((∀ props, respond props ∉ r.1) → r.2 = db).
Proof.
  intros r begun. subst r begun. unfold handleSetCheckpoint.
  assert (Hget' : getPeerCheckpointDoc
                    (mkEnv true (readFails env) (putOK env) (commitOK env))
                    request false db
                  = getPeerCheckpointDoc env request false db) by done.
  rewrite Hget'. cbn [beginOK putOK commitOK].
  destruct (getPeerCheckpointDoc env request false db) as [resp|[cid doc]]
    eqn:Hget.
  - assert (Herr : ∃ d c, resp = respondWithError d c).
    { unfold getPeerCheckpointDoc in Hget.
      repeat case_match; simplify_eq; eauto. }
    destruct Herr as (d & c & ->).
    destruct (beginOK env); simpl; repeat split; try done;
      try (intros props Hin; no_such_response Hin);
      intros _ props Hin; no_such_response Hin.
  - assert (Hcid : property "client" request = Some cid).
    { unfold getPeerCheckpointDoc in Hget.
      repeat case_match; simplify_eq; done. }
    destruct (negb (slice_eqb (property "rev" request) (meta <$> doc))).
    + destruct (beginOK env); simpl; repeat split; try done;
        try (intros props Hin; no_such_response Hin);
        intros _ props Hin; no_such_response Hin.
    + destruct (beginOK env), (putOK env), (commitOK env); simpl;
        repeat split; try done;
        try (intros props Hin; no_such_response Hin);
        try (intros _ props Hin; no_such_response Hin).
      * intros props Hin.
        apply list_elem_of_singleton in Hin. injection Hin as ->. eauto.
      * intros Hnone. destruct (Hnone _ (list_elem_of_here _ _)).
      * intros props Hin. apply elem_of_cons in Hin as [Hin|Hin]; [done|].
        apply list_elem_of_singleton in Hin. injection Hin as ->. eauto.
      * intros Hnone.
        destruct (Hnone _ (list_elem_of_further _ _ _ (list_elem_of_here _ _))).
Qed.

(** *** Reading changes *)

Lemma getChanges_loop_result endError infos : ∀ limit changes,
  (0 ≤ limit < 2 ^ 32)%Z →
  getChanges_loop infos limit changes endError
  = ((changes ++ take (Z.to_nat limit) infos)%list,
     Z.max 0 (limit - Z.of_nat (length infos)),
     endError && (Z.of_nat (length infos) <=? limit)%Z).
Proof.
  induction infos as [|info rest IH]; intros limit changes Hlimit.
  - cbn [getChanges_loop length]. rewrite take_nil, app_nil_r.
    change (Z.of_nat 0) with 0%Z. rewrite Z.sub_0_r, Z.max_r by lia.
    destruct (Z.leb_spec 0 limit); [|lia]. by rewrite andb_true_r.
  - cbn [getChanges_loop]. destruct (Z.ltb_spec 0 limit) as [Hpos|Hzero].
    + unfold uint32. rewrite Z.mod_small by lia.
      rewrite IH by lia. rewrite <- app_assoc. simpl length.
      replace (Z.to_nat limit) with (S (Z.to_nat (limit - 1))) by lia.
      simpl.
      replace (limit - 1 - Z.of_nat (length rest))%Z
        with (limit - Z.of_nat (S (length rest)))%Z by lia.
      destruct (Z.leb_spec (Z.of_nat (length rest)) (limit - 1)),
               (Z.leb_spec (Z.of_nat (S (length rest))) limit);
        (done || lia).
    + assert (limit = 0%Z) as -> by lia. simpl.
      rewrite app_nil_r, andb_false_r. done.
Qed.

(** X20. [_getChanges] hands the pusher the first [limit] changes the
    enumeration gives, or all of them if they are fewer; it reports an
    error only if the enumeration could not be made or ran into one
    before [limit] was reached; and it starts observing the database only
    if asked to be continuous, no observer exists yet, and fewer than
    [limit] changes were found (or none could be enumerated): never
    while history may remain unread. *)
Theorem getChanges_up_to_limit enumerated endError limit continuous observer :
  (0 ≤ limit < 2 ^ 32)%Z →
  let infos := default [] enumerated in
  getChanges enumerated endError limit continuous observer
  = (take (Z.to_nat limit) infos,
     match enumerated with
     | Some _ => endError && (Z.of_nat (length infos) <=? limit)%Z
     | None => true
     end,
     continuous && negb observer
     && (Z.of_nat (length infos) <? limit)%Z).
Proof.
  intros Hlimit infos. subst infos. unfold getChanges.
  destruct enumerated as [infos|]; simpl.
  - rewrite getChanges_loop_result by done. simpl. f_equal.
    assert (Hleft : (0 <? Z.max 0 (limit - Z.of_nat (length infos)))%Z
                    = (Z.of_nat (length infos) <? limit)%Z).
    { destruct (Z.ltb_spec 0 (Z.max 0 (limit - Z.of_nat (length infos)))),
               (Z.ltb_spec (Z.of_nat (length infos)) limit); (done || lia). }
    rewrite Hleft. by destruct continuous, observer, (_ <? limit)%Z.
  - rewrite take_nil. f_equal. change (Z.of_nat 0) with 0%Z.
    by destruct continuous, observer, (0 <? limit)%Z.
Qed.

Lemma getChanges_up_to_limit_witness :
  getChanges (Some ["a"; "b"; "c"]) false 2 true false
  = (["a"; "b"], false, false).
Proof.
  apply (getChanges_up_to_limit (Some ["a"; "b"; "c"]) false 2 true false).
  split; [by vm_compute|reflexivity].
Defined.

(** *** The insertion queue *)

Lemma begun_snoc answers : ∀ revs i rev,
  begun answers i (revs ++ [rev])
  = (begun answers i revs
     ++ if txBegin (answers (i + length revs)%nat) then [rev] else [])%list.
Proof.
  induction revs as [|r revs IH]; intros i rev.
  - cbn [app begun length]. rewrite Nat.add_0_r.
    by destruct (txBegin (answers i)).
  - cbn [app begun length]. rewrite IH.
    replace (S i + length revs)%nat with (i + S (length revs))%nat by lia.
    by destruct (txBegin (answers i)).
Qed.

Lemma insertOne_accounted answers st rev :
  accounted answers st →
  accounted answers (insertOne answers st rev)
  ∧ (outcomes (insertOne answers st rev)).*1
    = ((outcomes st).*1 ++ [rev])%list
  ∧ _revsToInsert (insertOne answers st rev) = _revsToInsert st
  ∧ scheduled (insertOne answers st rev) = scheduled st.
Proof.
  intros [Hputs Hok]. unfold insertOne, accounted. cbv zeta.
  cbn [puts outcomes _revsToInsert scheduled].
  split; [split|].
  - rewrite fmap_app. cbn [fmap list_fmap fst].
    rewrite begun_snoc, fmap_app, <- Hputs, Nat.add_0_l, length_fmap.
    destruct (txBegin (answers (length (outcomes st)))); [done|].
    by rewrite app_nil_r.
  - intros i r ok Hi.
    destruct (decide (i < length (outcomes st))%nat) as [Hlt|Hge].
    + rewrite lookup_app_l in Hi by done. by eapply Hok.
    + rewrite lookup_app_r in Hi by lia.
      destruct (i - length (outcomes st))%nat as [|k] eqn:Hk; [|done].
      cbn in Hi. injection Hi as <- <-.
      by replace i with (length (outcomes st)) by lia.
  - by rewrite fmap_app.
Qed.

Lemma foldl_insertOne_accounted answers : ∀ revs st,
  accounted answers st →
  accounted answers (foldl (insertOne answers) st revs)
  ∧ (outcomes (foldl (insertOne answers) st revs)).*1
    = ((outcomes st).*1 ++ revs)%list
  ∧ scheduled (foldl (insertOne answers) st revs) = scheduled st.
Proof.
  induction revs as [|rev revs IH]; intros st Hst.
  - cbn [foldl]. by rewrite app_nil_r.
  - cbn [foldl].
    destruct (insertOne_accounted answers st rev Hst)
      as (Hst' & Hout & _ & Hsched).
    destruct (IH _ Hst') as (Hacc & Hout' & Hsched').
    split; [done|]. rewrite Hout', Hout, Hsched', Hsched.
    by rewrite <- app_assoc.
Qed.

Lemma insertRevisionsNow_accounted answers st :
  accounted answers st →
  let st' := insertRevisionsNow answers st in
  accounted answers st'
  ∧ (outcomes st').*1 = ((outcomes st).*1 ++ _revsToInsert st)%list
  ∧ _revsToInsert st' = [] ∧ scheduled st' = scheduled st.
Proof.
  intros Hst. unfold insertRevisionsNow.
  destruct (_revsToInsert st) as [|rev revs] eqn:Hq.
  - cbv zeta. by rewrite app_nil_r, Hq.
  - destruct (foldl_insertOne_accounted answers (rev :: revs) st Hst)
      as (Hacc & Hout & Hsched).
    cbv zeta. cbn [outcomes _revsToInsert scheduled]. done.
Qed.

(** X21. Every revision is gone through.  Whatever revisions arrive,
    whenever the scheduled calls run and however the database answers:
    the revisions gone through so far followed by those still queued
    are all revisions that arrived, in their order of arrival, each
    once; [c4doc_put] has been given the requests of exactly those gone
    through whose transaction began, the others none; the error of a
    revision is cleared exactly when its begin, put and commit worked;
    the queue never holds more than [kMaxRevsToInsert] revisions between
    two events; and while it holds any, a call of [_insertRevisionsNow]
    is scheduled, so that none is left behind. *)
Theorem insertion_queue_goes_through_every_revision answers events :
  let st := foldl (inserterStep answers) (mkInserter [] 0 [] []) events in
  ((outcomes st).*1 ++ _revsToInsert st)%list = revsOf events
  ∧ puts st = putRequestOf <$> begun answers 0 (outcomes st).*1
  ∧ (∀ (i : nat) rev ok, outcomes st !! i = Some (rev, ok) →
       ok = txBegin (answers i) && docPut (answers i) && txCommit (answers i))
  ∧ (length (_revsToInsert st) ≤ kMaxRevsToInsert)%nat
  ∧ (_revsToInsert st ≠ [] → (0 < scheduled st)%nat).
Proof.
  cbv zeta.
  enough (H : let st := foldl (inserterStep answers) (mkInserter [] 0 [] [])
                              events in
              accounted answers st
              ∧ ((outcomes st).*1 ++ _revsToInsert st)%list = revsOf events
              ∧ (length (_revsToInsert st) ≤ kMaxRevsToInsert)%nat
              ∧ (_revsToInsert st ≠ [] → (0 < scheduled st)%nat)).
  { destruct H as ([Hputs Hok] & Hall & Hlen & Hsched). done. }
  induction events as [|ev events IH] using rev_ind.
  { cbn. repeat split; [done|unfold kMaxRevsToInsert; lia|done]. }
  cbv zeta in *. rewrite foldl_app. cbn [foldl].
  set (st := foldl (inserterStep answers) (mkInserter [] 0 [] []) events) in *.
  destruct IH as (Hacc & Hall & Hlen & Hsched).
  unfold revsOf in *. rewrite bind_app, <- Hall. clear Hall.
  destruct ev as [rev|]; cbn [inserterStep mbind list_bind app].
  - unfold insertRevision.
    assert (Hacc1 : accounted answers
                      (mkInserter (_revsToInsert st ++ [rev]) (scheduled st)
                                  (puts st) (outcomes st))) by exact Hacc.
    cbn [_revsToInsert scheduled puts outcomes].
    destruct (Nat.eqb_spec (length (_revsToInsert st)) 0) as [Hempty|Hsome].
    + apply nil_length_inv in Hempty. rewrite Hempty.
      cbn [_revsToInsert scheduled puts outcomes app length].
      split; [exact Hacc|]. split; [by rewrite app_nil_r|].
      split; [unfold kMaxRevsToInsert; lia|intros _; lia].
    + destruct (Nat.leb_spec kMaxRevsToInsert (length (_revsToInsert st)))
        as [Hfull|Hroom].
      * destruct (insertRevisionsNow_accounted answers _ Hacc1)
          as (Hacc' & Hout' & Hq' & Hsched').
        split; [exact Hacc'|]. rewrite Hout', Hq'.
        cbn [_revsToInsert outcomes length]. rewrite !app_nil_r, app_assoc.
        repeat split; [lia|done].
      * cbn [_revsToInsert scheduled puts outcomes].
        split; [exact Hacc|]. rewrite app_assoc, length_app.
        cbn [length]. repeat split; [lia|]. intros _. apply Hsched.
        intros Hq. by rewrite Hq in Hsome.
  - rewrite app_nil_r.
    destruct (scheduled st) as [|n] eqn:Hn.
    + rewrite Hn. repeat split; try apply Hacc; done.
    + assert (Hacc1 : accounted answers
                        (mkInserter (_revsToInsert st) n (puts st)
                                    (outcomes st))) by exact Hacc.
      destruct (insertRevisionsNow_accounted answers _ Hacc1)
        as (Hacc' & Hout' & Hq' & Hsched').
      split; [exact Hacc'|]. rewrite Hout', Hq'.
      cbn [_revsToInsert outcomes length]. rewrite !app_nil_r.
      repeat split; [lia|done].
Qed.

(** *** The history string *)

Lemma append_cons c (s t : string) : String c s +:+ t = String c (s +:+ t).
Proof. reflexivity. Qed.

Lemma append_assoc (a b c : string) : (a +:+ b) +:+ c = a +:+ (b +:+ c).
Proof.
  induction a as [|x a IH]; [reflexivity|].
  by rewrite !append_cons, IH.
Qed.

Lemma append_nil_r (a : string) : a +:+ "" = a.
Proof. induction a as [|x a IH]; [reflexivity|]. by rewrite append_cons, IH. Qed.

(** Cutting passes over a piece without comma. *)
Lemma splitHistory_from_piece r : ∀ t piece,
  no_comma r = true →
  splitHistory_from (r +:+ t) piece = splitHistory_from t (piece +:+ r).
Proof.
  induction r as [|c r IH]; intros t piece Hr.
  - by rewrite append_nil_r.
  - rewrite append_cons. cbn [no_comma] in Hr.
    assert (Hstep : splitHistory_from (String c (r +:+ t)) piece
                    = splitHistory_from (r +:+ t) (piece +:+ String c "")).
    { cbn [splitHistory_from].
      destruct c as [[] [] [] [] [] [] [] []]; try reflexivity. done. }
    rewrite Hstep, IH.
    + by rewrite append_assoc.
    + destruct c as [[] [] [] [] [] [] [] []]; try done.
Qed.

Lemma plainRevID_inv r :
  plainRevID r = true → no_comma r = true ∧ ∃ c r', r = String c r'.
Proof.
  unfold plainRevID. intros [Hne Hnc]%andb_true_iff. split; [done|].
  destruct r as [|c r']; [done|eauto].
Qed.

(** The stream from round [n ≥ 1] on, cut after the piece before it. *)
Lemma splitHistory_stream maxHistory ancestors parents : ∀ n piece,
  Forall (λ r, plainRevID r = true) parents →
  (0 < n)%nat →
  splitHistory_from (historyStream n maxHistory ancestors parents) piece
  = piece :: historyList (maxHistory - n) ancestors parents.
Proof.
  induction parents as [|r parents IH]; intros n piece Hplain Hn.
  - cbn [historyStream]. destruct (n <? maxHistory)%nat; cbn;
      by destruct (maxHistory - n)%nat.
  - apply Forall_cons in Hplain as [Hr Hplain].
    destruct (plainRevID_inv r Hr) as (Hnc & c & r' & Hc).
    cbn [historyStream].
    destruct (Nat.ltb_spec n maxHistory) as [Hlt|Hge].
    + destruct (Nat.ltb_spec 0 n) as [_|?]; [|lia].
      replace (maxHistory - n)%nat with (S (maxHistory - S n)) by lia.
      cbn [historyList].
      rewrite (append_cons "," "").
      change ("" +:+ ?x) with x.
      cbn [splitHistory_from]. f_equal.
      assert (Hne : ∀ t, r +:+ t ≠ "") by (intros t; by rewrite Hc).
      destruct (r +:+ _) as [|c0 s0] eqn:Hs; [by destruct (Hne _ Hs)|].
      rewrite <- Hs. rewrite splitHistory_from_piece by done.
      change ("" +:+ r) with r.
      destruct (decide (r ∈ ancestors)); [done|].
      by apply IH; [|lia].
    + replace (maxHistory - n)%nat with 0%nat by lia. done.
Qed.

(** X22. The history travels unharmed.  What [_insertRevisionsNow] cuts
    out of the history string that [_sendRevision] wrote is the list of
    revisions the sender went through, provided no revision ID is empty
    or holds a comma. *)
Theorem history_read_back maxHistory ancestors parents :
  Forall (λ r, plainRevID r = true) parents →
  splitHistory (historyStream 0 maxHistory ancestors parents)
  = historyList maxHistory ancestors parents.
Proof.
  intros Hplain. destruct parents as [|r parents].
  - cbn. destruct maxHistory; [done|]. by destruct maxHistory.
  - apply Forall_cons in Hplain as [Hr Hplain].
    destruct (plainRevID_inv r Hr) as (Hnc & c & r' & Hc).
    destruct maxHistory as [|m]; [done|].
    cbn [historyStream historyList]. change (0 <? S m)%nat with true.
    change (0 <? 0)%nat with false. cbv iota.
    change ("" +:+ ?x) with x.
    assert (Hne : ∀ t, r +:+ t ≠ "") by (intros t; by rewrite Hc).
    unfold splitHistory.
    destruct (r +:+ _) as [|c0 s0] eqn:Hs; [by destruct (Hne _ Hs)|].
    rewrite <- Hs. rewrite splitHistory_from_piece by done.
    change ("" +:+ r) with r.
    destruct (decide (r ∈ ancestors)); [done|].
    rewrite splitHistory_stream by (done || lia).
    by replace (S m - 1)%nat with m by lia.
Qed.

Lemma history_read_back_witness :
  splitHistory (historyStream 0 5 {["2-bb"]} ["3-cc"; "2-bb"; "1-aa"])
  = ["3-cc"; "2-bb"].
Proof.
  rewrite (history_read_back 5 {["2-bb"]} ["3-cc"; "2-bb"; "1-aa"]).
  - vm_compute. reflexivity.
  - repeat constructor.
Defined.

(** Each further round of the loop writes a comma and a revision. *)
Lemma historyStream_later ancestors : ∀ parents n maxHistory,
  (0 < n)%nat →
  historyStream n maxHistory ancestors parents
  = foldr (λ r acc, "," +:+ r +:+ acc) ""
          (historyList (maxHistory - n) ancestors parents).
Proof.
  induction parents as [|r parents IH]; intros n maxHistory Hn.
  - cbn [historyStream]. destruct (n <? maxHistory)%nat;
      by destruct (maxHistory - n)%nat.
  - cbn [historyStream].
    destruct (Nat.ltb_spec n maxHistory) as [Hlt|Hge].
    + destruct (Nat.ltb_spec 0 n) as [_|?]; [|lia].
      replace (maxHistory - n)%nat with (S (maxHistory - S n)) by lia.
      cbn [historyList foldr].
      destruct (decide (r ∈ ancestors)); [done|].
      by rewrite IH by lia.
    + by replace (maxHistory - n)%nat with 0%nat by lia.
Qed.

Lemma concat_commas r l :
  String.concat "," (r :: l)
  = r +:+ foldr (λ r acc, "," +:+ r +:+ acc) "" l.
Proof.
  revert r. induction l as [|r' l IH]; intros r.
  - cbn. by rewrite append_nil_r.
  - change (String.concat "," (r :: r' :: l))
      with (r +:+ "," +:+ String.concat "," (r' :: l)).
    by rewrite IH.
Qed.

(** The string the loop of [_sendRevision] writes: the revisions it goes
    through, with commas between them. *)
Lemma historyStream_joined maxHistory ancestors parents :
  historyStream 0 maxHistory ancestors parents
  = String.concat "," (historyList maxHistory ancestors parents).
Proof.
  destruct parents as [|r parents], maxHistory as [|m]; try done.
  cbn [historyStream historyList]. rewrite (concat_commas r).
  change (0 <? S m)%nat with true. change (0 <? 0)%nat with false.
  cbv iota. change ("" +:+ ?x) with x.
  destruct (decide (r ∈ ancestors)); [done|].
  rewrite historyStream_later by lia.
  by replace (S m - 1)%nat with m by lia.
Qed.

(** X23. How far the history goes.  The string [_sendRevision] writes
    into [historyStream] holds the first [k] parents, nearest first, with
    commas between them, for some [k] that is at most [maxHistory]; none
    but the last of them is an ancestor the peer is known to have; and
    the history stops short of both [maxHistory] and the root only at
    such an ancestor. *)
Theorem history_stops_at_known_ancestor maxHistory ancestors parents :
  ∃ k : nat,
    historyStream 0 maxHistory ancestors parents
    = String.concat "," (take k parents)
    ∧ historyList maxHistory ancestors parents = take k parents
    ∧ (k ≤ maxHistory)%nat ∧ (k ≤ length parents)%nat
    ∧ (∀ (i : nat) r, (S i < k)%nat → parents !! i = Some r → r ∉ ancestors)
    ∧ ((k < maxHistory)%nat → (k < length parents)%nat →
       ∃ j r, k = S j ∧ parents !! j = Some r ∧ r ∈ ancestors).
Proof.
  rewrite historyStream_joined.
  enough (H : ∃ k : nat,
            historyList maxHistory ancestors parents = take k parents
            ∧ (k ≤ maxHistory)%nat ∧ (k ≤ length parents)%nat
            ∧ (∀ (i : nat) r, (S i < k)%nat → parents !! i = Some r →
                 r ∉ ancestors)
            ∧ ((k < maxHistory)%nat → (k < length parents)%nat →
               ∃ j r, k = S j ∧ parents !! j = Some r ∧ r ∈ ancestors)).
  { destruct H as (k & Hk & H). exists k. by rewrite Hk. }
  revert maxHistory. induction parents as [|r parents IH]; intros maxHistory.
  - exists 0%nat. destruct maxHistory; simpl; repeat split; try lia; done.
  - destruct maxHistory as [|m].
    { exists 0%nat. simpl. repeat split; try lia; done. }
    cbn [historyList]. destruct (decide (r ∈ ancestors)) as [Hin|Hout].
    + exists 1%nat. simpl. repeat split; try lia.
      intros _ _. exists 0%nat, r. done.
    + destruct (IH m) as (k & Hk & Hm & Hlen & Hnone & Hstop).
      exists (S k). rewrite Hk. simpl. repeat split; try lia.
      * intros [|i] r0 Hi Hr0; simpl in Hr0; [by simplify_eq|].
        apply (Hnone i); [lia|done].
      * intros Hlt Hlt'. destruct Hstop as (j & r0 & -> & Hj & Hr0); [lia..|].
        exists (S j), r0. done.
Qed.

(** *** The response to a "changes" message *)

Lemma trim_zeros_snoc_zero l :
  trim_zeros (l ++ [writeInt0]) = trim_zeros l.
Proof. unfold trim_zeros. by rewrite reverse_snoc. Qed.

Lemma trim_zeros_snoc_ancestors l a :
  trim_zeros (l ++ [writeAncestors a]) = (l ++ [writeAncestors a])%list.
Proof.
  unfold trim_zeros. rewrite reverse_snoc. cbn [drop_zeros].
  by rewrite reverse_cons, reverse_involutive.
Qed.

(** A response array is its trimmed part followed by zeros. *)
Lemma trim_zeros_decompose l :
  ∃ k : nat, l = (trim_zeros l ++ replicate k writeInt0)%list
    ∧ length l = (length (trim_zeros l) + k)%nat.
Proof.
  induction l as [|x l IH] using rev_ind.
  - by exists 0%nat.
  - destruct x as [|a].
    + destruct IH as (k & Hl & Hlen). exists (S k).
      rewrite trim_zeros_snoc_zero, length_app. cbn [length].
      split; [|lia].
      rewrite replicate_S_end, app_assoc. by rewrite <- Hl.
    + exists 0%nat. rewrite trim_zeros_snoc_ancestors. simpl.
      by rewrite app_nil_r, Nat.add_0_r.
Qed.

Lemma writeZeros_result : ∀ fuel itemsWritten i out,
  (0 ≤ itemsWritten ≤ i)%Z → (i < 2 ^ 32 - 1)%Z →
  (Z.to_nat (i - itemsWritten) < fuel)%nat →
  writeZeros fuel itemsWritten i out
  = (Z.max (itemsWritten + 1) i,
     (out ++ replicate (Z.to_nat (i - itemsWritten - 1)) writeInt0)%list).
Proof.
  induction fuel as [|fuel IH]; intros w i out Hw Hi Hfuel; [lia|].
  cbn [writeZeros]. unfold uint32. rewrite Z.mod_small by lia.
  destruct (Z.ltb_spec (w + 1) i) as [Hlt|Hge].
  - rewrite IH by lia. rewrite <- app_assoc. f_equal; [lia|]. f_equal.
    replace (Z.to_nat (i - w - 1)) with (S (Z.to_nat (i - (w + 1) - 1)))
      by lia.
    done.
  - replace (Z.to_nat (i - w - 1)) with 0%nat by lia.
    rewrite app_nil_r. f_equal. lia.
Qed.

Section FindOrRequestRevs.
Variable findAncestors : string → string → bool * list string.
Variable callback : bool.

(** One round of the loop, on a valid item. *)
Lemma findOrRequestRevs_loop_cons change rest st :
  validChange change = true →
  findOrRequestRevs_loop findAncestors callback (change :: rest) st
  = findOrRequestRevs_loop findAncestors callback rest
      (if requestedChange findAncestors change
       then
         let '(itemsWritten, out) :=
           writeZeros (S (Z.to_nat (find_i st))) (find_itemsWritten st)
                      (find_i st) (find_out st) in
         mkFindState (uint32 (find_i st + 1)) itemsWritten
           (uint32 (find_requested st + 1))
           (out ++ [entryOf findAncestors change])
           (if callback
            then (find_requestedSequences st
                  ++ option_list (changeSequence change))%list
            else find_requestedSequences st)
       else mkFindState (uint32 (find_i st + 1)) (find_itemsWritten st)
              (find_requested st) (find_out st)
              (find_requestedSequences st)).
Proof.
  unfold validChange, requestedChange, entryOf.
  intros [[d Hd]%bool_decide_eq_true [r Hr]%bool_decide_eq_true]%andb_true_iff.
  cbn [findOrRequestRevs_loop]. rewrite Hd, Hr.
  destruct (findAncestors d r) as [[] ancestors]; cbn [is_zero negb].
  - reflexivity.
  - destruct (writeZeros _ _ _ _) as [w out]. cbn.
    destruct callback; [|reflexivity].
    destruct (changeSequence change); cbn; [reflexivity|].
    by rewrite app_nil_r.
Qed.

Lemma requestedChange_entry change :
  requestedChange findAncestors change = true →
  ∃ a, entryOf findAncestors change = writeAncestors a.
Proof.
  unfold requestedChange. destruct (entryOf findAncestors change); [done|eauto].
Qed.

Lemma not_requestedChange_entry change :
  requestedChange findAncestors change = false →
  entryOf findAncestors change = writeInt0.
Proof.
  unfold requestedChange. by destruct (entryOf findAncestors change).
Qed.

Lemma sequencesOf_snoc changes change :
  sequencesOf findAncestors callback (changes ++ [change])
  = (sequencesOf findAncestors callback changes
     ++ if callback && requestedChange findAncestors change
        then option_list (changeSequence change) else [])%list.
Proof.
  unfold sequencesOf. destruct callback; [|done]. cbn [andb].
  rewrite filter_app, bind_app.
  destruct (requestedChange findAncestors change) eqn:Hreq.
  - rewrite filter_cons_True by done. cbn. by rewrite app_nil_r.
  - rewrite filter_cons_False by (by rewrite Hreq). done.
Qed.

(** After a revision that is not asked for: the entries written are
    [leading], those of the items before it, and then the entries of the
    items [seen] since, without trailing zeros. *)
Lemma findOrRequestRevs_loop_after_known leading first : ∀ rest seen st,
  Forall (λ c, validChange c = true) rest →
  (Z.of_nat (length first + length seen + length rest) < 2 ^ 32 - 1)%Z →
  find_i st = Z.of_nat (length first + length seen) →
  (length first = S (length leading)) →
  find_out st
  = (leading ++ trim_zeros (entryOf findAncestors <$> seen))%list →
  find_itemsWritten st = Z.of_nat (length (find_out st)) →
  find_requestedSequences st
  = sequencesOf findAncestors callback (first ++ seen) →
  ∃ st', findOrRequestRevs_loop findAncestors callback rest st = Some st'
    ∧ find_out st'
      = (leading
         ++ trim_zeros (entryOf findAncestors <$> (seen ++ rest)))%list
    ∧ find_requestedSequences st'
      = sequencesOf findAncestors callback (first ++ seen ++ rest).
Proof.
  induction rest as [|change rest IH];
    intros seen st Hvalid Hlen Hi Hfirst Hout Hw Hseq.
  - exists st. by rewrite !app_nil_r.
  - apply Forall_cons in Hvalid as [Hchange Hvalid].
    rewrite findOrRequestRevs_loop_cons by done.
    rewrite length_cons in Hlen.
    destruct (trim_zeros_decompose (entryOf findAncestors <$> seen))
      as (k & Hdec & Hk).
    rewrite length_fmap in Hk.
    assert (Hsnoc : ∀ l, (seen ++ change :: l = (seen ++ [change]) ++ l)%list)
      by (intros; by rewrite <- app_assoc).
    rewrite (Hsnoc rest).
    destruct (requestedChange findAncestors change) eqn:Hreq.
    + destruct (requestedChange_entry change Hreq) as [a Ha].
      rewrite writeZeros_result;
        [|rewrite Hw, Hi, Hout, length_app; lia
         |rewrite Hi; lia
         |rewrite Hw, Hi, Hout, length_app; lia].
      apply IH; cbn [find_i find_out find_itemsWritten find_requestedSequences];
        try done.
      * rewrite length_app. cbn [length]. lia.
      * unfold uint32. rewrite Z.mod_small by (rewrite Hi; lia).
        rewrite Hi, length_app. cbn [length]. lia.
      * rewrite fmap_app. cbn [fmap list_fmap]. rewrite Ha.
        rewrite trim_zeros_snoc_ancestors.
        rewrite Hw, Hi, Hout, length_app.
        replace (Z.to_nat (Z.of_nat (length first + length seen)
                           - Z.of_nat (length leading
                                       + length (trim_zeros
                                                   (entryOf findAncestors
                                                    <$> seen)))
                           - 1)) with k by lia.
        rewrite <- !app_assoc. f_equal. rewrite app_assoc. by rewrite <- Hdec.
      * rewrite Hw, Hi, Hout, !length_app, length_replicate. cbn [length].
        rewrite Hout, length_app in Hw. lia.
      * rewrite app_assoc, sequencesOf_snoc, Hreq, <- Hseq.
        destruct callback; cbn [andb]; [done|by rewrite app_nil_r].
    + apply IH; cbn [find_i find_out find_itemsWritten find_requestedSequences];
        try done.
      * rewrite length_app. cbn [length]. lia.
      * unfold uint32. rewrite Z.mod_small by (rewrite Hi; lia).
        rewrite Hi, length_app. cbn [length]. lia.
      * rewrite fmap_app. cbn [fmap list_fmap].
        rewrite (not_requestedChange_entry change Hreq).
        by rewrite trim_zeros_snoc_zero.
      * rewrite app_assoc, sequencesOf_snoc, Hreq, <- Hseq.
        rewrite andb_false_r. by rewrite app_nil_r.
Qed.

(** Before any revision that is not asked for: the entries written are
    those of the items [seen], each in its place. *)
Lemma findOrRequestRevs_loop_leading : ∀ rest seen st,
  Forall (λ c, validChange c = true) rest →
  (Z.of_nat (length seen + length rest) < 2 ^ 32 - 1)%Z →
  find_i st = Z.of_nat (length seen) →
  find_out st = entryOf findAncestors <$> seen →
  find_itemsWritten st = Z.of_nat (length seen) →
  find_requestedSequences st = sequencesOf findAncestors callback seen →
  ∃ st', findOrRequestRevs_loop findAncestors callback rest st = Some st'
    ∧ (Forall (λ c, requestedChange findAncestors c = true) rest →
       find_out st' = entryOf findAncestors <$> (seen ++ rest)%list)
    ∧ (∀ P K R, rest = (P ++ K :: R)%list →
         Forall (λ c, requestedChange findAncestors c = true) P →
         requestedChange findAncestors K = false →
         find_out st'
         = ((entryOf findAncestors <$> (seen ++ P)%list)
            ++ trim_zeros (entryOf findAncestors <$> R))%list)
    ∧ find_requestedSequences st'
      = sequencesOf findAncestors callback (seen ++ rest)%list.
Proof.
  induction rest as [|change rest IH];
    intros seen st Hvalid Hlen Hi Hout Hw Hseq.
  - exists st. rewrite !app_nil_r. repeat split; try done.
    intros P K R HP. by destruct P.
  - apply Forall_cons in Hvalid as [Hchange Hvalid].
    rewrite findOrRequestRevs_loop_cons by done.
    rewrite length_cons in Hlen.
    assert (Hsnoc : ∀ l, (seen ++ change :: l = (seen ++ [change]) ++ l)%list)
      by (intros; by rewrite <- app_assoc).
    destruct (requestedChange findAncestors change) eqn:Hreq.
    + rewrite writeZeros_result;
        [|rewrite Hw, Hi; lia|rewrite Hi; lia|rewrite Hw, Hi; lia].
      rewrite Hw, Hi, Z.sub_diag. cbn [Z.sub Z.to_nat Z.opp Z.add replicate].
      rewrite app_nil_r.
      destruct (IH (seen ++ [change])%list
                  (mkFindState (uint32 (Z.of_nat (length seen) + 1))
                     (Z.max (Z.of_nat (length seen) + 1)
                            (Z.of_nat (length seen)))
                     (uint32 (find_requested st + 1))
                     (find_out st ++ [entryOf findAncestors change])
                     (if callback
                      then (find_requestedSequences st
                            ++ option_list (changeSequence change))%list
                      else find_requestedSequences st)))
        as (st' & Hloop & Hall & Hsplit & Hseq');
        cbn [find_i find_out find_itemsWritten find_requestedSequences];
        try done.
      * rewrite length_app. cbn [length]. lia.
      * unfold uint32. rewrite Z.mod_small by lia.
        rewrite length_app. cbn [length]. lia.
      * by rewrite fmap_app, Hout.
      * rewrite length_app. cbn [length]. lia.
      * rewrite sequencesOf_snoc, Hreq, <- Hseq.
        destruct callback; cbn [andb]; [done|by rewrite app_nil_r].
      * exists st'. split; [done|]. rewrite (Hsnoc rest).
        split; [|split; [|done]].
        -- intros [_ Hrest]%Forall_cons. by apply Hall.
        -- intros P K R HP HPreq HK. destruct P as [|c P].
           ++ simpl in HP. injection HP as -> ->. congruence.
           ++ simpl in HP. injection HP as -> ->.
              apply Forall_cons in HPreq as [_ HPreq].
              rewrite (Hsplit P K R eq_refl HPreq HK).
              by rewrite <- app_assoc.
    + destruct (findOrRequestRevs_loop_after_known
                  (entryOf findAncestors <$> seen) (seen ++ [change])%list rest []
                  (mkFindState (uint32 (find_i st + 1)) (find_itemsWritten st)
                     (find_requested st) (find_out st)
                     (find_requestedSequences st)))
        as (st' & Hloop & Hout' & Hseq');
        cbn [find_i find_out find_itemsWritten find_requestedSequences];
        try done.
      * rewrite length_app. cbn [length]. lia.
      * unfold uint32. rewrite Hi, Z.mod_small by lia.
        rewrite length_app. cbn [length]. lia.
      * rewrite length_app, length_fmap. cbn [length]. lia.
      * by rewrite Hout, app_nil_r.
      * by rewrite Hw, Hout, length_fmap.
      * rewrite app_nil_r, sequencesOf_snoc, Hreq, <- Hseq.
        by rewrite andb_false_r, app_nil_r.
      * exists st'. split; [done|]. split; [|split].
        -- intros [Hc _]%Forall_cons. congruence.
        -- intros P K R HP HPreq HK. destruct P as [|c P].
           ++ simpl in HP. injection HP as -> ->.
              by rewrite Hout', app_nil_r.
           ++ simpl in HP. injection HP as -> ->.
              apply Forall_cons in HPreq as [Hc _]. congruence.
        -- by rewrite Hseq', <- app_assoc.
Qed.

Lemma findOrRequestRevs_loop_invalid : ∀ changes st,
  forallb validChange changes = false →
  findOrRequestRevs_loop findAncestors callback changes st = None.
Proof.
  induction changes as [|change rest IH]; intros st Hinv; [done|].
  cbn [forallb] in Hinv.
  destruct (validChange change) eqn:Hvalid.
  - rewrite findOrRequestRevs_loop_cons by done. by apply IH.
  - cbn [findOrRequestRevs_loop]. unfold validChange in Hvalid.
    by destruct (changeDocID change), (changeRevID change).
Qed.

End FindOrRequestRevs.

(** X24. What the response to a "changes" message holds.  Take a message
    of fewer than 2^32 - 1 items.  An item without docID or revID ends
    the call with no response and no callback.  Otherwise the callback
    gets the sequences of the requested revisions, and the response
    array is: when all revisions are requested, their ancestor lists,
    each at its item's index; when the first revision that is not
    requested comes after the items [P] and before the items [R], the
    ancestor lists of [P], each at its item's index, followed directly
    by the entries of [R] (ancestor lists, 0 for what is not requested)
    without trailing zeros.  So the first revision that is not requested
    gets no entry, and the entries of the items after it stand one place
    early. *)
Theorem findOrRequestRevs_response findAncestors callback changes :
  (Z.of_nat (length changes) < 2 ^ 32 - 1)%Z →
  if forallb validChange changes
  then ∃ out,
      findOrRequestRevs findAncestors callback changes
      = Some (out, sequencesOf findAncestors callback changes)
      ∧ (Forall (λ c, requestedChange findAncestors c = true) changes →
         out = entryOf findAncestors <$> changes)
      ∧ (∀ P K R, changes = (P ++ K :: R)%list →
           Forall (λ c, requestedChange findAncestors c = true) P →
           requestedChange findAncestors K = false →
           out = ((entryOf findAncestors <$> P)
                  ++ trim_zeros (entryOf findAncestors <$> R))%list)
  else findOrRequestRevs findAncestors callback changes = None.
Proof.
  intros Hlen. unfold findOrRequestRevs.
  destruct (forallb validChange changes) eqn:Hvalid.
  - destruct (findOrRequestRevs_loop_leading findAncestors callback
                changes [] (mkFindState 0 0 0 [] []))
      as (st' & -> & Hall & Hsplit & ->); try done.
    + apply Forall_forall. intros c Hc%list_elem_of_In.
      by apply (proj1 (forallb_forall _ _) Hvalid).
    + unfold sequencesOf. by destruct callback.
    + exists (find_out st'). split; [done|]. split; [done|].
      intros P K R HP. by apply Hsplit.
  - by rewrite findOrRequestRevs_loop_invalid.
Qed.

Lemma findOrRequestRevs_response_witness :
  let findAncestors := λ docID _ : string,
    (String.eqb docID "known", ["1-aa"]) in
  findOrRequestRevs findAncestors true
    [mkChange (Some "7") (Some "known") (Some "2-bb");
     mkChange (Some "8") (Some "new") (Some "2-cc")]
  = Some ([writeAncestors ["1-aa"]], ["8"]).
Proof.
  intros findAncestors.
  pose proof (findOrRequestRevs_response findAncestors true
                [mkChange (Some "7") (Some "known") (Some "2-bb");
                 mkChange (Some "8") (Some "new") (Some "2-cc")]
                ltac:(vm_compute; reflexivity)) as H.
  cbn [forallb] in H.
  destruct H as (out & -> & _ & Hsplit).
  rewrite (Hsplit [] (mkChange (Some "7") (Some "known") (Some "2-bb"))
             [mkChange (Some "8") (Some "new") (Some "2-cc")]
             eq_refl (Forall_nil_2 _) eq_refl).
  reflexivity.
Defined.

(** *** What the observer's changes become *)

Lemma dbChanged_loop_calls : ∀ batches changes,
  length (dbChanged_loop batches changes) = length (reported batches)
  ∧ ∀ j : nat, (j < length (reported batches))%nat →
      dbChanged_loop batches changes !! j
      = Some (changes ++ (Rev_of <$> concat (take (S j) (reported batches))))%list.
Proof.
  induction batches as [|batch rest IH]; intros changes.
  - split; [done|]. simpl. lia.
  - destruct batch as [|c batch]; [split; [done|simpl; lia]|].
    cbn [dbChanged_loop reported]. cbv zeta.
    destruct (IH (changes ++ (Rev_of <$> c :: batch))%list) as [Hlen Hcalls].
    split; [cbn [length]; by rewrite Hlen|].
    intros [|j] Hj.
    + cbn [lookup list_lookup take concat]. rewrite take_0. cbn [concat].
      by rewrite app_nil_r.
    + cbn [length] in Hj. cbn [lookup list_lookup].
      rewrite Hcalls by lia.
      cbn [take concat]. by rewrite fmap_app, app_assoc.
Qed.

(** X30. What the pusher is told.  Each round of [dbChanged] that the
    observer gives changes ends with one call of [gotChanges], and the
    vector handed over holds all changes read since [dbChanged] began,
    those of earlier rounds first: the vector is not emptied between
    rounds.  The rounds end with the first batch that is empty. *)
Theorem dbChanged_hands_over_all_so_far batches :
  length (dbChanged batches) = length (reported batches)
  ∧ ∀ j : nat, (j < length (reported batches))%nat →
      dbChanged batches !! j
      = Some (Rev_of <$> concat (take (S j) (reported batches))).
Proof. exact (dbChanged_loop_calls batches []). Qed.

End DBActorLaws.

(** ** Key-store handles and transactions *)

Module DatabaseLaws.
Import Database.

(** X25. Open, open again, close.  On a database that has no entry for
    [name], [openKVS] opens the key-store and caches its handle; until the
    key-store is closed, every further [openKVS] of the name hands out
    that handle without asking the engine, and [contains] knows the
    key-store; a successful [closeKeyStore] then closes the handle and
    leaves the database as it was before. *)
Theorem openKVS_caches_until_closed fresh name db status fresh' :
  _kvHandles db !! name = None →
  fresh ∉ openHandles db →
  let opened := openKVS 0 fresh name db in
  opened.1 = Ok (Some fresh)
  ∧ openKVS status fresh' name opened.2 = (Ok (Some fresh), opened.2)
  ∧ contains name (Some fresh) opened.2 = true
  ∧ closeKeyStore 0 name opened.2 = (Ok (), db)
  ∧ contains name (Some fresh) db = false.
Proof.
  intros Habsent Hfresh. destruct db as [handles open]. simpl in *.
  unfold openKVS, closeKeyStore, subscript, contains. simpl.
  rewrite Habsent. simpl. rewrite !lookup_insert_eq. simpl.
  split; [done|]. split; [done|].
  split; [by apply bool_decide_eq_true_2|].
  split; [|done].
  f_equal. f_equal.
  - rewrite delete_insert_eq. by apply delete_id.
  - apply set_eq. intros x.
    rewrite elem_of_difference, elem_of_union, elem_of_singleton.
    split; [by intros [[?|?] ?]|]. intros Hx. split; [by left|].
    by intros ->.
Qed.

Lemma openKVS_caches_until_closed_witness :
  closeKeyStore 0 "docs" (openKVS 0 7 "docs" (mk ∅ ∅)).2 = (Ok (), mk ∅ ∅).
Proof.
  destruct (openKVS_caches_until_closed 7 "docs" (mk ∅ ∅) 0 8)
    as (_ & _ & _ & Hclose & _).
  - reflexivity.
  - apply not_elem_of_empty.
  - exact Hclose.
Defined.

(** X26. The handle cache stays sound.  If every cached handle is open in
    the engine and no two names share a handle, this is still so after
    [openKVS] (the engine handing out a handle it has not handed out
    before) and after [closeKeyStore] of a name that is cached; and a
    [closeKeyStore] that the engine refuses throws the engine's status
    and changes nothing. *)
Theorem handle_cache_stays_sound status fresh name db :
  handles_open db →
  fresh ∉ openHandles db →
  handles_open (openKVS status fresh name db).2
  ∧ (∀ h, _kvHandles db !! name = Some h →
       handles_open (closeKeyStore status name db).2
       ∧ (status ≠ 0%Z →
          closeKeyStore status name db = (Throw (ForestDBError status), db))).
Proof.
  intros [Hopen Hinj] Hfresh. destruct db as [handles open]. simpl in *.
  split.
  - unfold openKVS, check. simpl.
    destruct (handles !! name) as [h|] eqn:Hname; [done|].
    destruct (Z.eqb_spec status 0); [|done].
    unfold handles_open. cbn [snd _kvHandles openHandles]. split.
    + intros name' h'. destruct (decide (name' = name)) as [->|Hne].
      * rewrite lookup_insert_eq. intros [= <-]. exists fresh.
        split; [done|]. apply elem_of_union. right.
        by apply elem_of_singleton.
      * rewrite lookup_insert_ne by done. intros Hh'.
        destruct (Hopen _ _ Hh') as (n & -> & Hn). exists n.
        split; [done|]. apply elem_of_union. by left.
    + intros name1 name2 h.
      destruct (decide (name1 = name)) as [->|Hne1],
               (decide (name2 = name)) as [->|Hne2]; [done| | |].
      * rewrite lookup_insert_eq, lookup_insert_ne by done.
        intros [= <-] H2. destruct (Hopen _ _ H2) as (n & [= <-] & Hn). done.
      * rewrite lookup_insert_eq, lookup_insert_ne by done.
        intros H1 [= <-]. destruct (Hopen _ _ H1) as (n & [= <-] & Hn). done.
      * rewrite !lookup_insert_ne by done. apply Hinj.
  - intros h Hname. unfold closeKeyStore, subscript, check. simpl.
    rewrite Hname. destruct (Hopen _ _ Hname) as (n & -> & Hn).
    destruct (Z.eqb_spec status 0) as [->|Hfail];
      unfold handles_open; cbn [snd _kvHandles openHandles].
    + split; [|done]. split.
      * intros name' h'. destruct (decide (name' = name)) as [->|Hne].
        -- by rewrite lookup_delete_eq.
        -- rewrite lookup_delete_ne by done. intros Hh'.
           destruct (Hopen _ _ Hh') as (n' & -> & Hn'). exists n'.
           split; [done|]. apply elem_of_difference. split; [done|].
           intros ->%elem_of_singleton. apply Hne.
           by apply (Hinj name' name (Some n)).
      * intros name1 name2 h.
        destruct (decide (name1 = name)) as [->|Hne1];
          [by rewrite lookup_delete_eq|].
        destruct (decide (name2 = name)) as [->|Hne2];
          [by rewrite (lookup_delete_eq _ name)|].
        rewrite !lookup_delete_ne by done. apply Hinj.
    + split; [|done]. by split.
Qed.

Lemma handle_cache_stays_sound_witness :
  handles_open (openKVS 0 7 "docs" (mk ∅ ∅)).2.
Proof.
  apply (handle_cache_stays_sound 0 7 "docs" (mk ∅ ∅)).
  - split; [intros name h|intros name1 name2 h];
      cbn [_kvHandles]; by rewrite lookup_empty.
  - apply not_elem_of_empty.
Defined.

(** *** Transactions *)

Lemma checked_result statuses st :
  checked statuses st
  = match find (λ s, bool_decide (s ≠ 0%Z)) statuses with
    | Some s => (Throw (ForestDBError s), kAbort)
    | None => (Ok (), st)
    end.
Proof.
  induction statuses as [|s rest IH]; [done|].
  cbn [checked find]. unfold Transaction_check, check.
  destruct (Z.eqb_spec s 0) as [->|Hne].
  - by rewrite bool_decide_eq_false_2 by (by intros ?).
  - by rewrite bool_decide_eq_true_2.
Qed.

(** X27. The life of a transaction.  A [Transaction] made while the file
    is free never leaves the file taken, however it ends.  If the engine
    refuses to begin, the constructor throws its status and nothing more
    is asked of the engine.  Otherwise, if every checked operation in the
    scope succeeds, the destructor commits a transaction that was begun
    and asks nothing of the engine for one that was not; if the engine
    refuses that commit, the status is thrown inside the destructor,
    which may not throw, and the process is ended.  When a checked
    operation fails, the scope ends with its status and the destructor
    aborts and returns: the engine is never asked to commit after a
    failure. *)
Theorem Transaction_life_outcomes begin beginStatus statuses endStatus t file :
  _transaction file = None →
  let r := Transaction_life begin beginStatus statuses endStatus t file in
  let failed := find (λ s, bool_decide (s ≠ 0%Z)) statuses in
  _transaction r.2 = None
  ∧ r
    = if begin && negb (beginStatus =? 0)%Z
      then (NotBegun (ForestDBError beginStatus),
            mkFile None (calls file ++ [fdb_begin_transaction]))
      else
        (match failed with
         | Some s => Lived (Throw (ForestDBError s))
         | None => if begin && negb (endStatus =? 0)%Z
                   then Terminated (Ok ())
                   else Lived (Ok ())
         end,
         mkFile None
           (calls file
            ++ (if begin then [fdb_begin_transaction] else [])
            ++ match failed with
               | Some _ => [fdb_abort_transaction]
               | None => if begin then [fdb_end_transaction] else []
               end)).
Proof.
  intros Hfree r failed. subst r failed.
  unfold Transaction_life, beginTransaction, check. rewrite Hfree.
  destruct file as [slot called]. simpl in Hfree. subst slot.
  destruct begin; cbn [andb negb calls _transaction].
  - destruct (Z.eqb_spec beginStatus 0) as [->|Hfail]; cbn [negb];
      [|done].
    rewrite checked_result.
    destruct (find _ statuses) as [s|]; unfold endTransaction, check;
      cbn [calls _transaction]; rewrite bool_decide_eq_true_2 by done;
      cbn [Z.eqb]; rewrite <- ?app_assoc; [done|].
    by destruct (endStatus =? 0)%Z.
  - rewrite checked_result.
    destruct (find _ statuses) as [s|]; unfold endTransaction, check;
      cbn [calls _transaction]; rewrite bool_decide_eq_true_2 by done;
      cbn [Z.eqb app]; rewrite ?app_nil_r; done.
Qed.

Lemma Transaction_life_outcomes_witness :
  Transaction_life true 0 [0; 5; 0]%Z 0 1 (mkFile None [])
  = (Lived (Throw (ForestDBError 5)),
     mkFile None [fdb_begin_transaction; fdb_abort_transaction])
  ∧ Transaction_life true 0 [0; 0]%Z 12 1 (mkFile None [])
    = (Terminated (Ok ()),
       mkFile None [fdb_begin_transaction; fdb_end_transaction]).
Proof.
  destruct (Transaction_life_outcomes true 0 [0; 5; 0]%Z 0 1 (mkFile None [])
              eq_refl) as [_ H].
  destruct (Transaction_life_outcomes true 0 [0; 0]%Z 12 1 (mkFile None [])
              eq_refl) as [_ H'].
  exact (conj H H').
Defined.

End DatabaseLaws.
